(** * Seeding strategies of the tractography module

    A shallow embedding of [src/dwi/tractography/seeding/basic.cpp]:
    the five seed-sampling strategies [Sphere], [SeedMask],
    [Random_per_voxel], [Grid_per_voxel] and [Rejection], together with
    the construction step of [Rejection].

    Conventions of the embedding.
    - A [float] value is the rational number it denotes ([Q]); every
      arithmetic operation on [float] yields the exact result rounded to
      single precision ([round32]: 24-bit significand, to nearest, ties
      to even). The exponent range is not bounded: overflow to infinity
      and gradual underflow are not modelled. Comparisons are exact.
      Two products are left exact: the product of the coordinate
      transform with a point ([transform_apply]) and the threshold
      [uniform(rng) * max] of rejection sampling.
    - Integer indices and sizes are [Z].
    - The shared random engine [rng] is an explicit state: the outcomes
      of the successive calls of a distribution, each as a number of the
      unit interval, and the number of calls made so far. How many
      outputs of the engine a call of a distribution consumes is not
      modelled.
    - Every [get_seed] takes the caller's vector [p] and returns the
      boolean result together with the (possibly overwritten) vector, the
      updated object and the updated engine.
    - Loops are run with a bound on the number of iterations ([fuel]);
      [None] means that the bound was reached before the loop ended.
    - The mutex of the per-voxel strategies serialises the calls; the
      embedding is the resulting sequential semantics. *)

From Stdlib Require Import ZArith QArith Qround Qpower Qabs Qreduction SpecFloat.
From Stdlib Require Import List Bool Lia Lqa String.
Import ListNotations.

Open Scope Z_scope.

(** ** Data model *)

(** Integer voxel index, [index(0)], [index(1)], [index(2)]. *)
Record Index := mkIndex { ix0 : Z; ix1 : Z; ix2 : Z }.

(** [Eigen::Vector3f]. *)
Record Vector3 := mkVec { vx : Q; vy : Q; vz : Q }.

(** [Eigen::Vector3i]. *)
Record Vector3i := mkVeci { px : Z; py : Z; pz : Z }.

(** Affine voxel-to-scanner transform: a 3x3 linear part and a
    translation. *)
Record Transform := mkTransform {
  m00 : Q; m01 : Q; m02 : Q;
  m10 : Q; m11 : Q; m12 : Q;
  m20 : Q; m21 : Q; m22 : Q;
  tr0 : Q; tr1 : Q; tr2 : Q
}.

(** An image restricted to its three spatial axes: the extents, the value
    read at an index and the voxel-to-scanner transform. *)
Record Image (A : Type) := mkImage {
  size0 : Z; size1 : Z; size2 : Z;
  value : Index -> A;
  voxel2scanner : Transform
}.
Arguments mkImage {A}.
Arguments size0 {A}.
Arguments size1 {A}.
Arguments size2 {A}.
Arguments value {A}.
Arguments voxel2scanner {A}.

(** The random engine: the outcome of every call of a distribution, as a
    number of the unit interval, and the number of calls made so far. *)
Record Rng := mkRng { tape : nat -> Q; drawn : nat }.

(** ** Single-precision arithmetic *)

(** [2^e] for an exponent of either sign. *)
Definition pow2 (e : Z) : Q := (2 ^ e)%Q.

(** The exponent of the binade of a positive number: the largest [e]
    with [2^e <= a]. *)
Definition ilog2 (a : Q) : Z :=
  let c := Z.log2 (Qnum a) - Z.log2 (Zpos (Qden a)) in
  if Qle_bool (pow2 c) a then c else c - 1.

(** Rounding to the nearest integer, ties to the even one. *)
Definition rne (m : Q) : Z :=
  let f := Qfloor m in
  match (m - inject_Z f ?= 1#2)%Q with
  | Lt => f
  | Gt => f + 1
  | Eq => if Z.even f then f else f + 1
  end.

(** Rounding to the nearest multiple of [2^e]. *)
Definition round_at (e : Z) (x : Q) : Q :=
  (inject_Z (rne (x / pow2 e)) * pow2 e)%Q.

(** Rounding of a positive number to 24 significant bits. *)
Definition round_pos (a : Q) : Q := round_at (ilog2 a - 23) a.

(** The [float] that holds the exact result [x]: the nearest number with
    a 24-bit significand, ties to even, as a fraction in lowest terms. *)
Definition round32 (x : Q) : Q :=
  Qred (match (x ?= 0)%Q with
        | Eq => 0
        | Gt => round_pos x
        | Lt => - round_pos (- x)
        end)%Q.

(** A number that a [float] holds exactly: rounding leaves it as it is,
    and it lies within the range of [float], below [2^128] in magnitude
    and a multiple of [2^-149]. *)
Definition representable (x : Q) : Prop :=
  (round32 x == x)%Q /\ (Qabs x < pow2 128)%Q /\
  exists m : Z, (x == inject_Z m * pow2 (-149))%Q.

(** Conversion of an integer to [float]. *)
Definition float_of_int (z : Z) : Q := round32 (inject_Z z).

(** The operations [+], [-] and [*] on [float]. *)
Definition fadd (x y : Q) : Q := round32 (x + y).

Definition fsub (x y : Q) : Q := round32 (x - y).

Definition fmul (x y : Q) : Q := round32 (x * y).

(** *** Comparison with the standard specification of IEEE 754 *)

(** The rational number denoted by a finite floating-point number of the
    standard specification of IEEE 754 arithmetic. *)
Definition SF2Q (x : spec_float) : Q :=
  match x with
  | S754_finite s m e => ((if s then -1 else 1) * inject_Z (Zpos m) * pow2 e)%Q
  | _ => 0%Q
  end.

(** Some numbers of binary32 (24-bit significand, exponent of the
    infinities 128): 1, [1 - 2^-24], [1 - 2^-23], 1/2, [0.1f], [0.2f],
    [1/3], 3, 7.5, 100, 8388609, [2^-11], [2^-20], and some of their
    opposites. *)
Definition binary32_samples : list spec_float :=
  [ S754_finite false 8388608 (-23); S754_finite false 16777215 (-24);
    S754_finite false 16777214 (-24); S754_finite false 8388608 (-24);
    S754_finite false 13421773 (-27); S754_finite false 13421773 (-26);
    S754_finite false 11184811 (-25); S754_finite false 12582912 (-22);
    S754_finite false 15728640 (-21); S754_finite false 13107200 (-17);
    S754_finite false 8388609 0; S754_finite false 8388608 (-34);
    S754_finite false 8388608 (-43); S754_finite true 16777200 (-25);
    S754_finite true 8388608 (-23); S754_finite true 13421773 (-27);
    S754_finite true 11184811 (-25); S754_finite true 13107200 (-17) ].

(** The result [r] of an operation of the standard specification denotes
    the number [q]. *)
Definition denotes (r : spec_float) (q : Q) : bool :=
  match r with
  | S754_finite _ _ _ => Qeq_bool (SF2Q r) q
  | S754_zero _ => Qeq_bool 0 q
  | _ => false
  end.

(** On two numbers of binary32 the operations [fadd], [fsub] and [fmul]
    give what the standard specification gives. *)
Definition agrees (a b : spec_float) : bool :=
  denotes (SFadd 24 128 a b) (fadd (SF2Q a) (SF2Q b)) &&
  denotes (SFsub 24 128 a b) (fsub (SF2Q a) (SF2Q b)) &&
  denotes (SFmul 24 128 a b) (fmul (SF2Q a) (SF2Q b)).

(** ** Vectors and transforms *)

(** [p.squaredNorm()]: the sum of the squares of the components, every
    operation rounded. The order of the two additions is that of the
    Eigen library, which is not part of the sources; the squares are
    summed here from the first component on. *)
Definition squaredNorm (p : Vector3) : Q :=
  fadd (fadd (fmul (vx p) (vx p)) (fmul (vy p) (vy p))) (fmul (vz p) (vz p)).

(** The squared Euclidean length of a vector, without rounding. *)
Definition squared_length (p : Vector3) : Q :=
  (vx p * vx p + vy p * vy p + vz p * vz p)%Q.

(** The difference of two vectors, without rounding. *)
Definition vsub (a b : Vector3) : Vector3 :=
  mkVec (vx a - vx b) (vy a - vy b) (vz a - vz b).

(** Component-wise equality of rational vectors. *)
Definition veq (a b : Vector3) : Prop :=
  (vx a == vx b /\ vy a == vy b /\ vz a == vz b)%Q.

(** [T * p] for an affine transform. *)
Definition transform_apply (T : Transform) (p : Vector3) : Vector3 :=
  mkVec (m00 T * vx p + m01 T * vy p + m02 T * vz p + tr0 T)
        (m10 T * vx p + m11 T * vy p + m12 T * vz p + tr1 T)
        (m20 T * vx p + m21 T * vy p + m22 T * vz p + tr2 T).

Definition identity_transform : Transform :=
  mkTransform 1 0 0 0 1 0 0 0 1 0 0 0.

(** [b] inverts [a] on every point. *)
Definition inverse_of (b a : Transform) : Prop :=
  forall p, veq (transform_apply b (transform_apply a p)) p.

Definition Qlt_bool (x y : Q) : bool := negb (Qle_bool y x).

(** Nearest voxel of a point given in voxel coordinates. *)
Definition nearest_voxel (p : Vector3) : Index :=
  mkIndex (Qfloor (vx p + (1#2))) (Qfloor (vy p + (1#2))) (Qfloor (vz p + (1#2))).

Definition index_eqb (a b : Index) : bool :=
  (ix0 a =? ix0 b) && (ix1 a =? ix1 b) && (ix2 a =? ix2 b).

Definition in_grid {A} (m : Image A) (i : Index) : Prop :=
  0 <= ix0 i < size0 m /\ 0 <= ix1 i < size1 m /\ 0 <= ix2 i < size2 m.

Definition positive_extent {A} (m : Image A) : Prop :=
  0 < size0 m /\ 0 < size1 m /\ 0 < size2 m.

(** ** The random engine *)

(** Every outcome lies in the half-open unit interval. *)
Definition unit_tape (g : Rng) : Prop :=
  forall n, (0 <= tape g n /\ tape g n < 1)%Q.

Definition rng_next (g : Rng) : Rng := mkRng (tape g) (S (drawn g)).

(** [std::uniform_real_distribution<float> uniform; uniform(rng)]. *)
Definition uniform (g : Rng) : Q * Rng := (tape g (drawn g), rng_next g).

(** [std::uniform_int_distribution<int>(a, b)(rng)]: an integer of the
    closed range, read off the outcome of the call by scaling it onto
    the [b - a + 1] integers of the range. Every integer of the range is
    the result for some outcome, and no other integer is. *)
Definition uniform_int (a b : Z) (g : Rng) : Z * Rng :=
  (a + Qfloor (tape g (drawn g) * inject_Z (b - a + 1)), rng_next g).

(** ** Loops *)

(** [do { s = body(s); } while (again(s));] with at most [fuel]
    executions of the body. *)
Fixpoint do_while {S : Type} (fuel : nat) (body : S -> S) (again : S -> bool)
    (s : S) : option S :=
  match fuel with
  | O => None
  | Datatypes.S fuel' =>
      let s' := body s in
      if again s' then do_while fuel' body again s' else Some s'
  end.

(** [n] executions of a loop body. *)
Fixpoint iterate {S : Type} (n : nat) (body : S -> S) (s : S) : S :=
  match n with
  | O => s
  | Datatypes.S n' => iterate n' body (body s)
  end.

(** Result of a [get_seed] call: the returned boolean, the caller's
    vector afterwards, the object afterwards and the engine afterwards. *)
Definition Result (Self : Type) : Type := (bool * Vector3 * Self * Rng)%type.

(** ** Sphere *)

Record Sphere := mkSphere { pos : Vector3; rad : Q }.

(** [2.0f*uniform(rng)-1.0f] *)
Definition Sphere_coordinate (u : Q) : Q := fsub (fmul 2 u) 1.

(** [p = { 2.0f*uniform(rng)-1.0f, 2.0f*uniform(rng)-1.0f, 2.0f*uniform(rng)-1.0f }] *)
Definition Sphere_draw (s : Vector3 * Rng) : Vector3 * Rng :=
  let '(u0, g0) := uniform (snd s) in
  let '(u1, g1) := uniform g0 in
  let '(u2, g2) := uniform g1 in
  (mkVec (Sphere_coordinate u0) (Sphere_coordinate u1) (Sphere_coordinate u2), g2).

(** [p.squaredNorm() > 1.0f] *)
Definition Sphere_again (s : Vector3 * Rng) : bool :=
  Qlt_bool 1 (squaredNorm (fst s)).

(** [pos + rad*p], component by component: the product is rounded, and
    then the sum. *)
Definition Sphere_place (self : Sphere) (c : Vector3) : Vector3 :=
  mkVec (fadd (vx (pos self)) (fmul (rad self) (vx c)))
        (fadd (vy (pos self)) (fmul (rad self) (vy c)))
        (fadd (vz (pos self)) (fmul (rad self) (vz c))).

Definition Sphere_get_seed (fuel : nat) (self : Sphere) (p : Vector3) (g : Rng)
    : option (Result Sphere) :=
  match do_while fuel Sphere_draw Sphere_again (p, g) with
  | None => None
  | Some (p1, g1) =>
      let p2 := Sphere_place self p1 in
      Some (true, p2, self, g1)
  end.

(** ** SeedMask *)

Record SeedMask := mkSeedMask { sm_mask : Image bool }.

(** The three [seed.index(d) = uniform_int_distribution<int>(0, size(d)-1)(rng)]
    assignments of a loop body, for an image with the extents of [m]. *)
Definition draw_index {A} (m : Image A) (g : Rng) : Index * Rng :=
  let '(i0, g0) := uniform_int 0 (size0 m - 1) g in
  let '(i1, g1) := uniform_int 0 (size1 m - 1) g0 in
  let '(i2, g2) := uniform_int 0 (size2 m - 1) g1 in
  (mkIndex i0 i1 i2, g2).

(** [index(d)+uniform(rng)-0.5f]: the integer index is converted to
    [float], the sample is added and one half is subtracted. *)
Definition jitter_axis (i : Z) (u : Q) : Q :=
  fsub (fadd (float_of_int i) u) (1#2).

(** [p = { index(0)+uniform(rng)-0.5f, index(1)+uniform(rng)-0.5f,
          index(2)+uniform(rng)-0.5f }] *)
Definition jitter (i : Index) (g : Rng) : Vector3 * Rng :=
  let '(u0, g0) := uniform g in
  let '(u1, g1) := uniform g0 in
  let '(u2, g2) := uniform g1 in
  (mkVec (jitter_axis (ix0 i) u0) (jitter_axis (ix1 i) u1) (jitter_axis (ix2 i) u2), g2).

Definition SeedMask_draw (self : SeedMask) (s : Index * Rng) : Index * Rng :=
  draw_index (sm_mask self) (snd s).

(** [!seed.value()] *)
Definition SeedMask_again (self : SeedMask) (s : Index * Rng) : bool :=
  negb (value (sm_mask self) (fst s)).

(** [auto seed = mask] copies the accessor; its index is overwritten by
    the first execution of the loop body, so the copy starts at the
    origin here. *)
Definition SeedMask_get_seed (fuel : nat) (self : SeedMask) (p : Vector3) (g : Rng)
    : option (Result SeedMask) :=
  match do_while fuel (SeedMask_draw self) (SeedMask_again self) (mkIndex 0 0 0, g) with
  | None => None
  | Some (seed, g1) =>
      let '(p1, g2) := jitter seed g1 in
      Some (true, transform_apply (voxel2scanner (sm_mask self)) p1, self, g2)
  end.

(** ** Rejection: sampling *)

Record Rejection := mkRejection {
  image : Image Q;
  max : Q;
  volume : Q;
  rej_voxel2scanner : Transform
}.

(** Loop state: the index of [seed], [selector] and the engine. The
    product [uniform(rng) * max] is not rounded. *)
Definition Rejection_draw (self : Rejection) (s : Index * Q * Rng) : Index * Q * Rng :=
  let '(i, g2) := draw_index (image self) (snd s) in
  let '(u, g3) := uniform g2 in
  (i, (u * max self)%Q, g3).

(** [seed.value() < selector] *)
Definition Rejection_again (self : Rejection) (s : Index * Q * Rng) : bool :=
  Qlt_bool (value (image self) (fst (fst s))) (snd (fst s)).

Definition Rejection_get_seed (fuel : nat) (self : Rejection) (p : Vector3) (g : Rng)
    : option (Result Rejection) :=
  match do_while fuel (Rejection_draw self) (Rejection_again self) (mkIndex 0 0 0, 0%Q, g) with
  | None => None
  | Some (seed, _, g1) =>
      let '(p1, g2) := jitter seed g1 in
      Some (true, transform_apply (rej_voxel2scanner self) p1, self, g2)
  end.

(** ** Rejection: construction *)

Definition Exception := string.

Definition range (n : Z) : list Z := map Z.of_nat (seq 0 (Z.to_nat n)).

(** All voxel indices with axis 2 varying fastest and axis 0 slowest. *)
Definition raster {A} (m : Image A) : list Index :=
  flat_map (fun i0 =>
    flat_map (fun i1 =>
      map (fun i2 => mkIndex i0 i1 i2) (range (size2 m)))
      (range (size1 m)))
    (range (size0 m)).

(** All voxel indices with axis 0 varying fastest and axis 2 slowest. *)
Definition raster_axis0_fastest {A} (m : Image A) : list Index :=
  flat_map (fun i2 =>
    flat_map (fun i1 =>
      map (fun i0 => mkIndex i0 i1 i2) (range (size0 m)))
      (range (size1 m)))
    (range (size2 m)).

(** Modelled from the spec: the [Loop] helper is not part of the sources;
    [Loop (0,3) (vox)] scans every voxel of the three spatial axes, the
    first axis innermost. *)
Definition Loop_0_3 {A} (m : Image A) : list Index := raster_axis0_fastest m.

(** [std::numeric_limits<size_t>::max()] *)
Definition SIZE_MAX : Z := 2 ^ 64 - 1.

(** [std::max (a, b)] *)
Definition std_max (a b : Q) : Q := if Qlt_bool a b then b else a.

(** The variables updated by the scan. *)
Record Scan := mkScan {
  sc_max : Q;
  sc_volume : Q;
  bottom0 : Z; bottom1 : Z; bottom2 : Z;
  top0 : Z; top1 : Z; top2 : Z
}.

(** Modelled from the spec: the constructor of the base class is not part
    of the sources; [volume] is a running sum and starts at zero. [max]
    is initialised to [0.0], [top] to zeros and the three entries of
    [bottom] to [SIZE_MAX] by the constructor of [Rejection] itself. *)
Definition scan_init : Scan := mkScan 0 0 SIZE_MAX SIZE_MAX SIZE_MAX 0 0 0.

Definition negative_message : Exception :=
  "Cannot have negative values in an image used for rejection sampling!"%string.

Definition empty_message (name : string) : Exception :=
  ("Cannot use image " ++ name ++ " for rejection sampling - image is empty")%string.

(** The eight assignments made for a voxel whose value is neither zero
    nor negative:
    [max = std::max (max, value); volume += value;] and the six updates
    of [bottom] and [top]. *)
Definition scan_update (vox : Image Q) (s : Scan) (i : Index) : Scan :=
  let v := value vox i in
  mkScan (std_max (sc_max s) v) (fadd (sc_volume s) v)
    (if ix0 i <? bottom0 s then ix0 i else bottom0 s)
    (if ix1 i <? bottom1 s then ix1 i else bottom1 s)
    (if ix2 i <? bottom2 s then ix2 i else bottom2 s)
    (if ix0 i >? top0 s then ix0 i else top0 s)
    (if ix1 i >? top1 s then ix1 i else top1 s)
    (if ix2 i >? top2 s then ix2 i else top2 s).

(** Body of the scanning loop at index [i]. *)
Definition scan_voxel (vox : Image Q) (s : Scan) (i : Index) : Exception + Scan :=
  let v := value vox i in
  if negb (Qeq_bool v 0) then
    if Qlt_bool v 0 then inl negative_message
    else inr (scan_update vox s i)
  else inr s.

Fixpoint scan (vox : Image Q) (l : list Index) (s : Scan) : Exception + Scan :=
  match l with
  | [] => inr s
  | i :: l' =>
      match scan_voxel vox s i with
      | inl e => inl e
      | inr s' => scan vox l' s'
      end
  end.

(** [if (bottom[d]) --bottom[d];] *)
Definition pad_bottom (b : Z) : Z := if b =? 0 then 0 else b - 1.

(** Modelled from the spec: [Adapter::Subset] is not part of the sources;
    it is the cropped sub-region view given lower and upper bounding-box
    indices, both inclusive. The view reads the original image at the
    lower corner plus its own index and maps its voxels to where the
    original maps them. *)
Definition Subset (vox : Image Q) (lo hi : Index) : Image Q :=
  let T := voxel2scanner vox in
  let s := transform_apply T (mkVec (inject_Z (ix0 lo)) (inject_Z (ix1 lo)) (inject_Z (ix2 lo))) in
  mkImage (ix0 hi - ix0 lo + 1) (ix1 hi - ix1 lo + 1) (ix2 hi - ix2 lo + 1)
    (fun i => value vox (mkIndex (ix0 lo + ix0 i) (ix1 lo + ix1 i) (ix2 lo + ix2 i)))
    (mkTransform (m00 T) (m01 T) (m02 T) (m10 T) (m11 T) (m12 T)
                 (m20 T) (m21 T) (m22 T) (vx s) (vy s) (vz s)).

(** The constructor, for the image [vox] opened from path [name]. The
    scratch buffer [buf] is a copy of the view [sub]. In
    [volume *= buf.size(0)*buf.size(1)*buf.size(2)] the integer product
    is converted to [float] and multiplied in single precision. *)
Definition Rejection_ctor (name : string) (vox : Image Q) : Exception + Rejection :=
  match scan vox (Loop_0_3 vox) scan_init with
  | inl e => inl e
  | inr s =>
      if Qeq_bool (sc_max s) 0 then inl (empty_message name)
      else
        let bottom := mkIndex (pad_bottom (bottom0 s)) (pad_bottom (bottom1 s))
                              (pad_bottom (bottom2 s)) in
        let top := mkIndex (top0 s) (top1 s) (top2 s) in
        let sub := Subset vox bottom top in
        let buf := sub in
        let volume' := fmul (sc_volume s)
                         (float_of_int (size0 buf * size1 buf * size2 buf)) in
        inr (mkRejection buf (sc_max s) volume' (voxel2scanner buf))
  end.

(** ** Position of a point relative to a voxel *)

(** The point [q], in voxel coordinates, is the centre of voxel [i] plus
    an offset in the half-open interval from -0.5 to 0.5 on each axis. *)
Definition within_voxel (i : Index) (q : Vector3) : Prop :=
  (-(1#2) <= vx q - inject_Z (ix0 i) /\ vx q - inject_Z (ix0 i) < 1#2)%Q /\
  (-(1#2) <= vy q - inject_Z (ix1 i) /\ vy q - inject_Z (ix1 i) < 1#2)%Q /\
  (-(1#2) <= vz q - inject_Z (ix2 i) /\ vz q - inject_Z (ix2 i) < 1#2)%Q.

(** The point [q], in voxel coordinates, is the centre of voxel [i] plus
    an offset in the closed interval from -0.5 to 0.5 on each axis. *)
Definition closed_voxel (i : Index) (q : Vector3) : Prop :=
  (-(1#2) <= vx q - inject_Z (ix0 i) /\ vx q - inject_Z (ix0 i) <= 1#2)%Q /\
  (-(1#2) <= vy q - inject_Z (ix1 i) /\ vy q - inject_Z (ix1 i) <= 1#2)%Q /\
  (-(1#2) <= vz q - inject_Z (ix2 i) /\ vz q - inject_Z (ix2 i) <= 1#2)%Q.

(** Voxel [j] is voxel [i] or its neighbour one step up on some axes. *)
Definition same_or_next (i j : Index) : Prop :=
  (ix0 i <= ix0 j <= ix0 i + 1) /\ (ix1 i <= ix1 j <= ix1 i + 1) /\
  (ix2 i <= ix2 j <= ix2 i + 1).

(** Every index of the grid, and the half-integers next to it, are held
    exactly by a [float]: no extent exceeds [2^23]. *)
Definition float_indexed {A} (m : Image A) : Prop :=
  size0 m <= 2 ^ 23 /\ size1 m <= 2 ^ 23 /\ size2 m <= 2 ^ 23.

(** ** Vocabulary for the construction of Rejection *)

Definition has_negative (vox : Image Q) : Prop :=
  exists i, in_grid vox i /\ (value vox i < 0)%Q.

Definition has_positive (vox : Image Q) : Prop :=
  exists i, in_grid vox i /\ (0 < value vox i)%Q.

Definition nonzero (vox : Image Q) (i : Index) : bool :=
  negb (Qeq_bool (value vox i) 0).

(** Sum of the positive values of the image. *)
Definition positive_mass (vox : Image Q) : Q :=
  fold_right (fun i acc => if Qlt_bool 0 (value vox i) then (value vox i + acc)%Q else acc)
    0%Q (Loop_0_3 vox).

(** The running sum of the positive values of the image, in the order
    of the scan, every addition rounded to single precision. *)
Definition rounded_mass (vox : Image Q) : Q :=
  fold_left (fun acc i => if Qlt_bool 0 (value vox i) then fadd acc (value vox i) else acc)
    (Loop_0_3 vox) 0%Q.

(** The exact sums of the positive values met so far, one for each
    positive value of the list, starting from [acc]. *)
Fixpoint exact_sums (f : Index -> Q) (l : list Index) (acc : Q) : list Q :=
  match l with
  | [] => []
  | i :: l' =>
      if Qlt_bool 0 (f i) then (acc + f i)%Q :: exact_sums f l' (acc + f i)%Q
      else exact_sums f l' acc
  end.

(** The exact partial sums of the positive values in the order of the
    scan. *)
Definition partial_sums (vox : Image Q) : list Q :=
  exact_sums (value vox) (Loop_0_3 vox) 0%Q.

(** [lo] and [hi] are the corners of the smallest box that holds every
    voxel with a non-zero value. *)
Definition bounding_box (vox : Image Q) (lo hi : Index) : Prop :=
  (forall i, in_grid vox i -> nonzero vox i = true ->
     ix0 lo <= ix0 i <= ix0 hi /\ ix1 lo <= ix1 i <= ix1 hi /\ ix2 lo <= ix2 i <= ix2 hi) /\
  (exists i, in_grid vox i /\ nonzero vox i = true /\ ix0 i = ix0 lo) /\
  (exists i, in_grid vox i /\ nonzero vox i = true /\ ix1 i = ix1 lo) /\
  (exists i, in_grid vox i /\ nonzero vox i = true /\ ix2 i = ix2 lo) /\
  (exists i, in_grid vox i /\ nonzero vox i = true /\ ix0 i = ix0 hi) /\
  (exists i, in_grid vox i /\ nonzero vox i = true /\ ix1 i = ix1 hi) /\
  (exists i, in_grid vox i /\ nonzero vox i = true /\ ix2 i = ix2 hi).

(** The lower corner moved down by one voxel on every axis where it is
    greater than zero. *)
Definition padded (lo : Index) : Index :=
  mkIndex (if 0 <? ix0 lo then ix0 lo - 1 else ix0 lo)
          (if 0 <? ix1 lo then ix1 lo - 1 else ix1 lo)
          (if 0 <? ix2 lo then ix2 lo - 1 else ix2 lo).

(** Every index of the image is representable below [SIZE_MAX]. *)
Definition addressable {A} (m : Image A) : Prop :=
  size0 m <= SIZE_MAX /\ size1 m <= SIZE_MAX /\ size2 m <= SIZE_MAX.

(** ** Traversal of the mask *)

(** The index of the mask accessor, together with the history of the
    positions it has been moved to (a ghost field: the code keeps only
    the current index). *)
Record Cursor := mkCursor { index : Index; trail : list Index }.

(** Body of the traversal loop:
    [if (++index(2) == size(2)) { index(2) = 0;
       if (++index(1) == size(1)) { index(1) = 0; ++index(0); } }] *)
Definition advance_index (mask : Image bool) (i : Index) : Index :=
  let i2 := ix2 i + 1 in
  if i2 =? size2 mask then
    let i1 := ix1 i + 1 in
    if i1 =? size1 mask then mkIndex (ix0 i + 1) 0 0
    else mkIndex (ix0 i) i1 0
  else mkIndex (ix0 i) (ix1 i) i2.

Definition advance (mask : Image bool) (c : Cursor) : Cursor :=
  let i := advance_index mask (index c) in
  mkCursor i (trail c ++ [i]).

(** [mask.index(0) != mask.size(0) && !mask.value()] *)
Definition advance_again (mask : Image bool) (c : Cursor) : bool :=
  negb (ix0 (index c) =? size0 mask) && negb (value mask (index c)).

(** The voxel at position [n] of the order in which axis 2 varies
    fastest, for extents [s1] and [s2] of axes 1 and 2. *)
Definition decode (s1 s2 n : Z) : Index :=
  mkIndex (n / (s1 * s2)) ((n / s2) mod s1) (n mod s2).

Definition voxel_at {A} (m : Image A) (n : nat) : Index :=
  decode (size1 m) (size2 m) (Z.of_nat n).

Definition voxel_count {A} (m : Image A) : nat :=
  Z.to_nat (size0 m * size1 m * size2 m).

(** The voxels with a non-zero mask value, axis 2 varying fastest. *)
Definition masked_voxels (mask : Image bool) : list Index :=
  filter (value mask) (raster mask).

(** Number of occurrences of a voxel in a list. *)
Definition occurrences (v : Index) (l : list Index) : nat :=
  List.length (filter (index_eqb v) l).

(** The position one step past the last voxel, where the traversal ends. *)
Definition past_the_end {A} (m : Image A) : Index := mkIndex (size0 m) 0 0.

(** ** Random_per_voxel *)

Record Random_per_voxel := mkRandom_per_voxel {
  rpv_mask : Image bool;
  rpv_cursor : Cursor;
  num : Z;
  inc : Z;
  rpv_expired : bool
}.

(** Modelled from the spec: the constructor (declared with the class) is
    not part of the sources. The traversal starts one step before the
    first voxel, which is what the test [mask.index(2) < 0] of [get_seed]
    recognises, with the counter at zero and the flag cleared. The
    counter is modelled without wrap-around. *)
Definition Random_per_voxel_ctor (mask : Image bool) (num_per_voxel : Z)
    : Random_per_voxel :=
  mkRandom_per_voxel mask (mkCursor (mkIndex 0 0 (-1)) []) num_per_voxel 0 false.

(** The last three statements of [get_seed]. *)
Definition Random_per_voxel_emit (self : Random_per_voxel) (g : Rng)
    : Result Random_per_voxel :=
  let '(q, g') := jitter (index (rpv_cursor self)) g in
  (true, transform_apply (voxel2scanner (rpv_mask self)) q, self, g').

Definition Random_per_voxel_get_seed (fuel : nat) (self : Random_per_voxel)
    (p : Vector3) (g : Rng) : option (Result Random_per_voxel) :=
  if rpv_expired self then Some (false, p, self, g)
  else
    (* mask.index(2) < 0 || ++inc == num *)
    let first := ix2 (index (rpv_cursor self)) <? 0 in
    let inc' := if first then inc self else inc self + 1 in
    if first || (inc' =? num self) then
      match do_while fuel (advance (rpv_mask self)) (advance_again (rpv_mask self))
              (rpv_cursor self) with
      | None => None
      | Some c =>
          if ix0 (index c) =? size0 (rpv_mask self) then
            Some (false, p, mkRandom_per_voxel (rpv_mask self) c (num self) 0 true, g)
          else
            Some (Random_per_voxel_emit
                    (mkRandom_per_voxel (rpv_mask self) c (num self) 0 false) g)
      end
    else
      Some (Random_per_voxel_emit
              (mkRandom_per_voxel (rpv_mask self) (rpv_cursor self) (num self) inc' false) g).

(** ** Grid_per_voxel *)

Record Grid_per_voxel := mkGrid_per_voxel {
  gpv_mask : Image bool;
  gpv_cursor : Cursor;
  os : Z;
  gpv_pos : Vector3i;
  offset : Q;
  step : Q;
  gpv_expired : bool
}.

(** Modelled from the spec: the constructor (declared with the class) is
    not part of the sources. [step] and [offset] are derived from [os] so
    that they subdivide each voxel into a regular [os] x [os] x [os]
    sub-grid: the step is [1/os] and the first point lies half a step
    inside the voxel, both stored in a [float]. The sub-voxel counter
    starts at its bound, so that the first call moves the cursor, which
    starts one step before the first voxel. *)
Definition Grid_per_voxel_ctor (mask : Image bool) (os_factor : Z) : Grid_per_voxel :=
  mkGrid_per_voxel mask (mkCursor (mkIndex 0 0 (-1)) []) os_factor
    (mkVeci os_factor os_factor os_factor)
    (round32 (-(1#2) + 1 / (2 * inject_Z os_factor)))
    (round32 (1 / inject_Z os_factor)) false.

(** [mask.index(d)+offset+(pos[d]*step)]: the two integers are converted
    to [float]; the sum of the index and the offset and the product of
    the position and the step are formed, and then added. *)
Definition lattice_axis (offset step : Q) (i p : Z) : Q :=
  fadd (fadd (float_of_int i) offset) (fmul (float_of_int p) step).

(** The coordinate [index + offset + pos * step] of a lattice point
    without any rounding, for the step [1/os] and the first point half a
    step inside the voxel. *)
Definition exact_axis (os i p : Z) : Q :=
  (inject_Z i + (-(1#2) + 1 / (2 * inject_Z os)) + inject_Z p * (1 / inject_Z os))%Q.

(** The point of the sub-grid of voxel [i] at sub-voxel position [pos],
    in voxel coordinates. *)
Definition lattice_point (offset step : Q) (i : Index) (pos : Vector3i) : Vector3 :=
  mkVec (lattice_axis offset step (ix0 i) (px pos))
        (lattice_axis offset step (ix1 i) (py pos))
        (lattice_axis offset step (ix2 i) (pz pos)).

(** The last three statements of [get_seed]. *)
Definition Grid_per_voxel_emit (self : Grid_per_voxel) (g : Rng)
    : Result Grid_per_voxel :=
  let q := lattice_point (offset self) (step self) (index (gpv_cursor self))
             (gpv_pos self) in
  (true, transform_apply (voxel2scanner (gpv_mask self)) q, self, g).

Definition Grid_set (self : Grid_per_voxel) (c : Cursor) (pos : Vector3i) (e : bool)
    : Grid_per_voxel :=
  mkGrid_per_voxel (gpv_mask self) c (os self) pos (offset self) (step self) e.

Definition Grid_per_voxel_get_seed (fuel : nat) (self : Grid_per_voxel)
    (p : Vector3) (g : Rng) : option (Result Grid_per_voxel) :=
  if gpv_expired self then Some (false, p, self, g)
  else
    let pos := gpv_pos self in
    let c := gpv_cursor self in
    if pz pos + 1 >=? os self then
      if py pos + 1 >=? os self then
        if px pos + 1 >=? os self then
          match do_while fuel (advance (gpv_mask self)) (advance_again (gpv_mask self)) c with
          | None => None
          | Some c' =>
              if ix0 (index c') =? size0 (gpv_mask self) then
                Some (false, p, Grid_set self c' (mkVeci 0 0 0) true, g)
              else
                Some (Grid_per_voxel_emit (Grid_set self c' (mkVeci 0 0 0) false) g)
          end
        else Some (Grid_per_voxel_emit (Grid_set self c (mkVeci (px pos + 1) 0 0) false) g)
      else Some (Grid_per_voxel_emit (Grid_set self c (mkVeci (px pos) (py pos + 1) 0) false) g)
    else Some (Grid_per_voxel_emit
                 (Grid_set self c (mkVeci (px pos) (py pos) (pz pos + 1)) false) g).

(** ** Running a strategy until it is exhausted *)

(** Call [get_seed] until it returns [false], at most [calls] times; the
    result lists, for each successful call, what [observe] reads from the
    object after the call and the point written by the call. *)
Fixpoint drain {Self Obs : Type}
    (get_seed : Self -> Vector3 -> Rng -> option (Result Self))
    (observe : Self -> Obs) (calls : nat) (self : Self) (p : Vector3) (g : Rng)
    : option (list (Obs * Vector3) * Self * Rng) :=
  match calls with
  | O => None
  | S calls' =>
      match get_seed self p g with
      | None => None
      | Some (false, _, self', g') => Some ([], self', g')
      | Some (true, p', self', g') =>
          match drain get_seed observe calls' self' p' g' with
          | None => None
          | Some (l, self'', g'') => Some ((observe self', p') :: l, self'', g'')
          end
      end
  end.

(** The voxel a seed of [Random_per_voxel] is drawn for. *)
Definition rpv_voxel (self : Random_per_voxel) : Index := index (rpv_cursor self).

(** The voxel and sub-voxel position a seed of [Grid_per_voxel] is
    computed from. *)
Definition gpv_slot (self : Grid_per_voxel) : Index * Vector3i :=
  (index (gpv_cursor self), gpv_pos self).

(** The sub-voxel positions of a voxel, the last axis varying fastest. *)
Definition sub_positions (os : Z) : list Vector3i :=
  flat_map (fun x =>
    flat_map (fun y =>
      map (fun z => mkVeci x y z) (range os))
      (range os))
    (range os).

(** ** Vocabulary for runs to exhaustion *)

(** A seed is the transform of the point that [jitter] computes for the
    voxel it is attributed to, from outcomes of the unit interval. *)
Definition seed_jittered (T : Transform) (s : Index * Vector3) : Prop :=
  exists g, unit_tape g /\ snd s = transform_apply T (fst (jitter (fst s) g)).

(** From object [self], calling [get_seed] until it returns [false]
    produces seeds for exactly the voxels [voxels], in this order, and
    leaves the object expired with the cursor history [final_trail]; any
    number of calls above the number of seeds suffices. *)
Definition rpv_drains (fuel : nat) (self : Random_per_voxel) (voxels : list Index)
    (final_trail : list Index) : Prop :=
  forall calls p g,
    (List.length voxels < calls)%nat -> unit_tape g ->
    exists seeds self' g',
      drain (Random_per_voxel_get_seed fuel) rpv_voxel calls self p g
        = Some (seeds, self', g') /\
      map fst seeds = voxels /\
      rpv_expired self' = true /\
      trail (rpv_cursor self') = final_trail /\
      Forall (seed_jittered (voxel2scanner (rpv_mask self))) seeds.

Definition to_veci (i : Index) : Vector3i := mkVeci (ix0 i) (ix1 i) (ix2 i).

(** The sub-voxel position number [q], the last axis varying fastest. *)
Definition sub_at (os : Z) (q : nat) : Vector3i := to_veci (decode os os (Z.of_nat q)).

Definition sub_count (os : Z) : nat := Z.to_nat (os * os * os).

(** The slots of a voxel: the voxel paired with each sub-voxel position. *)
Definition slots_of (os : Z) (v : Index) : list (Index * Vector3i) :=
  map (fun s => (v, s)) (sub_positions os).

(** From object [self], calling [get_seed] until it returns [false]
    produces one seed for each of [slots], in this order, each being the
    transform of the lattice point of its slot, and leaves the object
    expired with the cursor history [final_trail]. *)
Definition gpv_drains (fuel : nat) (self : Grid_per_voxel)
    (slots : list (Index * Vector3i)) (final_trail : list Index) : Prop :=
  forall calls p g,
    (List.length slots < calls)%nat ->
    exists seeds self',
      drain (Grid_per_voxel_get_seed fuel) gpv_slot calls self p g
        = Some (seeds, self', g) /\
      map fst seeds = slots /\
      gpv_expired self' = true /\
      trail (gpv_cursor self') = final_trail /\
      Forall (fun s => snd s =
                transform_apply (voxel2scanner (gpv_mask self))
                  (lattice_point (offset self) (step self) (fst (fst s)) (snd (fst s))))
        seeds.

(** The non-zero voxels of the mask from position [a] on. *)
Definition masked_from (mask : Image bool) (a : nat) : list Index :=
  filter (value mask) (map (voxel_at mask) (seq a (voxel_count mask - a))).

(** A [Grid_per_voxel] object that has not expired. *)
Definition Grid_at (mask : Image bool) (factor : Z) (off st : Q) (c : Cursor)
    (pos : Vector3i) : Grid_per_voxel :=
  mkGrid_per_voxel mask c factor pos off st false.

(** ** Concrete objects used in the examples *)

(** An engine whose every raw sample is [c]. *)
Definition constant_rng (c : Q) : Rng := mkRng (fun _ => c) 0.

Definition origin : Vector3 := mkVec 0 0 0.

Definition example_sphere : Sphere := mkSphere (mkVec 1 2 3) 2.

(** A 2x1x1 mask whose only non-zero voxel is (1,0,0). *)
Definition example_mask : Image bool :=
  mkImage 2 1 1 (fun i => index_eqb i (mkIndex 1 0 0)) identity_transform.

(** A 2x1x1 density image with values 0 and 1. *)
Definition example_density : Image Q :=
  mkImage 2 1 1 (fun i => if index_eqb i (mkIndex 1 0 0) then 1%Q else 0%Q)
    identity_transform.

(** The strategy built from [example_density]: both voxels are kept. *)
Definition example_rejection : Rejection :=
  mkRejection (Subset example_density (mkIndex 0 0 0) (mkIndex 1 0 0)) 1 2
    (voxel2scanner (Subset example_density (mkIndex 0 0 0) (mkIndex 1 0 0))).

(** The unit sphere at the origin. *)
Definition unit_sphere : Sphere := mkSphere (mkVec 0 0 0) 1.

(** An engine whose first three outcomes are [1 - 2^-24], [1/2 + 2^-12]
    and [1/2]: the first candidate of [Sphere] is
    [(1 - 2^-23, 2^-11, 0)]. *)
Definition edge_rng : Rng :=
  mkRng (fun n => if Nat.eqb n 0 then 16777215 # 16777216
                  else if Nat.eqb n 1 then 2049 # 4096 else 1 # 2) 0.

(** A 3x1x1 mask whose only non-zero voxel is (1,0,0). *)
Definition middle_mask : Image bool :=
  mkImage 3 1 1 (fun i => index_eqb i (mkIndex 1 0 0)) identity_transform.

(** An engine whose outcomes are [1/2], except the fourth, [1 - 2^-24],
    the largest [float] below 1: on a grid of three voxels along the
    first axis it draws index 1 and then this sample for the first
    axis. *)
Definition boundary_rng : Rng :=
  mkRng (fun n => if Nat.eqb n 3 then 16777215 # 16777216 else 1 # 2) 0.

(** A 2x1x1 density image with the values of [0.1f] and [0.2f]. *)
Definition tenths_density : Image Q :=
  mkImage 2 1 1
    (fun i => if index_eqb i (mkIndex 1 0 0) then 13421773 # 67108864
              else 13421773 # 134217728)
    identity_transform.

(** A 1x1x101 mask whose only non-zero voxel is (0,0,100). *)
Definition deep_mask : Image bool :=
  mkImage 1 1 101 (fun i => index_eqb i (mkIndex 0 0 100)) identity_transform.

(** A 3x1x1 density image with values 1, 0 and 1. *)
Definition gap_density : Image Q :=
  mkImage 3 1 1 (fun i => if index_eqb i (mkIndex 1 0 0) then 0%Q else 1%Q)
    identity_transform.

(** The strategy built from [tenths_density]: both voxels are kept. *)
Definition tenths_rejection : Rejection :=
  mkRejection (Subset tenths_density (mkIndex 0 0 0) (mkIndex 1 0 0))
    (13421773 # 67108864) (5033165 # 8388608)
    (voxel2scanner (Subset tenths_density (mkIndex 0 0 0) (mkIndex 1 0 0))).

(** The strategy built from [gap_density]: the three voxels are kept. *)
Definition gap_rejection : Rejection :=
  mkRejection (Subset gap_density (mkIndex 0 0 0) (mkIndex 2 0 0)) 1 6
    (voxel2scanner (Subset gap_density (mkIndex 0 0 0) (mkIndex 2 0 0))).

(** An engine whose outcomes are [1/2], except the fourth, which is 0:
    on a grid of three voxels along the first axis it draws index 1 and
    then the threshold 0. *)
Definition zero_threshold_rng : Rng :=
  mkRng (fun n => if Nat.eqb n 3 then 0%Q else 1 # 2) 0.

(** A 1x1x1 mask whose voxel is zero. *)
Definition empty_mask : Image bool :=
  mkImage 1 1 1 (fun _ => false) identity_transform.

(** A 2x1x2 mask whose four voxels are non-zero. *)
Definition full_mask : Image bool :=
  mkImage 2 1 2 (fun _ => true) identity_transform.

(** A 3x3x1 mask with only the centre voxel set. *)
Definition centre_mask : Image bool :=
  mkImage 3 3 1 (fun i => index_eqb i (mkIndex 1 1 0)) identity_transform.

(** The object left by the first call on [empty_mask] with quota 1. *)
Definition expired_example : Random_per_voxel :=
  mkRandom_per_voxel empty_mask
    (mkCursor (mkIndex 1 0 0) [mkIndex 0 0 0; mkIndex 1 0 0]) 1 0 true.

(** * Image input/output handlers

    The members of [ImageIO::Base] that are defined in
    [lib/image_io/base.h]. An [assert] is a precondition: a call that
    violates it yields [None]. The entry type of [files] and the type of
    the mapped addresses are left abstract. *)
Module ImageIO.

Record Base (Entry Ptr : Type) := mkBase {
  files : list Entry;
  segsize : Z;
  addresses : list Ptr;
  is_new : bool;
  writable : bool
}.
Arguments mkBase {Entry Ptr}.
Arguments files {Entry Ptr}.
Arguments segsize {Entry Ptr}.
Arguments addresses {Entry Ptr}.
Arguments is_new {Entry Ptr}.
Arguments writable {Entry Ptr}.

(** [void set_readwrite (bool readwrite) { writable = readwrite; }] *)
Definition set_readwrite {Entry Ptr} (readwrite : bool) (self : Base Entry Ptr)
    : Base Entry Ptr :=
  mkBase (files self) (segsize self) (addresses self) (is_new self) readwrite.

(** [void set_image_is_new (bool image_is_new) { is_new = image_is_new; }] *)
Definition set_image_is_new {Entry Ptr} (image_is_new : bool) (self : Base Entry Ptr)
    : Base Entry Ptr :=
  mkBase (files self) (segsize self) (addresses self) image_is_new (writable self).

(** [if (!is_new) writable = readwrite;] *)
Definition set_readwrite_if_existing {Entry Ptr} (readwrite : bool)
    (self : Base Entry Ptr) : Base Entry Ptr :=
  if negb (is_new self) then set_readwrite readwrite self else self.

(** [addresses.size()] *)
Definition nsegments {Entry Ptr} (self : Base Entry Ptr) : Z :=
  Z.of_nat (List.length (addresses self)).

(** [assert (n < addresses.size()); return addresses[n].get();] for an
    unsigned [n]. *)
Definition segment {Entry Ptr} (self : Base Entry Ptr) (n : Z) : option Ptr :=
  if (0 <=? n) && (n <? nsegments self)
  then nth_error (addresses self) (Z.to_nat n)
  else None.

(** [assert (addresses.size());] *)
Definition check {Entry Ptr} (self : Base Entry Ptr) : option unit :=
  if nsegments self =? 0 then None else Some tt.

(** [check(); return segsize;] *)
Definition segment_size {Entry Ptr} (self : Base Entry Ptr) : option Z :=
  match check self with
  | None => None
  | Some _ => Some (segsize self)
  end.

(** [for (size_t n = 0; n < B.files.size(); ++n) files.push_back (B.files[n]);]
    for the entries of [B] that are still to be copied. *)
Fixpoint push_back_all {Entry} (src dst : list Entry) : list Entry :=
  match src with
  | [] => dst
  | e :: src' => push_back_all src' (dst ++ [e])
  end.

(** [merge]: the assertion, the copy loop and [segsize += B.segsize] on
    [size_t]. [B] is an object other than [*this]. *)
Definition merge {Entry Ptr} (self B : Base Entry Ptr) : option (Base Entry Ptr) :=
  match addresses self with
  | [] =>
      Some (mkBase (push_back_all (files B) (files self))
              ((segsize self + segsize B) mod (SIZE_MAX + 1))
              (addresses self) (is_new self) (writable self))
  | _ :: _ => None
  end.

(** A handler whose [segsize] is a value of [size_t]. *)
Definition well_sized {Entry Ptr} (self : Base Entry Ptr) : Prop :=
  0 <= segsize self <= SIZE_MAX.

End ImageIO.

(** An empty handler ready to be merged into, and one holding a file. *)
Definition empty_handler : ImageIO.Base string Z :=
  ImageIO.mkBase [] 0 [] true false.

Definition one_file_handler : ImageIO.Base string Z :=
  ImageIO.mkBase ["a.mif"%string] 16 [] false true.

(** A handler with two mapped segments. *)
Definition loaded_handler : ImageIO.Base string Z :=
  ImageIO.mkBase ["a.mif"%string] 16 [4096; 8192] false true.

(** The index [i] of a cropped view, read in the image it was cropped
    from with lower corner [lo]. *)
Definition index_add (lo i : Index) : Index :=
  mkIndex (ix0 lo + ix0 i) (ix1 lo + ix1 i) (ix2 lo + ix2 i).

(** A 2x2x1 mask without any non-zero voxel. *)
Definition blank_mask : Image bool :=
  mkImage 2 2 1 (fun _ => false) identity_transform.

(** * Properties *)

(** ** Single-precision arithmetic *)

(** *** Powers of two *)

Lemma pow2_pos (e : Z) : (0 < pow2 e)%Q.
Proof. apply Qpower_0_lt. reflexivity. Qed.

Lemma pow2_add (a b : Z) : (pow2 (a + b) == pow2 a * pow2 b)%Q.
Proof. apply Qpower_plus. discriminate. Qed.

Lemma pow2_Z (e : Z) : 0 <= e -> (pow2 e == inject_Z (2 ^ e))%Q.
Proof. intro H. unfold pow2. rewrite (Zpower_Qpower 2 e H). reflexivity. Qed.

Lemma pow2_le (a b : Z) : a <= b -> (pow2 a <= pow2 b)%Q.
Proof. intro H. apply Qpower_le_compat_l; [exact H|discriminate]. Qed.

Lemma pow2_lt_inv (a b : Z) : (pow2 a < pow2 b)%Q -> a < b.
Proof. intro H. apply (Qpower_lt_compat_l_inv 2); [exact H|reflexivity]. Qed.

Lemma pow2_div (a b : Z) : (pow2 a / pow2 b == pow2 (a - b))%Q.
Proof.
  pose proof (pow2_pos b) as Hb.
  replace a with ((a - b) + b) at 1 by ring.
  rewrite pow2_add. field. lra.
Qed.

(** *** Binades *)

Lemma inject_Z_num_den (a : Q) : (inject_Z (Qnum a) == a * inject_Z (Zpos (Qden a)))%Q.
Proof.
  destruct a as [n d]. unfold Qeq, Qmult, inject_Z; simpl. lia.
Qed.

Lemma ilog2_spec (a : Q) :
  (0 < a)%Q -> (pow2 (ilog2 a) <= a)%Q /\ (a < pow2 (ilog2 a + 1))%Q.
Proof.
  intro Ha.
  assert (Hn : 0 < Qnum a).
  { destruct a as [n d]. unfold Qlt in Ha; simpl in Ha. simpl. lia. }
  pose proof (Z.log2_spec (Qnum a) Hn) as [Hn1 Hn2].
  pose proof (Z.log2_spec (Zpos (Qden a)) (Pos2Z.is_pos _)) as [Hd1 Hd2].
  pose proof (Z.log2_nonneg (Qnum a)) as Ln.
  pose proof (Z.log2_nonneg (Zpos (Qden a))) as Ld.
  set (ln := Z.log2 (Qnum a)) in *. set (ld := Z.log2 (Zpos (Qden a))) in *.
  assert (Qn1 : (pow2 ln <= inject_Z (Qnum a))%Q).
  { rewrite pow2_Z by lia. rewrite <- Zle_Qle. exact Hn1. }
  assert (Qn2 : (inject_Z (Qnum a) < pow2 (ln + 1))%Q).
  { rewrite pow2_Z by lia. rewrite <- Zlt_Qlt. exact Hn2. }
  assert (Qd1 : (pow2 ld <= inject_Z (Zpos (Qden a)))%Q).
  { rewrite pow2_Z by lia. rewrite <- Zle_Qle. exact Hd1. }
  assert (Qd2 : (inject_Z (Zpos (Qden a)) < pow2 (ld + 1))%Q).
  { rewrite pow2_Z by lia. rewrite <- Zlt_Qlt. exact Hd2. }
  rewrite (inject_Z_num_den a) in Qn1, Qn2.
  set (d := inject_Z (Zpos (Qden a))) in *.
  unfold ilog2. fold ln ld.
  destruct (Qle_bool (pow2 (ln - ld)) a) eqn:E.
  - apply Qle_bool_iff in E. split; [exact E|].
    apply Qnot_le_lt. intro C.
    assert (E1 : (pow2 (ln + 1) == pow2 (ln - ld + 1) * pow2 ld)%Q).
    { rewrite <- pow2_add. replace (ln - ld + 1 + ld) with (ln + 1) by ring. reflexivity. }
    pose proof (pow2_pos (ln - ld + 1)) as P1. pose proof (pow2_pos ld) as P2.
    set (x := pow2 (ln - ld + 1)) in *. set (y := pow2 ld) in *.
    set (z := pow2 (ln + 1)) in *. nra.
  - assert (E' : (a < pow2 (ln - ld))%Q).
    { apply Qnot_le_lt. intro C. apply Qle_bool_iff in C. congruence. }
    replace (ln - ld - 1 + 1) with (ln - ld) by ring. split; [|exact E'].
    apply Qnot_lt_le. intro C.
    assert (E1 : (pow2 ln == pow2 (ln - ld - 1) * pow2 (ld + 1))%Q).
    { rewrite <- pow2_add. replace (ln - ld - 1 + (ld + 1)) with ln by ring. reflexivity. }
    pose proof (pow2_pos (ln - ld - 1)) as P1. pose proof (pow2_pos (ld + 1)) as P2.
    set (x := pow2 (ln - ld - 1)) in *. set (y := pow2 (ld + 1)) in *.
    set (z := pow2 ln) in *. nra.
Qed.

Lemma ilog2_unique (a : Q) (k : Z) :
  (pow2 k <= a)%Q -> (a < pow2 (k + 1))%Q -> ilog2 a = k.
Proof.
  intros H1 H2.
  assert (Ha : (0 < a)%Q) by (pose proof (pow2_pos k); lra).
  destruct (ilog2_spec a Ha) as [S1 S2].
  assert (A : ilog2 a < k + 1).
  { apply pow2_lt_inv. lra. }
  assert (B : k < ilog2 a + 1).
  { apply pow2_lt_inv. lra. }
  lia.
Qed.

Lemma ilog2_comp (a b : Q) : (0 < a)%Q -> (a == b)%Q -> ilog2 a = ilog2 b.
Proof.
  intros Ha E. symmetry. destruct (ilog2_spec a Ha) as [S1 S2].
  apply ilog2_unique; rewrite <- E; assumption.
Qed.

Lemma ilog2_monotone (a b : Q) : (0 < a)%Q -> (a <= b)%Q -> ilog2 a <= ilog2 b.
Proof.
  intros Ha Hab.
  destruct (ilog2_spec a Ha) as [A1 A2].
  destruct (ilog2_spec b ltac:(lra)) as [B1 B2].
  assert (ilog2 a < ilog2 b + 1) by (apply pow2_lt_inv; lra).
  lia.
Qed.

(** *** Rounding to an integer *)

Lemma rne_comp (m m' : Q) : (m == m')%Q -> rne m = rne m'.
Proof.
  intro E. unfold rne. rewrite (Qfloor_comp _ _ E).
  assert (C : ((m - inject_Z (Qfloor m') ?= 1#2) = (m' - inject_Z (Qfloor m') ?= 1#2))%Q).
  { apply Qcompare_comp; [rewrite E|]; reflexivity. }
  rewrite C. reflexivity.
Qed.

Lemma rne_cases (m : Q) :
  (rne m = Qfloor m /\ (m - inject_Z (Qfloor m) <= 1#2)%Q) \/
  (rne m = Qfloor m + 1 /\ (1#2 <= m - inject_Z (Qfloor m))%Q).
Proof.
  unfold rne.
  destruct (Qcompare_spec (m - inject_Z (Qfloor m)) (1#2)) as [C|C|C].
  - destruct (Z.even (Qfloor m)); [left|right]; split; auto; lra.
  - left. split; auto; lra.
  - right. split; auto; lra.
Qed.

Lemma Qfloor_bounds (m : Q) :
  (inject_Z (Qfloor m) <= m)%Q /\ (m < inject_Z (Qfloor m) + 1)%Q.
Proof.
  split; [apply Qfloor_le|].
  pose proof (Qlt_floor m) as H. rewrite inject_Z_plus in H. exact H.
Qed.

Lemma rne_error (m : Q) :
  (m - (1#2) <= inject_Z (rne m))%Q /\ (inject_Z (rne m) <= m + (1#2))%Q.
Proof.
  destruct (Qfloor_bounds m) as [F1 F2].
  destruct (rne_cases m) as [[E H]|[E H]]; rewrite E.
  - lra.
  - rewrite inject_Z_plus. change (inject_Z 1) with 1%Q. lra.
Qed.

Lemma rne_Z (z : Z) : rne (inject_Z z) = z.
Proof.
  unfold rne. rewrite Qfloor_Z.
  assert (C : ((inject_Z z - inject_Z z ?= 1#2) = Lt)%Q).
  { apply (proj1 (Qlt_alt _ _)). set (q := inject_Z z). lra. }
  rewrite C. reflexivity.
Qed.

Lemma rne_monotone (m m' : Q) : (m <= m')%Q -> rne m <= rne m'.
Proof.
  intro H.
  pose proof (Qfloor_resp_le _ _ H) as F.
  destruct (Qfloor_bounds m) as [A1 A2]. destruct (Qfloor_bounds m') as [B1 B2].
  destruct (Z.eq_dec (Qfloor m) (Qfloor m')) as [E|N].
  - unfold rne. rewrite <- E.
    destruct (Qcompare_spec (m - inject_Z (Qfloor m)) (1#2)) as [C|C|C];
      destruct (Qcompare_spec (m' - inject_Z (Qfloor m)) (1#2)) as [C'|C'|C'];
      try (destruct (Z.even (Qfloor m))); try lia; lra.
  - destruct (rne_cases m) as [[E1 _]|[E1 _]]; destruct (rne_cases m') as [[E2 _]|[E2 _]];
      lia.
Qed.

(** *** Rounding to a multiple of a power of two *)

Lemma round_at_monotone (e : Z) (x y : Q) :
  (x <= y)%Q -> (round_at e x <= round_at e y)%Q.
Proof.
  intro H. unfold round_at.
  pose proof (pow2_pos e) as P.
  assert (D : (x / pow2 e <= y / pow2 e)%Q).
  { unfold Qdiv. apply Qmult_le_compat_r; [exact H|].
    apply Qlt_le_weak. apply Qinv_lt_0_compat. exact P. }
  apply rne_monotone in D. rewrite Zle_Qle in D.
  apply Qmult_le_compat_r; [exact D|lra].
Qed.

Lemma round_at_multiple (e k m : Z) :
  e <= k -> (round_at e (inject_Z m * pow2 k) == inject_Z m * pow2 k)%Q.
Proof.
  intro H. unfold round_at.
  pose proof (pow2_pos e) as P.
  assert (E : (inject_Z m * pow2 k / pow2 e == inject_Z (m * 2 ^ (k - e)))%Q).
  { rewrite inject_Z_mult. rewrite <- pow2_Z by lia. rewrite <- pow2_div.
    field. lra. }
  rewrite (rne_comp _ _ E). rewrite rne_Z.
  rewrite inject_Z_mult. rewrite <- pow2_Z by lia. rewrite <- pow2_div.
  field. lra.
Qed.

Lemma round_at_pow2 (e k : Z) : e <= k -> (round_at e (pow2 k) == pow2 k)%Q.
Proof.
  intro H. pose proof (round_at_multiple e k 1 H) as R.
  assert (E : (inject_Z 1 * pow2 k == pow2 k)%Q) by (change (inject_Z 1) with 1%Q; ring).
  unfold round_at in *. rewrite (rne_comp _ (inject_Z 1 * pow2 k / pow2 e)).
  - rewrite R. exact E.
  - rewrite E. reflexivity.
Qed.

Lemma round_at_error (e : Z) (x : Q) :
  (x - pow2 e * (1#2) <= round_at e x)%Q /\ (round_at e x <= x + pow2 e * (1#2))%Q.
Proof.
  unfold round_at. pose proof (pow2_pos e) as P.
  destruct (rne_error (x / pow2 e)) as [A B].
  set (r := inject_Z (rne (x / pow2 e))) in *.
  assert (X : (x == x / pow2 e * pow2 e)%Q) by (field; lra).
  set (q := (x / pow2 e)%Q) in *.
  split; rewrite X at 1; nra.
Qed.

(** *** Rounding of positive numbers *)

Lemma round_pos_lower (a : Q) : (0 < a)%Q -> (pow2 (ilog2 a) <= round_pos a)%Q.
Proof.
  intro Ha. destruct (ilog2_spec a Ha) as [S1 S2].
  unfold round_pos.
  rewrite <- (round_at_pow2 (ilog2 a - 23) (ilog2 a)) by lia.
  apply round_at_monotone. exact S1.
Qed.

Lemma round_pos_upper (a : Q) : (0 < a)%Q -> (round_pos a <= pow2 (ilog2 a + 1))%Q.
Proof.
  intro Ha. destruct (ilog2_spec a Ha) as [S1 S2].
  unfold round_pos.
  rewrite <- (round_at_pow2 (ilog2 a - 23) (ilog2 a + 1)) by lia.
  apply round_at_monotone. lra.
Qed.

Lemma round_pos_positive (a : Q) : (0 < a)%Q -> (0 < round_pos a)%Q.
Proof.
  intro Ha. pose proof (round_pos_lower a Ha). pose proof (pow2_pos (ilog2 a)). lra.
Qed.

Lemma round_pos_monotone (a b : Q) :
  (0 < a)%Q -> (a <= b)%Q -> (round_pos a <= round_pos b)%Q.
Proof.
  intros Ha Hab.
  assert (Hb : (0 < b)%Q) by lra.
  pose proof (ilog2_monotone a b Ha Hab) as M.
  destruct (Z.eq_dec (ilog2 a) (ilog2 b)) as [E|N].
  - unfold round_pos. rewrite E. apply round_at_monotone. exact Hab.
  - apply Qle_trans with (pow2 (ilog2 a + 1)); [apply round_pos_upper; exact Ha|].
    apply Qle_trans with (pow2 (ilog2 b)); [apply pow2_le; lia|].
    apply round_pos_lower. exact Hb.
Qed.

Lemma round_pos_comp (a b : Q) : (0 < a)%Q -> (a == b)%Q -> (round_pos a == round_pos b)%Q.
Proof.
  intros Ha E. unfold round_pos, round_at.
  rewrite (ilog2_comp a b Ha E).
  rewrite (rne_comp (a / pow2 (ilog2 b - 23)) (b / pow2 (ilog2 b - 23))).
  - reflexivity.
  - rewrite E. reflexivity.
Qed.

Lemma round_pos_representable (m k : Z) :
  0 < m < 2 ^ 24 ->
  (round_pos (inject_Z m * pow2 k) == inject_Z m * pow2 k)%Q.
Proof.
  intros [M1 M2]. unfold round_pos. apply round_at_multiple.
  pose proof (pow2_pos k) as P.
  assert (Q1 : (0 < inject_Z m)%Q) by (change 0%Q with (inject_Z 0); rewrite <- Zlt_Qlt; lia).
  assert (Q2 : (inject_Z m < pow2 24)%Q).
  { rewrite pow2_Z by lia. rewrite <- Zlt_Qlt. exact M2. }
  assert (Ha : (0 < inject_Z m * pow2 k)%Q) by nra.
  destruct (ilog2_spec _ Ha) as [S1 S2].
  assert (L : ilog2 (inject_Z m * pow2 k) < 24 + k).
  { apply pow2_lt_inv. rewrite (pow2_add 24 k).
    set (x := inject_Z m) in *. set (y := pow2 k) in *. set (z := pow2 24) in *.
    set (w := pow2 (ilog2 (x * y))) in *. nra. }
  lia.
Qed.

Lemma round_pos_error (a : Q) :
  (0 < a)%Q ->
  (a - a * (1 # 16777216) <= round_pos a)%Q /\ (round_pos a <= a + a * (1 # 16777216))%Q.
Proof.
  intro Ha. destruct (ilog2_spec a Ha) as [S1 S2].
  unfold round_pos.
  destruct (round_at_error (ilog2 a - 23) a) as [A B].
  assert (E : (pow2 (ilog2 a - 23) * (1#2) == pow2 (ilog2 a) * (1 # 16777216))%Q).
  { replace (ilog2 a - 23) with (ilog2 a + (-23)) by ring. rewrite pow2_add.
    change (pow2 (-23)) with (1 # 8388608)%Q. field. }
  rewrite E in A, B.
  set (w := pow2 (ilog2 a)) in *. set (r := round_at (ilog2 a - 23) a) in *.
  split; lra.
Qed.

(** *** Rounding to single precision *)

Lemma round32_of_pos (x : Q) : (0 < x)%Q -> (round32 x == round_pos x)%Q.
Proof.
  intro H. unfold round32. rewrite Qred_correct.
  destruct (Qcompare_spec x 0) as [C|C|C]; lra || reflexivity.
Qed.

Lemma round32_of_neg (x : Q) : (x < 0)%Q -> (round32 x == - round_pos (- x))%Q.
Proof.
  intro H. unfold round32. rewrite Qred_correct.
  destruct (Qcompare_spec x 0) as [C|C|C]; lra || reflexivity.
Qed.

Lemma round32_of_zero (x : Q) : (x == 0)%Q -> (round32 x == 0)%Q.
Proof.
  intro H. unfold round32. rewrite Qred_correct.
  destruct (Qcompare_spec x 0) as [C|C|C]; lra || reflexivity.
Qed.

Lemma Q_trichotomy (x : Q) : (x < 0)%Q \/ (x == 0)%Q \/ (0 < x)%Q.
Proof.
  destruct (Q_dec x 0) as [[H|H]|H]; auto.
Qed.

(** Equal numbers are rounded to the same fraction in lowest terms. *)
Lemma round32_comp (x y : Q) : (x == y)%Q -> round32 x = round32 y.
Proof.
  intro E. unfold round32. apply Qred_complete.
  destruct (Qcompare_spec x 0) as [C|C|C]; destruct (Qcompare_spec y 0) as [D|D|D];
    try lra.
  - apply Qopp_comp. apply round_pos_comp; [lra|]. rewrite E. reflexivity.
  - apply round_pos_comp; [lra|exact E].
Qed.

#[global] Instance round32_morphism : Proper (Qeq ==> Qeq) round32.
Proof. intros x y E. rewrite (round32_comp x y E). reflexivity. Qed.

Lemma round32_opp (x : Q) : (round32 (- x) == - round32 x)%Q.
Proof.
  destruct (Q_trichotomy x) as [H|[H|H]].
  - rewrite (round32_of_neg x H). rewrite round32_of_pos by lra. ring.
  - rewrite (round32_of_zero x H). rewrite round32_of_zero by lra. ring.
  - rewrite (round32_of_pos x H). rewrite round32_of_neg by lra.
    rewrite (round_pos_comp (- - x) x); [reflexivity|lra|ring].
Qed.

Lemma round32_positive (x : Q) : (0 < x)%Q -> (0 < round32 x)%Q.
Proof.
  intro H. rewrite (round32_of_pos x H). apply round_pos_positive. exact H.
Qed.

Lemma round32_monotone (x y : Q) : (x <= y)%Q -> (round32 x <= round32 y)%Q.
Proof.
  intro H.
  destruct (Q_trichotomy x) as [X|[X|X]]; destruct (Q_trichotomy y) as [Y|[Y|Y]];
    try lra.
  - rewrite (round32_of_neg x X), (round32_of_neg y Y).
    pose proof (round_pos_monotone (- y) (- x) ltac:(lra) ltac:(lra)). lra.
  - rewrite (round32_of_neg x X), (round32_of_zero y Y).
    pose proof (round_pos_positive (- x) ltac:(lra)). lra.
  - rewrite (round32_of_neg x X), (round32_of_pos y Y).
    pose proof (round_pos_positive (- x) ltac:(lra)).
    pose proof (round_pos_positive y Y). lra.
  - rewrite (round32_of_zero x X), (round32_of_zero y Y). lra.
  - rewrite (round32_of_zero x X), (round32_of_pos y Y).
    pose proof (round_pos_positive y Y). lra.
  - rewrite (round32_of_pos x X), (round32_of_pos y Y).
    apply round_pos_monotone; assumption.
Qed.

Lemma round32_nonneg (x : Q) : (0 <= x)%Q -> (0 <= round32 x)%Q.
Proof.
  intro H. change 0%Q with (round32 0) at 1. apply round32_monotone. exact H.
Qed.

(** A number with a significand below [2^24] is stored as it is. *)
Lemma round32_representable (m k : Z) :
  Z.abs m < 2 ^ 24 ->
  (round32 (inject_Z m * pow2 k) == inject_Z m * pow2 k)%Q.
Proof.
  intro M. pose proof (pow2_pos k) as P.
  destruct (Z.lt_trichotomy m 0) as [N|[N|N]].
  - assert (E : (inject_Z m * pow2 k == - (inject_Z (- m) * pow2 k))%Q).
    { rewrite inject_Z_opp. ring. }
    rewrite (round32_comp _ _ E). rewrite round32_opp.
    assert (Q1 : (0 < inject_Z (- m))%Q)
      by (change 0%Q with (inject_Z 0); rewrite <- Zlt_Qlt; lia).
    rewrite round32_of_pos by nra.
    rewrite round_pos_representable by lia. rewrite E. reflexivity.
  - subst m. rewrite round32_of_zero; [|change (inject_Z 0) with 0%Q; ring].
    change (inject_Z 0) with 0%Q. ring.
  - assert (Q1 : (0 < inject_Z m)%Q)
      by (change 0%Q with (inject_Z 0); rewrite <- Zlt_Qlt; lia).
    rewrite round32_of_pos by nra.
    apply round_pos_representable. lia.
Qed.

Lemma round32_Z (z : Z) : Z.abs z < 2 ^ 24 -> (round32 (inject_Z z) == inject_Z z)%Q.
Proof.
  intro H. pose proof (round32_representable z 0 H) as R.
  assert (E : (inject_Z z * pow2 0 == inject_Z z)%Q) by (change (pow2 0) with 1%Q; ring).
  rewrite (round32_comp _ _ E) in R. rewrite R. exact E.
Qed.

(** Halves of integers of moderate size are stored as they are. *)
Lemma round32_half (z : Z) :
  Z.abs z < 2 ^ 24 -> (round32 (inject_Z z * (1#2)) == inject_Z z * (1#2))%Q.
Proof.
  intro H. apply (round32_representable z (-1)). exact H.
Qed.

(** The relative error of a rounding is at most [2^-24]. *)
Lemma round32_error (x : Q) :
  (Qabs (round32 x - x) <= Qabs x * (1 # 16777216))%Q.
Proof.
  destruct (Q_trichotomy x) as [H|[H|H]].
  - rewrite (round32_of_neg x H).
    destruct (round_pos_error (- x) ltac:(lra)) as [A B].
    rewrite (Qabs_neg x) by lra.
    apply Qabs_Qle_condition. split; lra.
  - rewrite (round32_of_zero x H). rewrite H. apply Qabs_Qle_condition.
    simpl. split; lra.
  - rewrite (round32_of_pos x H).
    destruct (round_pos_error x H) as [A B].
    rewrite (Qabs_pos x) by lra.
    apply Qabs_Qle_condition. split; lra.
Qed.

(** A rounding moves a number by at most the fraction [2^-24] of any
    bound on its magnitude. *)
Lemma round32_within (x b : Q) :
  (- b <= x)%Q -> (x <= b)%Q ->
  (x - b * (1 # 16777216) <= round32 x)%Q /\ (round32 x <= x + b * (1 # 16777216))%Q.
Proof.
  intros L U. pose proof (round32_error x) as E.
  assert (A : (Qabs x <= b)%Q) by (apply Qabs_Qle_condition; split; assumption).
  apply Qabs_Qle_condition in E.
  destruct E as [E1 E2]. split; nra.
Qed.

(** *** Agreement with the standard specification of IEEE 754 *)

(** On the sample numbers the operations of the embedding and the
    conversion of integers give the results of binary32 in the standard
    specification of floating-point arithmetic. *)
Example round32_agrees_with_binary32 :
  forallb (valid_binary 24 128) binary32_samples = true /\
  forallb (fun a => forallb (agrees a) binary32_samples) binary32_samples = true /\
  forallb (fun z => denotes (binary_normalize 24 128 z 0 false) (float_of_int z))
    [0; 1; 2; 100; 16777216; 16777217; 16777219; 123456789; -1; -16777217] = true.
Proof. vm_compute. repeat split. Qed.

(** ** Bounded loops *)

Section DoWhile.
Context {S : Type}.
Variable body : S -> S.
Variable again : S -> bool.

Lemma iterate_succ (n : nat) (s : S) :
  iterate (Datatypes.S n) body s = body (iterate n body s).
Proof.
  revert s. induction n as [|n IH]; intro s; [reflexivity|].
  change (iterate (Datatypes.S (Datatypes.S n)) body s)
    with (iterate (Datatypes.S n) body (body s)).
  rewrite IH. reflexivity.
Qed.

Lemma iterate_add (a b : nat) (s : S) :
  iterate (a + b) body s = iterate b body (iterate a body s).
Proof.
  revert s. induction a as [|a IH]; intro s; simpl; [reflexivity|apply IH].
Qed.

(** A loop that ends did so at the first state the test rejects. *)
Lemma do_while_Some (fuel : nat) (s r : S) :
  do_while fuel body again s = Some r ->
  exists n, (n < fuel)%nat /\ r = iterate (Datatypes.S n) body s /\
            again r = false /\
            forall j, (j < n)%nat -> again (iterate (Datatypes.S j) body s) = true.
Proof.
  revert s. induction fuel as [|fuel IH]; intros s H; [discriminate|].
  simpl in H. destruct (again (body s)) eqn:E.
  - destruct (IH _ H) as (n & Hn & Hr & Ha & Hj).
    exists (Datatypes.S n). split; [lia|]. split; [exact Hr|]. split; [exact Ha|].
    intros [|j] Hlt; [exact E|]. apply (Hj j). lia.
  - inversion H; subst r. exists O. split; [lia|]. split; [reflexivity|].
    split; [exact E|]. intros j Hj. lia.
Qed.

(** Conversely, the first rejected state is returned as soon as the
    bound exceeds its position. *)
Lemma do_while_first (n : nat) : forall (fuel : nat) (s : S),
  again (iterate (Datatypes.S n) body s) = false ->
  (forall j, (j < n)%nat -> again (iterate (Datatypes.S j) body s) = true) ->
  (n < fuel)%nat ->
  do_while fuel body again s = Some (iterate (Datatypes.S n) body s).
Proof.
  induction n as [|n IH]; intros fuel s Hn Hj Hf.
  - destruct fuel as [|fuel]; [lia|]. simpl in *. rewrite Hn. reflexivity.
  - destruct fuel as [|fuel]; [lia|].
    assert (H0 : again (body s) = true) by (apply (Hj O); lia).
    cbn [do_while]. rewrite H0.
    change (iterate (Datatypes.S (Datatypes.S n)) body s)
      with (iterate (Datatypes.S n) body (body s)).
    apply IH; [exact Hn| |lia].
    intros j Hlt. apply (Hj (Datatypes.S j)). lia.
Qed.

(** Some rejected state suffices for the loop to end. *)
Lemma do_while_eventually (n : nat) : forall (s : S),
  again (iterate (Datatypes.S n) body s) = false ->
  exists fuel r, do_while fuel body again s = Some r.
Proof.
  induction n as [|n IH]; intros s Hn.
  - exists 1%nat, (body s). simpl in *. rewrite Hn. reflexivity.
  - destruct (again (body s)) eqn:E.
    + destruct (IH (body s) Hn) as (fuel & r & H).
      exists (Datatypes.S fuel), r. simpl. rewrite E. exact H.
    + exists 1%nat, (body s). simpl. rewrite E. reflexivity.
Qed.

(** A test that holds after every execution of the body keeps the loop
    running for ever. *)
Lemma do_while_never (fuel : nat) : forall (s : S),
  (forall n, again (iterate (Datatypes.S n) body s) = true) ->
  do_while fuel body again s = None.
Proof.
  induction fuel as [|fuel IH]; intros s H; [reflexivity|].
  pose proof (H O) as H0. cbn [iterate] in H0.
  cbn [do_while]. rewrite H0. apply IH. intro n. apply (H (Datatypes.S n)).
Qed.

Lemma do_while_ends_iff (s : S) :
  (exists fuel r, do_while fuel body again s = Some r) <->
  (exists n, again (iterate (Datatypes.S n) body s) = false).
Proof.
  split.
  - intros (fuel & r & H). destruct (do_while_Some _ _ _ H) as (n & _ & Hr & Ha & _).
    exists n. rewrite <- Hr. exact Ha.
  - intros (n & H). exact (do_while_eventually n s H).
Qed.

Lemma do_while_more_fuel (fuel fuel' : nat) (s r : S) :
  do_while fuel body again s = Some r -> (fuel <= fuel')%nat ->
  do_while fuel' body again s = Some r.
Proof.
  intros H Hle. destruct (do_while_Some _ _ _ H) as (n & Hn & Hr & Ha & Hj).
  subst r. apply do_while_first; auto. lia.
Qed.
End DoWhile.

(** ** Rational comparisons *)

Lemma Qlt_bool_true (x y : Q) : Qlt_bool x y = true <-> (x < y)%Q.
Proof.
  unfold Qlt_bool. rewrite negb_true_iff. split.
  - intro H. apply Qnot_le_lt. intro Hle. apply Qle_bool_iff in Hle. congruence.
  - intro H. destruct (Qle_bool y x) eqn:E; [|reflexivity].
    apply Qle_bool_iff in E. exfalso. apply (Qlt_not_le _ _ H E).
Qed.

Lemma Qlt_bool_false (x y : Q) : Qlt_bool x y = false <-> (y <= x)%Q.
Proof.
  unfold Qlt_bool. rewrite negb_false_iff. apply Qle_bool_iff.
Qed.

(** ** Sphere *)

Lemma Sphere_again_false (s : Vector3 * Rng) :
  Sphere_again s = false <-> (squaredNorm (fst s) <= 1)%Q.
Proof. apply Qlt_bool_false. Qed.

(** Rounding a number that is not negative loses at most the fraction
    [2^-24] of it. *)
Lemma round32_lower (x : Q) :
  (0 <= x)%Q -> (x * (16777215 # 16777216) <= round32 x)%Q.
Proof.
  intro H. pose proof (round32_error x) as E.
  rewrite (Qabs_pos x H) in E.
  apply Qabs_Qle_condition in E. lra.
Qed.

(** A vector whose squared norm, evaluated in single precision, is at
    most 1 has an exact squared length of at most [1 + 2^-21]. *)
Lemma squaredNorm_tolerance (c : Vector3) :
  (squaredNorm c <= 1)%Q -> (squared_length c <= 1 + (1 # 2097152))%Q.
Proof.
  unfold squaredNorm, squared_length, fadd, fmul. intro H.
  assert (X : (0 <= vx c * vx c)%Q) by nra.
  assert (Y : (0 <= vy c * vy c)%Q) by nra.
  assert (Z : (0 <= vz c * vz c)%Q) by nra.
  pose proof (round32_lower _ X) as A. pose proof (round32_nonneg _ X) as A0.
  pose proof (round32_lower _ Y) as B. pose proof (round32_nonneg _ Y) as B0.
  pose proof (round32_lower _ Z) as C. pose proof (round32_nonneg _ Z) as C0.
  set (sx := (vx c * vx c)%Q) in *. set (sy := (vy c * vy c)%Q) in *.
  set (sz := (vz c * vz c)%Q) in *.
  set (a := round32 sx) in *. set (b := round32 sy) in *. set (d := round32 sz) in *.
  assert (AB : (0 <= a + b)%Q) by lra.
  pose proof (round32_lower _ AB) as S1. pose proof (round32_nonneg _ AB) as S0.
  set (ab := round32 (a + b)) in *.
  assert (ABD : (0 <= ab + d)%Q) by lra.
  pose proof (round32_lower _ ABD) as S2.
  set (s := round32 (ab + d)) in *.
  lra.
Qed.

(** C8, as amended. Whenever [Sphere::get_seed] returns, it returns
    [true]; the loop keeps a candidate exactly when its squared norm,
    evaluated in single precision, is at most 1; the returned point is
    the first such candidate, scaled by the radius and translated by the
    centre in single precision; the exact squared length of that
    candidate is at most [1 + 2^-21]; and the call does return as soon
    as some candidate of the stream is accepted. *)
Theorem Sphere_get_seed_rounded_ball :
  (forall s, Sphere_again s = false <-> (squaredNorm (fst s) <= 1)%Q) /\
  (forall fuel self p g r,
      Sphere_get_seed fuel self p g = Some r ->
      exists n c g',
        c = fst (iterate (S n) Sphere_draw (p, g)) /\
        (squaredNorm c <= 1)%Q /\
        (forall j, (j < n)%nat ->
           ~ (squaredNorm (fst (iterate (S j) Sphere_draw (p, g))) <= 1)%Q) /\
        r = (true, Sphere_place self c, self, g') /\
        (squared_length c <= 1 + (1 # 2097152))%Q) /\
  (forall self p g n,
      (squaredNorm (fst (iterate (S n) Sphere_draw (p, g))) <= 1)%Q ->
      exists fuel p' g', Sphere_get_seed fuel self p g = Some (true, p', self, g')).
Proof.
  split; [exact Sphere_again_false|]. split.
  - intros fuel self p g r H. unfold Sphere_get_seed in H.
    destruct (do_while fuel Sphere_draw Sphere_again (p, g)) as [[c g']|] eqn:E;
      [|discriminate].
    destruct (do_while_Some _ _ _ _ _ E) as (n & _ & Hr & Ha & Hj).
    exists n, c, g'.
    assert (Hc : c = fst (iterate (S n) Sphere_draw (p, g))) by (rewrite <- Hr; reflexivity).
    assert (Hin : (squaredNorm c <= 1)%Q) by (apply (Sphere_again_false (c, g')); exact Ha).
    repeat split.
    + exact Hc.
    + exact Hin.
    + intros j Hlt Hle. specialize (Hj j Hlt).
      apply Sphere_again_false in Hle. congruence.
    + inversion H. reflexivity.
    + apply squaredNorm_tolerance. exact Hin.
  - intros self p g n Hn.
    destruct (do_while_eventually Sphere_draw Sphere_again n (p, g)) as (fuel & [c g'] & E).
    { apply Sphere_again_false. exact Hn. }
    exists fuel, (Sphere_place self c), g'.
    unfold Sphere_get_seed. rewrite E. reflexivity.
Qed.

Lemma Sphere_get_seed_rounded_ball_witness :
  Sphere_get_seed 1 example_sphere origin (constant_rng (1#2))
    = Some (true, mkVec 1 2 3, example_sphere, mkRng (fun _ => 1#2) 3) /\
  exists n c g',
    c = fst (iterate (S n) Sphere_draw (origin, constant_rng (1#2))) /\
    (squaredNorm c <= 1)%Q /\
    (forall j, (j < n)%nat ->
       ~ (squaredNorm (fst (iterate (S j) Sphere_draw (origin, constant_rng (1#2)))) <= 1)%Q) /\
    (true, mkVec 1 2 3, example_sphere, mkRng (fun _ => 1#2) 3)
      = (true, Sphere_place example_sphere c, example_sphere, g') /\
    (squared_length c <= 1 + (1 # 2097152))%Q.
Proof.
  split; [vm_compute; reflexivity|].
  apply (proj1 (proj2 Sphere_get_seed_rounded_ball) 1%nat example_sphere origin
           (constant_rng (1#2))).
  vm_compute. reflexivity.
Defined.

Lemma edge_rng_unit : unit_tape edge_rng.
Proof.
  intro n. unfold edge_rng; cbn [tape].
  destruct (Nat.eqb n 0); [split; [discriminate|reflexivity]|].
  destruct (Nat.eqb n 1); split; try discriminate; reflexivity.
Qed.

(** The statement of C8 fails in single precision: the candidate
    [(1 - 2^-23, 2^-11, 0)] has the exact squared length [1 + 2^-46],
    but its squared norm rounds to 1; the unit sphere at the origin
    accepts it and returns it, a point farther from the centre than the
    radius. *)
Lemma Sphere_seed_beyond_radius :
  unit_tape edge_rng /\
  exists c g',
    c = mkVec (8388607 # 8388608) (1 # 2048) 0 /\
    fst (Sphere_draw (origin, edge_rng)) = c /\
    Sphere_again (c, g') = false /\
    ~ (squared_length c <= 1)%Q /\
    Sphere_get_seed 1 unit_sphere origin edge_rng = Some (true, c, unit_sphere, g') /\
    ~ (squared_length (vsub c (pos unit_sphere))
         <= rad unit_sphere * rad unit_sphere)%Q.
Proof.
  split; [exact edge_rng_unit|].
  exists (mkVec (8388607 # 8388608) (1 # 2048) 0), (mkRng (tape edge_rng) 3).
  split; [reflexivity|].
  split; [vm_compute; reflexivity|].
  split; [vm_compute; reflexivity|].
  split; [vm_compute; intro H; apply H; reflexivity|].
  split; [vm_compute; reflexivity|].
  vm_compute. intro H. apply H. reflexivity.
Qed.

(** ** Voxels and points *)

(** In single precision [index + u - 0.5] stays within half a voxel of
    the index, both ends included. *)
Lemma jitter_axis_closed (i : Z) (u : Q) :
  Z.abs i < 2 ^ 23 -> (0 <= u)%Q -> (u < 1)%Q ->
  (-(1#2) <= jitter_axis i u - inject_Z i)%Q /\ (jitter_axis i u - inject_Z i <= 1#2)%Q.
Proof.
  intros Hi U0 U1. unfold jitter_axis, fsub, fadd, float_of_int.
  pose proof (round32_Z i ltac:(lia)) as Ri.
  pose proof (round32_Z (i + 1) ltac:(lia)) as Ri1.
  rewrite inject_Z_plus in Ri1. change (inject_Z 1) with 1%Q in Ri1.
  assert (Lo : (inject_Z i <= round32 (round32 (inject_Z i) + u))%Q).
  { rewrite <- Ri at 1. apply round32_monotone. lra. }
  assert (Hi' : (round32 (round32 (inject_Z i) + u) <= inject_Z i + 1)%Q).
  { apply Qle_trans with (round32 (inject_Z i + 1)); [|rewrite Ri1; lra].
    apply round32_monotone. lra. }
  set (a := round32 (round32 (inject_Z i) + u)) in *.
  pose proof (round32_half (2 * i - 1) ltac:(lia)) as Hm.
  pose proof (round32_half (2 * i + 1) ltac:(lia)) as Hp.
  assert (Em : (inject_Z (2 * i - 1) * (1#2) == inject_Z i - (1#2))%Q).
  { unfold Zminus. rewrite inject_Z_plus, inject_Z_mult. simpl. ring. }
  assert (Ep : (inject_Z (2 * i + 1) * (1#2) == inject_Z i + (1#2))%Q).
  { rewrite inject_Z_plus, inject_Z_mult. simpl. ring. }
  rewrite (round32_comp _ _ Em), Em in Hm.
  rewrite (round32_comp _ _ Ep), Ep in Hp.
  pose proof (round32_monotone (inject_Z i - (1#2)) (a - (1#2)) ltac:(lra)) as M1.
  pose proof (round32_monotone (a - (1#2)) (inject_Z i + (1#2)) ltac:(lra)) as M2.
  lra.
Qed.

Lemma in_grid_float {A} (m : Image A) (i : Index) :
  float_indexed m -> in_grid m i ->
  Z.abs (ix0 i) < 2 ^ 23 /\ Z.abs (ix1 i) < 2 ^ 23 /\ Z.abs (ix2 i) < 2 ^ 23.
Proof.
  intros (F0 & F1 & F2) (G0 & G1 & G2). lia.
Qed.

Lemma jitter_closed {A} (m : Image A) (i : Index) (g : Rng) :
  float_indexed m -> in_grid m i -> unit_tape g -> closed_voxel i (fst (jitter i g)).
Proof.
  intros F G U. destruct (in_grid_float m i F G) as (B0 & B1 & B2).
  unfold jitter, uniform, rng_next; simpl.
  destruct (U (drawn g)) as [H0 H0'].
  destruct (U (S (drawn g))) as [H1 H1'].
  destruct (U (S (S (drawn g)))) as [H2 H2'].
  unfold closed_voxel; simpl.
  split; [|split]; apply jitter_axis_closed; assumption.
Qed.

(** A point within half a voxel of an index, both ends included, has
    that voxel or its upper neighbour as nearest voxel. *)
Lemma nearest_voxel_closed (i : Index) (q : Vector3) :
  closed_voxel i q -> same_or_next i (nearest_voxel q).
Proof.
  intros ((Ha & Hb) & (Hc & Hd) & (He & Hf)).
  assert (L : forall (x : Q) (z : Z),
             (-(1#2) <= x - inject_Z z)%Q -> (x - inject_Z z <= 1#2)%Q ->
             z <= Qfloor (x + (1#2)) <= z + 1).
  { intros x z H1 H2. split.
    - rewrite <- (Qfloor_Z z). apply Qfloor_resp_le. lra.
    - rewrite <- (Qfloor_Z (z + 1)). apply Qfloor_resp_le.
      rewrite inject_Z_plus. change (inject_Z 1) with 1%Q. lra. }
  unfold same_or_next, nearest_voxel; simpl.
  split; [|split]; apply L; assumption.
Qed.

Lemma jitter_tape (i : Index) (g : Rng) : tape (snd (jitter i g)) = tape g.
Proof. reflexivity. Qed.

Lemma draw_index_tape {A} (m : Image A) (g : Rng) :
  tape (snd (draw_index m g)) = tape g.
Proof. reflexivity. Qed.

Lemma uniform_int_range (a b : Z) (g : Rng) :
  unit_tape g -> a <= b -> a <= fst (uniform_int a b g) <= b.
Proof.
  intros U Hab. unfold uniform_int. cbn [fst].
  destruct (U (drawn g)) as [H0 H1].
  set (u := tape g (drawn g)) in *.
  assert (Hn : (0 < inject_Z (b - a + 1))%Q).
  { change 0%Q with (inject_Z 0). rewrite <- Zlt_Qlt. lia. }
  assert (Hlo : (0 <= Qfloor (u * inject_Z (b - a + 1)))%Z).
  { rewrite <- (Qfloor_Z 0). apply Qfloor_resp_le.
    change (inject_Z 0) with 0%Q. apply Qmult_le_0_compat; [exact H0|].
    apply Qlt_le_weak. exact Hn. }
  assert (Hhi : (Qfloor (u * inject_Z (b - a + 1)) < b - a + 1)%Z).
  { rewrite Zlt_Qlt.
    apply Qle_lt_trans with (u * inject_Z (b - a + 1))%Q; [apply Qfloor_le|].
    set (n := inject_Z (b - a + 1)) in *. nra. }
  lia.
Qed.

Lemma draw_index_in_grid {A} (m : Image A) (g : Rng) :
  unit_tape g -> positive_extent m -> in_grid m (fst (draw_index m g)).
Proof.
  intros U (H0 & H1 & H2). unfold draw_index.
  pose proof (uniform_int_range 0 (size0 m - 1) g U ltac:(lia)) as R0.
  destruct (uniform_int 0 (size0 m - 1) g) as [i0 g0] eqn:E0.
  assert (U0 : unit_tape g0).
  { replace g0 with (snd (uniform_int 0 (size0 m - 1) g)) by (rewrite E0; reflexivity).
    exact U. }
  pose proof (uniform_int_range 0 (size1 m - 1) g0 U0 ltac:(lia)) as R1.
  destruct (uniform_int 0 (size1 m - 1) g0) as [i1 g1] eqn:E1.
  assert (U1 : unit_tape g1).
  { replace g1 with (snd (uniform_int 0 (size1 m - 1) g0)) by (rewrite E1; reflexivity).
    exact U0. }
  pose proof (uniform_int_range 0 (size2 m - 1) g1 U1 ltac:(lia)) as R2.
  destruct (uniform_int 0 (size2 m - 1) g1) as [i2 g2] eqn:E2.
  simpl in *. unfold in_grid; simpl. lia.
Qed.

(** Invariants are preserved by iteration. *)
Lemma iterate_invariant {S : Type} (P : S -> Prop) (body : S -> S) :
  (forall s, P s -> P (body s)) -> forall n s, P s -> P (iterate n body s).
Proof.
  intros Hstep n. induction n as [|n IH]; intros s Hs; simpl; auto.
Qed.

Lemma unit_tape_ext (g g' : Rng) : tape g' = tape g -> unit_tape g -> unit_tape g'.
Proof. intros E U n. rewrite E. apply U. Qed.

Lemma index_eqb_eq (a b : Index) : index_eqb a b = true <-> a = b.
Proof.
  unfold index_eqb. rewrite !andb_true_iff, !Z.eqb_eq. split.
  - intros ((H0 & H1) & H2). destruct a, b; simpl in *. congruence.
  - intros ->. tauto.
Qed.

(** ** SeedMask *)

Lemma SeedMask_draw_tape (self : SeedMask) (n : nat) (s : Index * Rng) :
  tape (snd (iterate n (SeedMask_draw self) s)) = tape (snd s).
Proof.
  apply (iterate_invariant (fun s' => tape (snd s') = tape (snd s))); [|reflexivity].
  intros s' H. unfold SeedMask_draw. rewrite draw_index_tape. exact H.
Qed.

(** C7, as amended. Whenever [SeedMask::get_seed] returns, it returns
    [true]; the voxel it has kept is the first candidate of the stream
    whose mask value is non-zero, and it lies in the grid; the point is
    the transform of the point computed for that voxel, which lies
    within half a voxel of its index on each axis, both ends included
    (for extents up to 2^23), so that the nearest voxel of that point is
    the voxel kept or its upper neighbour. The call returns as soon as
    the stream draws a non-zero voxel. *)
Theorem SeedMask_get_seed_closed_voxel :
  (forall fuel self p g r,
      unit_tape g ->
      SeedMask_get_seed fuel self p g = Some r ->
      exists n seed g1 q g',
        (seed, g1) = iterate (S n) (SeedMask_draw self) (mkIndex 0 0 0, g) /\
        (forall j, (j < n)%nat ->
           value (sm_mask self)
             (fst (iterate (S j) (SeedMask_draw self) (mkIndex 0 0 0, g))) = false) /\
        value (sm_mask self) seed = true /\
        (q, g') = jitter seed g1 /\
        r = (true, transform_apply (voxel2scanner (sm_mask self)) q, self, g') /\
        (positive_extent (sm_mask self) -> in_grid (sm_mask self) seed) /\
        (positive_extent (sm_mask self) -> float_indexed (sm_mask self) ->
           closed_voxel seed q /\ same_or_next seed (nearest_voxel q))) /\
  (forall self p g n,
      value (sm_mask self)
        (fst (iterate (S n) (SeedMask_draw self) (mkIndex 0 0 0, g))) = true ->
      exists fuel p' g', SeedMask_get_seed fuel self p g = Some (true, p', self, g')).
Proof.
  split.
  - intros fuel self p g r U H. unfold SeedMask_get_seed in H.
    destruct (do_while fuel (SeedMask_draw self) (SeedMask_again self) (mkIndex 0 0 0, g))
      as [[seed g1]|] eqn:E; [|discriminate].
    destruct (do_while_Some _ _ _ _ _ E) as (n & _ & Hr & Ha & Hj).
    destruct (jitter seed g1) as [q g2] eqn:J.
    exists n, seed, g1, q, g2.
    assert (U1 : unit_tape g1).
    { apply (unit_tape_ext g); [|exact U].
      change g1 with (snd (seed, g1)). rewrite Hr.
      apply (SeedMask_draw_tape self (S n) (mkIndex 0 0 0, g)). }
    assert (V : value (sm_mask self) seed = true).
    { unfold SeedMask_again in Ha. simpl in Ha. apply negb_false_iff in Ha. exact Ha. }
    assert (G : positive_extent (sm_mask self) -> in_grid (sm_mask self) seed).
    { intro Hpos. rewrite iterate_succ in Hr. unfold SeedMask_draw at 1 in Hr.
      change seed with (fst (seed, g1)). rewrite Hr.
      apply draw_index_in_grid; [|exact Hpos].
      apply (unit_tape_ext g); [|exact U].
      apply (SeedMask_draw_tape self n (mkIndex 0 0 0, g)). }
    split; [exact Hr|]. split.
    { intros j Hlt. specialize (Hj j Hlt). unfold SeedMask_again in Hj.
      apply negb_true_iff in Hj. exact Hj. }
    split; [exact V|]. split; [symmetry; exact J|].
    split; [inversion H; reflexivity|]. split; [exact G|].
    intros Hpos F.
    assert (W : closed_voxel seed q).
    { change q with (fst (q, g2)). rewrite <- J.
      apply (jitter_closed (sm_mask self)); [exact F|exact (G Hpos)|exact U1]. }
    split; [exact W|apply nearest_voxel_closed; exact W].
  - intros self p g n Hn.
    destruct (do_while_eventually (SeedMask_draw self) (SeedMask_again self) n
                (mkIndex 0 0 0, g)) as (fuel & [seed g1] & E).
    { unfold SeedMask_again. rewrite Hn. reflexivity. }
    unfold SeedMask_get_seed.
    destruct (jitter seed g1) as [q g2] eqn:J.
    exists fuel, (transform_apply (voxel2scanner (sm_mask self)) q), g2.
    rewrite E, J. reflexivity.
Qed.

Lemma identity_inverse : inverse_of identity_transform identity_transform.
Proof.
  intro p. unfold veq, transform_apply, identity_transform; simpl.
  repeat split; ring.
Qed.

Lemma half_rng_unit : unit_tape (constant_rng (1#2)).
Proof. intro n. simpl. split; [discriminate|reflexivity]. Qed.

Lemma SeedMask_get_seed_closed_voxel_witness :
  unit_tape (constant_rng (1#2)) /\
  SeedMask_get_seed 1 (mkSeedMask example_mask) origin (constant_rng (1#2))
    = Some (true, transform_apply identity_transform (mkVec 1 0 0),
            mkSeedMask example_mask, mkRng (fun _ => 1#2) 6) /\
  exists n seed g1 q g',
    (seed, g1)
      = iterate (S n) (SeedMask_draw (mkSeedMask example_mask))
          (mkIndex 0 0 0, constant_rng (1#2)) /\
    (forall j, (j < n)%nat ->
       value example_mask
         (fst (iterate (S j) (SeedMask_draw (mkSeedMask example_mask))
                 (mkIndex 0 0 0, constant_rng (1#2)))) = false) /\
    value example_mask seed = true /\
    (q, g') = jitter seed g1 /\
    (true, transform_apply identity_transform (mkVec 1 0 0),
     mkSeedMask example_mask, mkRng (fun _ => 1#2) 6)
      = (true, transform_apply (voxel2scanner example_mask) q,
         mkSeedMask example_mask, g') /\
    (positive_extent example_mask -> in_grid example_mask seed) /\
    (positive_extent example_mask -> float_indexed example_mask ->
       closed_voxel seed q /\ same_or_next seed (nearest_voxel q)).
Proof.
  split; [exact half_rng_unit|]. split; [vm_compute; reflexivity|].
  apply (proj1 SeedMask_get_seed_closed_voxel 1%nat (mkSeedMask example_mask) origin
           (constant_rng (1#2)) _ half_rng_unit).
  vm_compute. reflexivity.
Defined.

Lemma boundary_rng_unit : unit_tape boundary_rng.
Proof.
  intro n. unfold boundary_rng; cbn [tape].
  destruct (Nat.eqb n 3); split; try discriminate; reflexivity.
Qed.

Lemma nearest_voxel_veq (a b : Vector3) : veq a b -> nearest_voxel a = nearest_voxel b.
Proof.
  intros (H0 & H1 & H2). unfold nearest_voxel.
  rewrite H0, H1, H2. reflexivity.
Qed.

(** The statement of C7 fails in single precision: on a mask whose only
    non-zero voxel is (1,0,0), the sample [1 - 2^-24] gives
    [1 + (1 - 2^-24) - 0.5 = 1.5], an offset of exactly 0.5; the seed is
    within no non-zero voxel at an offset below 0.5, and the voxel that
    contains it after the inverse transform, (2,0,0), has a zero mask
    value. *)
Lemma SeedMask_seed_on_boundary :
  unit_tape boundary_rng /\
  exists q g',
    q = mkVec (3#2) 0 0 /\
    SeedMask_get_seed 1 (mkSeedMask middle_mask) origin boundary_rng
      = Some (true, transform_apply (voxel2scanner middle_mask) q,
              mkSeedMask middle_mask, g') /\
    (forall seed, value middle_mask seed = true -> ~ within_voxel seed q) /\
    inverse_of identity_transform (voxel2scanner middle_mask) /\
    (forall inv, inverse_of inv (voxel2scanner middle_mask) ->
       nearest_voxel
         (transform_apply inv (transform_apply (voxel2scanner middle_mask) q))
         = mkIndex 2 0 0) /\
    value middle_mask (mkIndex 2 0 0) = false.
Proof.
  split; [exact boundary_rng_unit|].
  exists (mkVec (3#2) 0 0), (mkRng (tape boundary_rng) 6).
  split; [reflexivity|].
  split; [vm_compute; reflexivity|].
  split.
  { intros seed V ((_ & Hb) & _).
    cbn [middle_mask value] in V. apply index_eqb_eq in V. subst seed.
    simpl in Hb. vm_compute in Hb. discriminate Hb. }
  split; [exact identity_inverse|].
  split; [|reflexivity].
  intros inv Hinv.
  rewrite (nearest_voxel_veq _ _ (Hinv (mkVec (3#2) 0 0))). reflexivity.
Qed.

(** ** Rejection: sampling *)

Lemma example_rejection_constructed :
  Rejection_ctor "density.mif" example_density = inr example_rejection.
Proof. vm_compute. reflexivity. Qed.

Lemma constant_rng_unit (c : Q) : (0 <= c)%Q -> (c < 1)%Q -> unit_tape (constant_rng c).
Proof. intros H0 H1 n. simpl. split; assumption. Qed.

Lemma Rejection_again_false (self : Rejection) (s : Index * Q * Rng) :
  Rejection_again self s = false <->
  (snd (fst s) <= value (image self) (fst (fst s)))%Q.
Proof. apply Qlt_bool_false. Qed.

Lemma Rejection_selector_range (self : Rejection) (s : Index * Q * Rng) :
  unit_tape (snd s) -> (0 < max self)%Q ->
  (0 <= snd (fst (Rejection_draw self s)))%Q /\
  (snd (fst (Rejection_draw self s)) < max self)%Q.
Proof.
  intros U Hmax. unfold Rejection_draw.
  destruct (draw_index (image self) (snd s)) as [i g2] eqn:E.
  assert (U2 : unit_tape g2).
  { apply (unit_tape_ext (snd s)); [|exact U].
    change g2 with (snd (i, g2)). rewrite <- E. apply draw_index_tape. }
  unfold uniform. cbn [fst snd].
  destruct (U2 (drawn g2)) as [H0 H1].
  set (u := tape g2 (drawn g2)) in *. set (m := max self) in *.
  split; nra.
Qed.

(** C10. The loop of [Rejection::get_seed] keeps a candidate exactly when
    the threshold is at most the density of its voxel; the threshold lies
    between 0 (included) and [max] (excluded); whenever the call returns,
    it returns [true] with the transform of the point computed for the
    first candidate of the stream that the loop keeps; and for the
    strategy constructed from a density image with values 1, 0 and 1
    there is a stream of draws whose first candidate is the voxel of
    density 0 with threshold 0: whatever the caller's vector, the call
    returns a seed at the centre of that voxel of the cropped volume. *)
Theorem Rejection_get_seed_zero_density :
  (forall self s,
      Rejection_again self s = false <->
      (snd (fst s) <= value (image self) (fst (fst s)))%Q) /\
  (forall self s,
      unit_tape (snd s) -> (0 < max self)%Q ->
      (0 <= snd (fst (Rejection_draw self s)))%Q /\
      (snd (fst (Rejection_draw self s)) < max self)%Q) /\
  (forall fuel self p g r,
      Rejection_get_seed fuel self p g = Some r ->
      exists n seed selector g1 q g',
        (seed, selector, g1)
          = iterate (S n) (Rejection_draw self) (mkIndex 0 0 0, 0%Q, g) /\
        (selector <= value (image self) seed)%Q /\
        (q, g') = jitter seed g1 /\
        r = (true, transform_apply (rej_voxel2scanner self) q, self, g')) /\
  (Rejection_ctor "density.mif" gap_density = inr gap_rejection /\
   unit_tape zero_threshold_rng /\
   Rejection_draw gap_rejection (mkIndex 0 0 0, 0%Q, zero_threshold_rng)
     = (mkIndex 1 0 0, 0%Q, mkRng (tape zero_threshold_rng) 4) /\
   in_grid (image gap_rejection) (mkIndex 1 0 0) /\
   (value (image gap_rejection) (mkIndex 1 0 0) == 0)%Q /\
   jitter (mkIndex 1 0 0) (mkRng (tape zero_threshold_rng) 4)
     = (mkVec 1 0 0, mkRng (tape zero_threshold_rng) 7) /\
   within_voxel (mkIndex 1 0 0) (mkVec 1 0 0) /\
   forall p,
     Rejection_get_seed 1 gap_rejection p zero_threshold_rng
       = Some (true, transform_apply (rej_voxel2scanner gap_rejection) (mkVec 1 0 0),
               gap_rejection, mkRng (tape zero_threshold_rng) 7)).
Proof.
  split; [exact Rejection_again_false|]. split; [exact Rejection_selector_range|].
  split.
  - intros fuel self p g r H. unfold Rejection_get_seed in H.
    destruct (do_while fuel (Rejection_draw self) (Rejection_again self)
                (mkIndex 0 0 0, 0%Q, g)) as [[[seed selector] g1]|] eqn:E; [|discriminate].
    destruct (do_while_Some _ _ _ _ _ E) as (n & _ & Hr & Ha & _).
    destruct (jitter seed g1) as [q g2] eqn:J.
    exists n, seed, selector, g1, q, g2.
    split; [exact Hr|]. split.
    { apply (Rejection_again_false self (seed, selector, g1)). exact Ha. }
    split; [symmetry; exact J|]. inversion H. reflexivity.
  - split; [vm_compute; reflexivity|].
    split.
    { intro n. unfold zero_threshold_rng; cbn [tape].
      destruct (Nat.eqb n 3); split; try discriminate; reflexivity. }
    split; [vm_compute; reflexivity|].
    split; [unfold in_grid; simpl; lia|].
    split; [reflexivity|].
    split; [vm_compute; reflexivity|].
    split.
    { unfold within_voxel; simpl. repeat split; try discriminate; reflexivity. }
    intro p. vm_compute. reflexivity.
Qed.

Lemma Rejection_get_seed_zero_density_witness :
  Rejection_get_seed 1 gap_rejection origin zero_threshold_rng
    = Some (true, transform_apply (rej_voxel2scanner gap_rejection) (mkVec 1 0 0),
            gap_rejection, mkRng (tape zero_threshold_rng) 7) /\
  exists n seed selector g1 q g',
    (seed, selector, g1)
      = iterate (S n) (Rejection_draw gap_rejection)
          (mkIndex 0 0 0, 0%Q, zero_threshold_rng) /\
    (selector <= value (image gap_rejection) seed)%Q /\
    (q, g') = jitter seed g1 /\
    (true, transform_apply (rej_voxel2scanner gap_rejection) (mkVec 1 0 0),
     gap_rejection, mkRng (tape zero_threshold_rng) 7)
      = (true, transform_apply (rej_voxel2scanner gap_rejection) q, gap_rejection, g').
Proof.
  split; [vm_compute; reflexivity|].
  apply (proj1 (proj2 (proj2 Rejection_get_seed_zero_density)) 1%nat gap_rejection origin
           zero_threshold_rng).
  vm_compute. reflexivity.
Defined.

(** ** Termination of the accept/reject loops *)

Lemma Sphere_get_seed_returns_iff (self : Sphere) (p : Vector3) (g : Rng) :
  (exists fuel r, Sphere_get_seed fuel self p g = Some r) <->
  (exists n, Sphere_again (iterate (S n) Sphere_draw (p, g)) = false).
Proof.
  rewrite <- do_while_ends_iff. unfold Sphere_get_seed. split.
  - intros (fuel & r & H). exists fuel.
    destruct (do_while fuel Sphere_draw Sphere_again (p, g)) as [s|]; [|discriminate].
    exists s. reflexivity.
  - intros (fuel & [c g'] & H). exists fuel. rewrite H. eexists. reflexivity.
Qed.

Lemma SeedMask_get_seed_returns_iff (self : SeedMask) (p : Vector3) (g : Rng) :
  (exists fuel r, SeedMask_get_seed fuel self p g = Some r) <->
  (exists n, SeedMask_again self
               (iterate (S n) (SeedMask_draw self) (mkIndex 0 0 0, g)) = false).
Proof.
  rewrite <- do_while_ends_iff. unfold SeedMask_get_seed. split.
  - intros (fuel & r & H). exists fuel.
    destruct (do_while fuel (SeedMask_draw self) (SeedMask_again self) (mkIndex 0 0 0, g))
      as [s|]; [|discriminate].
    exists s. reflexivity.
  - intros (fuel & [c g'] & H). exists fuel. rewrite H.
    destruct (jitter c g'). eexists. reflexivity.
Qed.

Lemma Rejection_get_seed_returns_iff (self : Rejection) (p : Vector3) (g : Rng) :
  (exists fuel r, Rejection_get_seed fuel self p g = Some r) <->
  (exists n, Rejection_again self
               (iterate (S n) (Rejection_draw self) (mkIndex 0 0 0, 0%Q, g)) = false).
Proof.
  rewrite <- do_while_ends_iff. unfold Rejection_get_seed. split.
  - intros (fuel & r & H). exists fuel.
    destruct (do_while fuel (Rejection_draw self) (Rejection_again self)
                (mkIndex 0 0 0, 0%Q, g)) as [s|]; [|discriminate].
    exists s. reflexivity.
  - intros (fuel & [[c t] g'] & H). exists fuel. rewrite H.
    destruct (jitter c g'). eexists. reflexivity.
Qed.

(** With a constant stream every execution of a loop body sees the same
    samples, so a candidate rejected once is rejected for ever. *)
Lemma Sphere_constant_stream (c : Q) (n : nat) (s : Vector3 * Rng) :
  tape (snd s) = (fun _ => c) ->
  fst (iterate (S n) Sphere_draw s)
    = mkVec (Sphere_coordinate c) (Sphere_coordinate c) (Sphere_coordinate c).
Proof.
  intro H. rewrite iterate_succ.
  assert (T : tape (snd (iterate n Sphere_draw s)) = (fun _ => c)).
  { apply (iterate_invariant (fun s' => tape (snd s') = (fun _ => c))); [|exact H].
    intros s' H'. exact H'. }
  destruct (iterate n Sphere_draw s) as [q g']. simpl in T.
  unfold Sphere_draw, uniform; simpl. rewrite T. reflexivity.
Qed.

Lemma SeedMask_constant_stream (self : SeedMask) (c : Q) (n : nat) (s : Index * Rng) :
  tape (snd s) = (fun _ => c) ->
  fst (iterate (S n) (SeedMask_draw self) s)
    = fst (draw_index (sm_mask self) (constant_rng c)).
Proof.
  intro H. rewrite iterate_succ.
  assert (T : tape (snd (iterate n (SeedMask_draw self) s)) = (fun _ => c)).
  { rewrite SeedMask_draw_tape. exact H. }
  destruct (iterate n (SeedMask_draw self) s) as [q g']. simpl in T.
  unfold SeedMask_draw, draw_index, uniform_int; simpl. rewrite T. reflexivity.
Qed.

Lemma Rejection_draw_tape (self : Rejection) (n : nat) (s : Index * Q * Rng) :
  tape (snd (iterate n (Rejection_draw self) s)) = tape (snd s).
Proof.
  apply (iterate_invariant (fun s' => tape (snd s') = tape (snd s))); [|reflexivity].
  intros s' H. unfold Rejection_draw.
  destruct (draw_index (image self) (snd s')) as [i g2] eqn:E.
  simpl. rewrite <- H.
  change g2 with (snd (i, g2)). rewrite <- E. apply draw_index_tape.
Qed.

Lemma Rejection_constant_stream (self : Rejection) (c : Q) (n : nat) (s : Index * Q * Rng) :
  tape (snd s) = (fun _ => c) ->
  fst (iterate (S n) (Rejection_draw self) s)
    = fst (Rejection_draw self (mkIndex 0 0 0, 0%Q, constant_rng c)).
Proof.
  intro H. rewrite iterate_succ.
  assert (T : tape (snd (iterate n (Rejection_draw self) s)) = (fun _ => c)).
  { rewrite Rejection_draw_tape. exact H. }
  destruct (iterate n (Rejection_draw self) s) as [q g']. simpl in T.
  unfold Rejection_draw, draw_index, uniform_int, uniform; simpl. rewrite T. reflexivity.
Qed.

(** C9. None of the three accept/reject loops bounds its iterations: each
    has a stream of draws (for [SeedMask] over a mask with a non-zero
    voxel, for [Rejection] over a successfully constructed strategy) on
    which no bound on the iterations lets the call return; and a call
    returns for some bound exactly when the stream yields a candidate
    that the loop test accepts. *)
Theorem rejection_loops_unbounded :
  ((exists self g, unit_tape g /\
      forall fuel p, Sphere_get_seed fuel self p g = None) /\
   (forall self p g,
      (exists fuel r, Sphere_get_seed fuel self p g = Some r) <->
      (exists n, Sphere_again (iterate (S n) Sphere_draw (p, g)) = false))) /\
  ((exists self g, unit_tape g /\
      (exists i, in_grid (sm_mask self) i /\ value (sm_mask self) i = true) /\
      forall fuel p, SeedMask_get_seed fuel self p g = None) /\
   (forall self p g,
      (exists fuel r, SeedMask_get_seed fuel self p g = Some r) <->
      (exists n, SeedMask_again self
                   (iterate (S n) (SeedMask_draw self) (mkIndex 0 0 0, g)) = false))) /\
  ((exists name vox self g,
      Rejection_ctor name vox = inr self /\ unit_tape g /\
      forall fuel p, Rejection_get_seed fuel self p g = None) /\
   (forall self p g,
      (exists fuel r, Rejection_get_seed fuel self p g = Some r) <->
      (exists n, Rejection_again self
                   (iterate (S n) (Rejection_draw self) (mkIndex 0 0 0, 0%Q, g)) = false))).
Proof.
  split; [split; [|exact Sphere_get_seed_returns_iff]|
          split; [split; [|exact SeedMask_get_seed_returns_iff]|
                  split; [|exact Rejection_get_seed_returns_iff]]].
  - exists example_sphere, (constant_rng 0).
    split; [apply constant_rng_unit; [discriminate|reflexivity]|].
    intros fuel p. unfold Sphere_get_seed.
    rewrite do_while_never; [reflexivity|].
    intro n. unfold Sphere_again.
    rewrite (Sphere_constant_stream 0 n (p, constant_rng 0) eq_refl).
    vm_compute. reflexivity.
  - exists (mkSeedMask example_mask), (constant_rng 0).
    split; [apply constant_rng_unit; [discriminate|reflexivity]|].
    split; [exists (mkIndex 1 0 0); split; [unfold in_grid; simpl; lia|reflexivity]|].
    intros fuel p. unfold SeedMask_get_seed.
    rewrite do_while_never; [reflexivity|].
    intro n. unfold SeedMask_again.
    rewrite (SeedMask_constant_stream (mkSeedMask example_mask) 0 n
               (mkIndex 0 0 0, constant_rng 0) eq_refl).
    reflexivity.
  - exists "density.mif"%string, example_density, example_rejection, (constant_rng (1#4)).
    split; [exact example_rejection_constructed|].
    split; [apply constant_rng_unit; [discriminate|reflexivity]|].
    intros fuel p. unfold Rejection_get_seed.
    rewrite do_while_never; [reflexivity|].
    intro n. unfold Rejection_again.
    rewrite (Rejection_constant_stream example_rejection (1#4) n
               (mkIndex 0 0 0, 0%Q, constant_rng (1#4)) eq_refl).
    reflexivity.
Qed.

Lemma rejection_loops_unbounded_witness :
  Sphere_again (iterate 1 Sphere_draw (origin, constant_rng (1#2))) = false /\
  exists fuel r,
    Sphere_get_seed fuel example_sphere origin (constant_rng (1#2)) = Some r.
Proof.
  assert (H : Sphere_again (iterate 1 Sphere_draw (origin, constant_rng (1#2))) = false)
    by (vm_compute; reflexivity).
  split; [exact H|].
  apply (proj2 (proj1 rejection_loops_unbounded) example_sphere origin (constant_rng (1#2))).
  exists 0%nat. exact H.
Defined.

(** ** Rejection: construction *)

Lemma In_range (z n : Z) : In z (range n) <-> 0 <= z < n.
Proof.
  unfold range. rewrite in_map_iff. split.
  - intros (k & Hk & Hin). apply in_seq in Hin. lia.
  - intro H. exists (Z.to_nat z). split; [lia|]. apply in_seq. lia.
Qed.

Lemma In_raster_axis0_fastest {A} (m : Image A) (i : Index) :
  In i (raster_axis0_fastest m) <-> in_grid m i.
Proof.
  unfold raster_axis0_fastest, in_grid. rewrite in_flat_map. split.
  - intros (i2 & H2 & H). rewrite in_flat_map in H. destruct H as (i1 & H1 & H).
    rewrite in_map_iff in H. destruct H as (i0 & <- & H0).
    rewrite In_range in H0, H1, H2. simpl. lia.
  - intros (H0 & H1 & H2). exists (ix2 i). rewrite In_range. split; [exact H2|].
    rewrite in_flat_map. exists (ix1 i). rewrite In_range. split; [exact H1|].
    rewrite in_map_iff. exists (ix0 i). rewrite In_range. split; [|exact H0].
    destruct i; reflexivity.
Qed.

Lemma In_raster {A} (m : Image A) (i : Index) : In i (raster m) <-> in_grid m i.
Proof.
  unfold raster, in_grid. rewrite in_flat_map. split.
  - intros (i0 & H0 & H). rewrite in_flat_map in H. destruct H as (i1 & H1 & H).
    rewrite in_map_iff in H. destruct H as (i2 & <- & H2).
    rewrite In_range in H0, H1, H2. simpl. lia.
  - intros (H0 & H1 & H2). exists (ix0 i). rewrite In_range. split; [exact H0|].
    rewrite in_flat_map. exists (ix1 i). rewrite In_range. split; [exact H1|].
    rewrite in_map_iff. exists (ix2 i). rewrite In_range. split; [|exact H2].
    destruct i; reflexivity.
Qed.

Lemma nonzero_true (vox : Image Q) (i : Index) :
  nonzero vox i = true <-> ~ (value vox i == 0)%Q.
Proof.
  unfold nonzero. rewrite negb_true_iff. split.
  - intros H E. apply Qeq_bool_iff in E. congruence.
  - intro H. destruct (Qeq_bool (value vox i) 0) eqn:E; [|reflexivity].
    apply Qeq_bool_iff in E. contradiction.
Qed.

Lemma nonzero_false (vox : Image Q) (i : Index) :
  nonzero vox i = false <-> (value vox i == 0)%Q.
Proof.
  unfold nonzero. rewrite negb_false_iff. apply Qeq_bool_iff.
Qed.

(** Running minimum, maximum and sum, as the scan computes them. *)
Section Running.
Variable key : Index -> Z.

Lemma running_min (l : list Index) : forall b,
  let r := fold_left (fun b i => if key i <? b then key i else b) l b in
  r <= b /\ (forall i, In i l -> r <= key i) /\
  (r = b \/ exists i, In i l /\ r = key i).
Proof.
  induction l as [|a l IH]; intro b; simpl.
  - split; [lia|]. split; [tauto|]. left; reflexivity.
  - destruct (IH (if key a <? b then key a else b)) as (H1 & H2 & H3).
    destruct (Z.ltb_spec (key a) b) as [Hlt|Hge].
    + split; [lia|]. split.
      * intros i [<-|Hi]; [exact H1|apply H2; exact Hi].
      * right. destruct H3 as [->|(i & Hi & ->)]; [exists a|exists i]; auto.
    + split; [lia|]. split.
      * intros i [<-|Hi]; [lia|apply H2; exact Hi].
      * destruct H3 as [->|(i & Hi & ->)]; [left; reflexivity|right; exists i; auto].
Qed.

Lemma running_max (l : list Index) : forall t,
  let r := fold_left (fun t i => if key i >? t then key i else t) l t in
  t <= r /\ (forall i, In i l -> key i <= r) /\
  (r = t \/ exists i, In i l /\ r = key i).
Proof.
  induction l as [|a l IH]; intro t; simpl.
  - split; [lia|]. split; [tauto|]. left; reflexivity.
  - destruct (IH (if key a >? t then key a else t)) as (H1 & H2 & H3).
    rewrite Z.gtb_ltb in *.
    destruct (Z.ltb_spec t (key a)) as [Hlt|Hge].
    + split; [lia|]. split.
      * intros i [<-|Hi]; [exact H1|apply H2; exact Hi].
      * right. destruct H3 as [->|(i & Hi & ->)]; [exists a|exists i]; auto.
    + split; [lia|]. split.
      * intros i [<-|Hi]; [lia|apply H2; exact Hi].
      * destruct H3 as [->|(i & Hi & ->)]; [left; reflexivity|right; exists i; auto].
Qed.
End Running.

Lemma std_max_cases (a b : Q) :
  (a <= std_max a b)%Q /\ (b <= std_max a b)%Q /\ (std_max a b = a \/ std_max a b = b).
Proof.
  unfold std_max. destruct (Qlt_bool a b) eqn:E.
  - apply Qlt_bool_true in E. split; [lra|]. split; [lra|]. right; reflexivity.
  - apply Qlt_bool_false in E. split; [lra|]. split; [lra|]. left; reflexivity.
Qed.

Lemma running_std_max (f : Index -> Q) (l : list Index) : forall m,
  let r := fold_left (fun m i => std_max m (f i)) l m in
  (m <= r)%Q /\ (forall i, In i l -> (f i <= r)%Q) /\
  (r = m \/ exists i, In i l /\ r = f i).
Proof.
  induction l as [|a l IH]; intro m; simpl.
  - split; [lra|]. split; [tauto|]. left; reflexivity.
  - destruct (IH (std_max m (f a))) as (H1 & H2 & H3).
    destruct (std_max_cases m (f a)) as (Ha & Hb & Hc).
    split; [lra|]. split.
    + intros i [<-|Hi]; [lra|apply H2; exact Hi].
    + destruct H3 as [->|(i & Hi & ->)].
      * destruct Hc as [->| ->]; [left; reflexivity|right; exists a; auto].
      * right; exists i; auto.
Qed.

(** A running sum in single precision of values that are not negative
    is not negative, and it is positive once it has met a positive
    value. *)
Lemma running_fadd_sign (f : Index -> Q) (l : list Index) : forall acc,
  (forall i, In i l -> (0 <= f i)%Q) -> (0 <= acc)%Q ->
  (0 <= fold_left (fun a i => fadd a (f i)) l acc)%Q /\
  ((0 < acc)%Q \/ (exists i, In i l /\ (0 < f i)%Q) ->
   (0 < fold_left (fun a i => fadd a (f i)) l acc)%Q).
Proof.
  induction l as [|a l IH]; intros acc Hall Hacc; simpl.
  - split; [exact Hacc|]. intros [H|(i & [] & _)]. exact H.
  - assert (Ha : (0 <= f a)%Q) by (apply Hall; left; reflexivity).
    assert (Hl : forall i, In i l -> (0 <= f i)%Q)
      by (intros i Hi; apply Hall; right; exact Hi).
    assert (N : (0 <= fadd acc (f a))%Q) by (apply round32_nonneg; lra).
    destruct (IH (fadd acc (f a)) Hl N) as (I1 & I2).
    split; [exact I1|].
    intros [H|(i & [<-|Hi] & Hp)].
    + apply I2. left. apply round32_positive. lra.
    + apply I2. left. apply round32_positive. lra.
    + apply I2. right. exists i. split; assumption.
Qed.

Lemma scan_inl (vox : Image Q) (l : list Index) : forall s e,
  scan vox l s = inl e ->
  e = negative_message /\ exists i, In i l /\ (value vox i < 0)%Q.
Proof.
  induction l as [|a l IH]; intros s e H; simpl in H; [discriminate|].
  unfold scan_voxel in H.
  destruct (negb (Qeq_bool (value vox a) 0)) eqn:N.
  - destruct (Qlt_bool (value vox a) 0) eqn:L.
    + inversion H. split; [reflexivity|]. exists a. split; [left; reflexivity|].
      apply Qlt_bool_true. exact L.
    + destruct (IH _ _ H) as (He & i & Hi & Hv). split; [exact He|].
      exists i. split; [right; exact Hi|exact Hv].
  - destruct (IH _ _ H) as (He & i & Hi & Hv). split; [exact He|].
    exists i. split; [right; exact Hi|exact Hv].
Qed.

Lemma scan_inr (vox : Image Q) (l : list Index) : forall s s',
  scan vox l s = inr s' ->
  (forall i, In i l -> (0 <= value vox i)%Q) /\
  s' = fold_left (scan_update vox) (filter (nonzero vox) l) s.
Proof.
  induction l as [|a l IH]; intros s s' H; simpl in H.
  - inversion H. split; [intros i []|reflexivity].
  - unfold scan_voxel in H. simpl. unfold nonzero at 1.
    destruct (negb (Qeq_bool (value vox a) 0)) eqn:N.
    + destruct (Qlt_bool (value vox a) 0) eqn:L; [discriminate|].
      destruct (IH _ _ H) as (Hall & Hs). split; [|exact Hs].
      intros i [<-|Hi]; [apply Qlt_bool_false; exact L|apply Hall; exact Hi].
    + destruct (IH _ _ H) as (Hall & Hs). split; [|exact Hs].
      intros i [<-|Hi]; [|apply Hall; exact Hi].
      apply negb_false_iff, Qeq_bool_iff in N. rewrite N. apply Qle_refl.
Qed.

Lemma scan_succeeds (vox : Image Q) (l : list Index) : forall s,
  (forall i, In i l -> (0 <= value vox i)%Q) -> exists s', scan vox l s = inr s'.
Proof.
  induction l as [|a l IH]; intros s Hall; simpl.
  - exists s. reflexivity.
  - unfold scan_voxel.
    assert (L : Qlt_bool (value vox a) 0 = false).
    { apply Qlt_bool_false. apply Hall. left; reflexivity. }
    rewrite L.
    destruct (negb (Qeq_bool (value vox a) 0)); apply IH; intros i Hi; apply Hall; right; exact Hi.
Qed.

Lemma scan_fields (vox : Image Q) (l : list Index) : forall s,
  fold_left (scan_update vox) l s =
  mkScan (fold_left (fun m i => std_max m (value vox i)) l (sc_max s))
         (fold_left (fun a i => fadd a (value vox i)) l (sc_volume s))
         (fold_left (fun b i => if ix0 i <? b then ix0 i else b) l (bottom0 s))
         (fold_left (fun b i => if ix1 i <? b then ix1 i else b) l (bottom1 s))
         (fold_left (fun b i => if ix2 i <? b then ix2 i else b) l (bottom2 s))
         (fold_left (fun t i => if ix0 i >? t then ix0 i else t) l (top0 s))
         (fold_left (fun t i => if ix1 i >? t then ix1 i else t) l (top1 s))
         (fold_left (fun t i => if ix2 i >? t then ix2 i else t) l (top2 s)).
Proof.
  induction l as [|a l IH]; intro s; simpl.
  - destruct s; reflexivity.
  - rewrite IH. reflexivity.
Qed.

Lemma In_nonzero_Loop (vox : Image Q) (i : Index) :
  In i (filter (nonzero vox) (Loop_0_3 vox)) <-> in_grid vox i /\ nonzero vox i = true.
Proof.
  rewrite filter_In. unfold Loop_0_3. rewrite In_raster_axis0_fastest. tauto.
Qed.

(** The sum accumulated over the non-zero voxels of an image without
    negative values is the running sum of its positive values. *)
Lemma rounded_sum_of_nonzero (vox : Image Q) (l : list Index) :
  (forall i, In i l -> (0 <= value vox i)%Q) ->
  forall acc,
    fold_left (fun a i => fadd a (value vox i)) (filter (nonzero vox) l) acc =
    fold_left (fun a i => if Qlt_bool 0 (value vox i) then fadd a (value vox i) else a)
      l acc.
Proof.
  induction l as [|a l IH]; intros Hall acc; simpl; [reflexivity|].
  assert (Hl : forall i, In i l -> (0 <= value vox i)%Q)
    by (intros i Hi; apply Hall; right; exact Hi).
  assert (Ha : (0 <= value vox a)%Q) by (apply Hall; left; reflexivity).
  destruct (nonzero vox a) eqn:N.
  - apply nonzero_true in N.
    assert (P : Qlt_bool 0 (value vox a) = true).
    { apply Qlt_bool_true. destruct (Qlt_le_dec 0 (value vox a)) as [H|H]; [exact H|].
      exfalso. apply N. lra. }
    rewrite P. simpl. apply IH. exact Hl.
  - apply nonzero_false in N.
    assert (P : Qlt_bool 0 (value vox a) = false) by (apply Qlt_bool_false; lra).
    rewrite P. apply IH. exact Hl.
Qed.

(** Where no partial sum needs rounding, the running sum in single
    precision is the exact sum. *)
Lemma rounded_sum_exact (f : Index -> Q) (l : list Index) : forall acc acc',
  (acc' == acc)%Q ->
  Forall (fun x => round32 x == x)%Q (exact_sums f l acc) ->
  (fold_left (fun a i => if Qlt_bool 0 (f i) then fadd a (f i) else a) l acc' ==
   fold_right (fun i a => if Qlt_bool 0 (f i) then f i + a else a) 0 l + acc)%Q.
Proof.
  induction l as [|a l IH]; intros acc acc' E H; simpl.
  - rewrite E. ring.
  - simpl in H. destruct (Qlt_bool 0 (f a)).
    + inversion H as [|? ? Hr Hrest]; subst.
      rewrite (IH (acc + f a)%Q (fadd acc' (f a))); [ring| |exact Hrest].
      unfold fadd. rewrite E. exact Hr.
    + apply IH; assumption.
Qed.

Lemma nonnegative_when_no_negative (vox : Image Q) :
  ~ has_negative vox -> forall i, In i (Loop_0_3 vox) -> (0 <= value vox i)%Q.
Proof.
  intros Hn i Hi. destruct (Qlt_le_dec (value vox i) 0) as [H|H]; [|exact H].
  exfalso. apply Hn. exists i. split; [|exact H].
  apply In_raster_axis0_fastest. exact Hi.
Qed.

Lemma positive_is_nonzero (vox : Image Q) (i : Index) :
  (0 < value vox i)%Q -> nonzero vox i = true.
Proof. intro H. apply nonzero_true. intro E. rewrite E in H. discriminate H. Qed.

(** The maximum found by a successful scan bounds every value and is
    either the initial zero or the value of a non-zero voxel. *)
Lemma scan_max (vox : Image Q) (s' : Scan) :
  scan vox (Loop_0_3 vox) scan_init = inr s' ->
  (forall i, in_grid vox i -> (0 <= value vox i)%Q /\ (value vox i <= sc_max s')%Q) /\
  (sc_max s' = 0%Q \/
   exists i, in_grid vox i /\ nonzero vox i = true /\ sc_max s' = value vox i).
Proof.
  intro H. destruct (scan_inr _ _ _ _ H) as (Hall & Hs).
  rewrite scan_fields in Hs. subst s'. simpl.
  destruct (running_std_max (value vox) (filter (nonzero vox) (Loop_0_3 vox)) 0)
    as (H0 & Hle & Hat).
  split.
  - intros i Hi.
    assert (Hv : (0 <= value vox i)%Q) by (apply Hall, In_raster_axis0_fastest; exact Hi).
    split; [exact Hv|].
    destruct (nonzero vox i) eqn:N.
    + apply Hle. apply In_nonzero_Loop. split; assumption.
    + apply nonzero_false in N. rewrite N. exact H0.
  - destruct Hat as [E|(i & Hi & E)]; [left; exact E|right].
    apply In_nonzero_Loop in Hi. exists i. tauto.
Qed.

(** C2. Construction of [Rejection] fails exactly when the image has a
    negative voxel or no positive voxel. A negative voxel gives the error
    about negative values, an image without negative and without positive
    values gives the error about an empty image, and in both cases no
    object is returned; an image without negative values and with a
    positive value yields an object. *)
Theorem Rejection_ctor_fails_iff (name : string) (vox : Image Q) :
  ((exists e, Rejection_ctor name vox = inl e) <->
   (has_negative vox \/ ~ has_positive vox)) /\
  (has_negative vox -> Rejection_ctor name vox = inl negative_message) /\
  (~ has_negative vox -> ~ has_positive vox ->
   Rejection_ctor name vox = inl (empty_message name)) /\
  (~ has_negative vox -> has_positive vox ->
   exists self, Rejection_ctor name vox = inr self).
Proof.
  assert (Neg : has_negative vox -> Rejection_ctor name vox = inl negative_message).
  { intros (i & Hi & Hv). unfold Rejection_ctor.
    destruct (scan vox (Loop_0_3 vox) scan_init) as [e|s'] eqn:E.
    - destruct (scan_inl _ _ _ _ E) as (-> & _). reflexivity.
    - destruct (scan_inr _ _ _ _ E) as (Hall & _).
      exfalso. apply In_raster_axis0_fastest in Hi. specialize (Hall i Hi). lra. }
  assert (Pos : ~ has_negative vox -> has_positive vox ->
                exists self, Rejection_ctor name vox = inr self).
  { intros Hn (i & Hi & Hv). unfold Rejection_ctor.
    destruct (scan_succeeds vox (Loop_0_3 vox) scan_init
                (nonnegative_when_no_negative vox Hn)) as (s' & E).
    rewrite E. destruct (scan_max vox s' E) as (Hle & _).
    destruct (Qeq_bool (sc_max s') 0) eqn:Z.
    - exfalso. apply Qeq_bool_iff in Z. destruct (Hle i Hi) as (_ & Hm). lra.
    - eexists. reflexivity. }
  assert (Empty : forall s', scan vox (Loop_0_3 vox) scan_init = inr s' ->
                  ~ has_positive vox -> Qeq_bool (sc_max s') 0 = true).
  { intros s' E Hp. destruct (scan_max vox s' E) as (Hle & [Z|(i & Hi & N & Z)]).
    - rewrite Z. reflexivity.
    - exfalso. apply Hp. exists i. split; [exact Hi|].
      destruct (Hle i Hi) as (H0 & _). apply nonzero_true in N.
      destruct (Qlt_le_dec 0 (value vox i)) as [H|H]; [exact H|].
      exfalso. apply N. lra. }
  split; [|split; [exact Neg|split; [|exact Pos]]].
  - split.
    + intros (e & H). unfold Rejection_ctor in H.
      destruct (scan vox (Loop_0_3 vox) scan_init) as [e'|s'] eqn:E.
      * left. destruct (scan_inl _ _ _ _ E) as (_ & i & Hi & Hv).
        exists i. split; [apply In_raster_axis0_fastest; exact Hi|exact Hv].
      * right. intros (i & Hi & Hv).
        destruct (Qeq_bool (sc_max s') 0) eqn:Z; [|discriminate].
        apply Qeq_bool_iff in Z. destruct (scan_max vox s' E) as (Hle & _).
        destruct (Hle i Hi) as (_ & Hm). lra.
    + intros [Hn|Hp].
      * exists negative_message. apply Neg. exact Hn.
      * unfold Rejection_ctor.
        destruct (scan vox (Loop_0_3 vox) scan_init) as [e'|s'] eqn:E.
        -- exists e'. reflexivity.
        -- rewrite (Empty s' eq_refl Hp). eexists. reflexivity.
  - intros Hn Hp. unfold Rejection_ctor.
    destruct (scan_succeeds vox (Loop_0_3 vox) scan_init
                (nonnegative_when_no_negative vox Hn)) as (s' & E).
    rewrite E. rewrite (Empty s' E Hp). reflexivity.
Qed.

Lemma example_density_values (i : Index) :
  value example_density i = 1%Q \/ value example_density i = 0%Q.
Proof. simpl. destruct (index_eqb i (mkIndex 1 0 0)); [left|right]; reflexivity. Qed.

Lemma example_density_no_negative : ~ has_negative example_density.
Proof.
  intros (i & _ & H).
  destruct (example_density_values i) as [E|E]; rewrite E in H; discriminate H.
Qed.

Lemma example_density_positive : has_positive example_density.
Proof.
  exists (mkIndex 1 0 0). split; [unfold in_grid; simpl; lia|reflexivity].
Qed.

Lemma Rejection_ctor_fails_iff_witness :
  ~ has_negative example_density /\ has_positive example_density /\
  exists self, Rejection_ctor "density.mif" example_density = inr self.
Proof.
  split; [exact example_density_no_negative|].
  split; [exact example_density_positive|].
  exact (proj2 (proj2 (proj2 (Rejection_ctor_fails_iff "density.mif" example_density)))
           example_density_no_negative example_density_positive).
Defined.

Section BoundingBox.
Variable key : Index -> Z.
Variable l : list Index.
Hypothesis inhabited : exists i, In i l.
Hypothesis key_range : forall i, In i l -> 0 <= key i < SIZE_MAX.

Lemma bottom_attained :
  let r := fold_left (fun b i => if key i <? b then key i else b) l SIZE_MAX in
  (forall i, In i l -> r <= key i) /\ exists i, In i l /\ key i = r.
Proof.
  destruct (running_min key l SIZE_MAX) as (_ & Hle & Hat). simpl.
  split; [exact Hle|].
  destruct Hat as [E|(i & Hi & E)]; [|exists i; auto].
  destruct inhabited as (i & Hi).
  specialize (Hle i Hi). specialize (key_range i Hi). lia.
Qed.

Lemma top_attained :
  let r := fold_left (fun t i => if key i >? t then key i else t) l 0 in
  (forall i, In i l -> key i <= r) /\ exists i, In i l /\ key i = r.
Proof.
  destruct (running_max key l 0) as (_ & Hle & Hat). simpl.
  split; [exact Hle|].
  destruct Hat as [E|(i & Hi & E)]; [|exists i; auto].
  destruct inhabited as (i & Hi). exists i. split; [exact Hi|].
  specialize (Hle i Hi). specialize (key_range i Hi). lia.
Qed.
End BoundingBox.

Lemma pad_bottom_padded (b : Z) :
  0 <= b -> pad_bottom b = (if 0 <? b then b - 1 else b).
Proof.
  intro H. unfold pad_bottom.
  destruct (Z.eqb_spec b 0); destruct (Z.ltb_spec 0 b); lia.
Qed.

(** C6, as amended. After a successful construction, with [lo] and [hi]
    the corners of the bounding box of the non-zero voxels: the working
    volume spans, on each axis, from [lo] lowered by one where it is
    greater than zero up to [hi], and holds the values of the input
    there; [max] is the largest value of the input; and [volume] is the
    running sum of the positive values, accumulated in single precision
    in the order of the scan, times the number of voxels of the working
    volume, the product rounded as well. It is the exact sum times that
    number whenever no partial sum, nor the number of voxels, nor the
    product needs rounding. *)
Theorem Rejection_ctor_rounded_volume (name : string) (vox : Image Q) (self : Rejection) :
  addressable vox ->
  Rejection_ctor name vox = inr self ->
  exists lo hi,
    bounding_box vox lo hi /\
    size0 (image self) = ix0 hi - ix0 (padded lo) + 1 /\
    size1 (image self) = ix1 hi - ix1 (padded lo) + 1 /\
    size2 (image self) = ix2 hi - ix2 (padded lo) + 1 /\
    (forall i, value (image self) i =
               value vox (mkIndex (ix0 (padded lo) + ix0 i) (ix1 (padded lo) + ix1 i)
                                  (ix2 (padded lo) + ix2 i))) /\
    (forall i, in_grid vox i -> (value vox i <= max self)%Q) /\
    (exists i, in_grid vox i /\ value vox i = max self) /\
    volume self =
      fmul (rounded_mass vox)
        (float_of_int (size0 (image self) * size1 (image self) * size2 (image self))) /\
    (Forall representable (partial_sums vox) ->
     representable
       (inject_Z (size0 (image self) * size1 (image self) * size2 (image self))) ->
     representable
       (positive_mass vox *
        inject_Z (size0 (image self) * size1 (image self) * size2 (image self))) ->
     (volume self ==
      positive_mass vox *
      inject_Z (size0 (image self) * size1 (image self) * size2 (image self)))%Q).
Proof.
  intros (A0 & A1 & A2) H. unfold Rejection_ctor in H.
  destruct (scan vox (Loop_0_3 vox) scan_init) as [e|s'] eqn:E; [discriminate|].
  destruct (Qeq_bool (sc_max s') 0) eqn:Z; [discriminate|].
  destruct (scan_max vox s' E) as (Hle & Hat).
  destruct Hat as [E0|(w & Hw & Nw & Ew)]; [rewrite E0 in Z; discriminate|].
  destruct (scan_inr _ _ _ _ E) as (Hall & Hs). rewrite scan_fields in Hs.
  unfold scan_init in Hs.
  cbn [sc_max sc_volume bottom0 bottom1 bottom2 top0 top1 top2] in Hs.
  set (nz := filter (nonzero vox) (Loop_0_3 vox)) in *.
  assert (Inh : exists i, In i nz) by (exists w; apply In_nonzero_Loop; tauto).
  assert (R0 : forall i, In i nz -> 0 <= ix0 i < SIZE_MAX).
  { intros i Hi. apply In_nonzero_Loop in Hi. destruct Hi as ((? & ? & ?) & _). lia. }
  assert (R1 : forall i, In i nz -> 0 <= ix1 i < SIZE_MAX).
  { intros i Hi. apply In_nonzero_Loop in Hi. destruct Hi as ((? & ? & ?) & _). lia. }
  assert (R2 : forall i, In i nz -> 0 <= ix2 i < SIZE_MAX).
  { intros i Hi. apply In_nonzero_Loop in Hi. destruct Hi as ((? & ? & ?) & _). lia. }
  destruct (bottom_attained ix0 nz Inh R0) as (B0 & b0 & Hb0 & Eb0).
  destruct (bottom_attained ix1 nz Inh R1) as (B1 & b1 & Hb1 & Eb1).
  destruct (bottom_attained ix2 nz Inh R2) as (B2 & b2 & Hb2 & Eb2).
  destruct (top_attained ix0 nz Inh R0) as (T0 & t0 & Ht0 & Et0).
  destruct (top_attained ix1 nz Inh R1) as (T1 & t1 & Ht1 & Et1).
  destruct (top_attained ix2 nz Inh R2) as (T2 & t2 & Ht2 & Et2).
  exists (mkIndex (bottom0 s') (bottom1 s') (bottom2 s')),
         (mkIndex (top0 s') (top1 s') (top2 s')).
  set (lo := mkIndex (bottom0 s') (bottom1 s') (bottom2 s')).
  assert (P0 : pad_bottom (bottom0 s') = ix0 (padded lo)).
  { simpl. apply pad_bottom_padded. rewrite Hs. simpl. rewrite <- Eb0. apply R0, Hb0. }
  assert (P1 : pad_bottom (bottom1 s') = ix1 (padded lo)).
  { simpl. apply pad_bottom_padded. rewrite Hs. simpl. rewrite <- Eb1. apply R1, Hb1. }
  assert (P2 : pad_bottom (bottom2 s') = ix2 (padded lo)).
  { simpl. apply pad_bottom_padded. rewrite Hs. simpl. rewrite <- Eb2. apply R2, Hb2. }
  subst lo.
  assert (Vol : sc_volume s' = rounded_mass vox).
  { rewrite Hs. cbn [sc_volume]. unfold nz, rounded_mass.
    apply rounded_sum_of_nonzero. exact Hall. }
  inversion H; subst self; clear H.
  cbn [image max volume Subset size0 size1 size2 value ix0 ix1 ix2].
  rewrite <- P0, <- P1, <- P2.
  split; [|split; [reflexivity|split; [reflexivity|split; [reflexivity|split; [reflexivity|]]]]].
  - unfold bounding_box. cbn [ix0 ix1 ix2]. rewrite Hs.
    cbn [bottom0 bottom1 bottom2 top0 top1 top2].
    split.
    { intros i Hi Ni. assert (Hin : In i nz) by (apply In_nonzero_Loop; tauto).
      specialize (B0 i Hin). specialize (B1 i Hin). specialize (B2 i Hin).
      specialize (T0 i Hin). specialize (T1 i Hin). specialize (T2 i Hin).
      cbv zeta in *. lia. }
    repeat split.
    + exists b0. apply In_nonzero_Loop in Hb0. tauto.
    + exists b1. apply In_nonzero_Loop in Hb1. tauto.
    + exists b2. apply In_nonzero_Loop in Hb2. tauto.
    + exists t0. apply In_nonzero_Loop in Ht0. tauto.
    + exists t1. apply In_nonzero_Loop in Ht1. tauto.
    + exists t2. apply In_nonzero_Loop in Ht2. tauto.
  - split; [intros i Hi; apply Hle; exact Hi|].
    split; [exists w; split; [exact Hw|symmetry; exact Ew]|].
    rewrite Vol. split; [reflexivity|].
    intros Hsums Hcount Hprod.
    set (count := (top0 s' - pad_bottom (bottom0 s') + 1) *
                  (top1 s' - pad_bottom (bottom1 s') + 1) *
                  (top2 s' - pad_bottom (bottom2 s') + 1)) in *.
    assert (M : (rounded_mass vox == positive_mass vox)%Q).
    { unfold rounded_mass, positive_mass.
      rewrite (rounded_sum_exact (value vox) (Loop_0_3 vox) 0 0); [ring|reflexivity|].
      apply (Forall_impl _ (fun x (R : representable x) => proj1 R)). exact Hsums. }
    unfold fmul, float_of_int.
    rewrite (proj1 Hcount), M. exact (proj1 Hprod).
Qed.

Lemma example_density_addressable : addressable example_density.
Proof. unfold addressable, SIZE_MAX; simpl. lia. Qed.

Lemma Rejection_ctor_rounded_volume_witness :
  addressable example_density /\
  Rejection_ctor "density.mif" example_density = inr example_rejection /\
  exists lo hi,
    bounding_box example_density lo hi /\
    size0 (image example_rejection) = ix0 hi - ix0 (padded lo) + 1 /\
    size1 (image example_rejection) = ix1 hi - ix1 (padded lo) + 1 /\
    size2 (image example_rejection) = ix2 hi - ix2 (padded lo) + 1 /\
    (forall i, value (image example_rejection) i =
               value example_density
                 (mkIndex (ix0 (padded lo) + ix0 i) (ix1 (padded lo) + ix1 i)
                          (ix2 (padded lo) + ix2 i))) /\
    (forall i, in_grid example_density i ->
               (value example_density i <= max example_rejection)%Q) /\
    (exists i, in_grid example_density i /\
               value example_density i = max example_rejection) /\
    volume example_rejection =
      fmul (rounded_mass example_density)
        (float_of_int (size0 (image example_rejection) * size1 (image example_rejection) *
                       size2 (image example_rejection))) /\
    (Forall representable (partial_sums example_density) ->
     representable
       (inject_Z (size0 (image example_rejection) * size1 (image example_rejection) *
                  size2 (image example_rejection))) ->
     representable
       (positive_mass example_density *
        inject_Z (size0 (image example_rejection) * size1 (image example_rejection) *
                  size2 (image example_rejection))) ->
     (volume example_rejection ==
      positive_mass example_density *
      inject_Z (size0 (image example_rejection) * size1 (image example_rejection) *
                size2 (image example_rejection)))%Q).
Proof.
  split; [exact example_density_addressable|].
  split; [exact example_rejection_constructed|].
  exact (Rejection_ctor_rounded_volume "density.mif" example_density example_rejection
           example_density_addressable example_rejection_constructed).
Defined.

(** The statement of C6 fails in single precision: for the values of
    [0.1f] and [0.2f] the running sum is rounded, and [volume] is
    [5033165/8388608] while the sum of the positive values times the
    number of voxels is [40265319/67108864]. *)
Lemma Rejection_volume_rounded :
  addressable tenths_density /\
  Rejection_ctor "density.mif" tenths_density = inr tenths_rejection /\
  volume tenths_rejection = 5033165 # 8388608 /\
  (positive_mass tenths_density *
   inject_Z (size0 (image tenths_rejection) * size1 (image tenths_rejection) *
             size2 (image tenths_rejection)) == 40265319 # 67108864)%Q /\
  ~ (volume tenths_rejection ==
     positive_mass tenths_density *
     inject_Z (size0 (image tenths_rejection) * size1 (image tenths_rejection) *
               size2 (image tenths_rejection)))%Q.
Proof.
  split; [unfold addressable, SIZE_MAX; simpl; lia|].
  split; [vm_compute; reflexivity|].
  split; [reflexivity|].
  split; [vm_compute; reflexivity|].
  vm_compute. discriminate.
Qed.

(** ** Positions of the traversal *)

Lemma decode_compose (s1 s2 i0 i1 i2 : Z) :
  0 <= i1 < s1 -> 0 <= i2 < s2 ->
  decode s1 s2 (i0 * (s1 * s2) + (i1 * s2 + i2)) = mkIndex i0 i1 i2.
Proof.
  intros H1 H2. unfold decode.
  assert (E2 : (i0 * (s1 * s2) + (i1 * s2 + i2)) mod s2 = i2).
  { symmetry. apply (Z.mod_unique _ _ (i0 * s1 + i1)); [left; lia|ring]. }
  assert (Eq : (i0 * (s1 * s2) + (i1 * s2 + i2)) / s2 = i0 * s1 + i1).
  { symmetry. apply (Z.div_unique _ _ _ i2); [left; lia|ring]. }
  assert (E1 : (i0 * s1 + i1) mod s1 = i1).
  { symmetry. apply (Z.mod_unique _ _ i0); [left; lia|ring]. }
  assert (E0 : (i0 * (s1 * s2) + (i1 * s2 + i2)) / (s1 * s2) = i0).
  { symmetry. apply (Z.div_unique _ _ _ (i1 * s2 + i2)); [left; nia|ring]. }
  rewrite E2, Eq, E1, E0. reflexivity.
Qed.

Lemma decode_parts (s1 s2 n : Z) :
  0 < s1 -> 0 < s2 ->
  let d := decode s1 s2 n in
  n = ix0 d * (s1 * s2) + (ix1 d * s2 + ix2 d) /\
  0 <= ix1 d < s1 /\ 0 <= ix2 d < s2.
Proof.
  intros H1 H2. unfold decode; simpl.
  pose proof (Z.mod_pos_bound n s2 H2).
  pose proof (Z.mod_pos_bound (n / s2) s1 H1).
  pose proof (Z.div_mod n s2 ltac:(lia)).
  pose proof (Z.div_mod (n / s2) s1 ltac:(lia)).
  rewrite <- (Z.mul_comm s2 s1).
  rewrite <- Z.div_div by lia.
  split; [nia|]. split; assumption.
Qed.

(** The loop body moves from each position to the next. *)
Lemma decode_succ (s1 s2 n : Z) :
  0 < s1 -> 0 < s2 ->
  decode s1 s2 (n + 1) =
  let d := decode s1 s2 n in
  if ix2 d + 1 =? s2 then
    if ix1 d + 1 =? s1 then mkIndex (ix0 d + 1) 0 0
    else mkIndex (ix0 d) (ix1 d + 1) 0
  else mkIndex (ix0 d) (ix1 d) (ix2 d + 1).
Proof.
  intros H1 H2.
  destruct (decode_parts s1 s2 n H1 H2) as (E & B1 & B2).
  set (d := decode s1 s2 n) in *. cbv zeta.
  destruct (Z.eqb_spec (ix2 d + 1) s2) as [E2|N2].
  - destruct (Z.eqb_spec (ix1 d + 1) s1) as [E1|N1].
    + replace (n + 1) with ((ix0 d + 1) * (s1 * s2) + (0 * s2 + 0)) by nia.
      apply decode_compose; lia.
    + replace (n + 1) with (ix0 d * (s1 * s2) + ((ix1 d + 1) * s2 + 0)) by nia.
      apply decode_compose; lia.
  - replace (n + 1) with (ix0 d * (s1 * s2) + (ix1 d * s2 + (ix2 d + 1))) by nia.
    apply decode_compose; lia.
Qed.

Section Positions.
Variable mask : Image bool.
Hypothesis extent : positive_extent mask.

Lemma advance_index_start : advance_index mask (mkIndex 0 0 (-1)) = voxel_at mask 0.
Proof.
  destruct extent as (H0 & H1 & H2).
  unfold advance_index. cbn [ix0 ix1 ix2]. change (-1 + 1) with 0.
  destruct (Z.eqb_spec 0 (size2 mask)); [lia|].
  symmetry. apply (decode_compose (size1 mask) (size2 mask) 0 0 0); lia.
Qed.

Lemma advance_index_voxel_at (n : nat) :
  advance_index mask (voxel_at mask n) = voxel_at mask (S n).
Proof.
  destruct extent as (H0 & H1 & H2).
  unfold voxel_at. rewrite Nat2Z.inj_succ. unfold Z.succ.
  rewrite decode_succ by assumption. reflexivity.
Qed.

Lemma voxel_at_in_grid (n : nat) :
  (n < voxel_count mask)%nat -> in_grid mask (voxel_at mask n).
Proof.
  destruct extent as (H0 & H1 & H2). intro Hn. unfold voxel_count in Hn.
  destruct (decode_parts (size1 mask) (size2 mask) (Z.of_nat n) H1 H2) as (E & B1 & B2).
  fold (voxel_at mask n) in *. unfold in_grid.
  split; [|split; assumption].
  assert (Hz : Z.of_nat n < size0 mask * (size1 mask * size2 mask)) by lia.
  set (P := size1 mask * size2 mask) in *.
  set (r := ix1 (voxel_at mask n) * size2 mask + ix2 (voxel_at mask n)) in *.
  assert (HP : 0 < P) by (unfold P; nia).
  assert (Hr : 0 <= r < P) by (unfold r, P; nia).
  assert (Hn0 : 0 <= Z.of_nat n) by lia.
  nia.
Qed.

Lemma voxel_at_end : voxel_at mask (voxel_count mask) = past_the_end mask.
Proof.
  destruct extent as (H0 & H1 & H2). unfold voxel_at, voxel_count, past_the_end.
  rewrite Z2Nat.id by nia.
  replace (size0 mask * size1 mask * size2 mask)
    with (size0 mask * (size1 mask * size2 mask) + (0 * size2 mask + 0)) by ring.
  apply decode_compose; lia.
Qed.

Lemma voxel_at_not_end (n : nat) :
  (n < voxel_count mask)%nat -> (ix0 (voxel_at mask n) =? size0 mask) = false.
Proof.
  intro Hn. destruct (voxel_at_in_grid n Hn) as (H & _).
  apply Z.eqb_neq. lia.
Qed.
End Positions.

(** ** The raster order as a list of positions *)

Lemma seq_from (k len : nat) : seq k len = map (fun j => (k + j)%nat) (seq 0 len).
Proof.
  revert k. induction len as [|len IH]; intro k; [reflexivity|].
  simpl. rewrite Nat.add_0_r. f_equal.
  rewrite (IH (S k)), <- seq_shift, map_map.
  apply map_ext. intro j. lia.
Qed.

Lemma flat_map_ext_In {A B : Type} (f g : A -> list B) (l : list A) :
  (forall a, In a l -> f a = g a) -> flat_map f l = flat_map g l.
Proof.
  induction l as [|a l IH]; intro H; simpl; [reflexivity|].
  rewrite (H a) by (left; reflexivity). f_equal.
  apply IH. intros b Hb. apply H. right; exact Hb.
Qed.

Lemma flat_map_map {A B C : Type} (g : A -> B) (f : B -> list C) (l : list A) :
  flat_map f (map g l) = flat_map (fun a => f (g a)) l.
Proof.
  induction l as [|a l IH]; simpl; [reflexivity|]. rewrite IH. reflexivity.
Qed.

(** Counting up to [a * b] is counting [a] blocks of [b]. *)
Lemma map_seq_blocks {X : Type} (f : nat -> X) (b a : nat) :
  map f (seq 0 (a * b)) =
  flat_map (fun i => map (fun j => f (i * b + j)%nat) (seq 0 b)) (seq 0 a).
Proof.
  induction a as [|a IH]; [reflexivity|].
  replace (S a * b)%nat with (a * b + b)%nat by lia.
  rewrite seq_app, map_app, IH, seq_S, flat_map_app. simpl.
  rewrite app_nil_r. f_equal.
  rewrite (seq_from (a * b) b), map_map. reflexivity.
Qed.

(** Three nested loops over ranges enumerate the positions in order. *)
Lemma nested_ranges {X : Type} (mk : Z -> Z -> Z -> X) (s0 s1 s2 : Z) :
  0 < s0 -> 0 < s1 -> 0 < s2 ->
  flat_map (fun i0 =>
    flat_map (fun i1 => map (fun i2 => mk i0 i1 i2) (range s2)) (range s1)) (range s0)
  = map (fun n => mk (ix0 (decode s1 s2 (Z.of_nat n))) (ix1 (decode s1 s2 (Z.of_nat n)))
                     (ix2 (decode s1 s2 (Z.of_nat n))))
      (seq 0 (Z.to_nat (s0 * s1 * s2))).
Proof.
  intros H0 H1 H2. unfold range.
  set (S0 := Z.to_nat s0). set (S1 := Z.to_nat s1). set (S2 := Z.to_nat s2).
  replace (Z.to_nat (s0 * s1 * s2)) with (S0 * (S1 * S2))%nat
    by (unfold S0, S1, S2; rewrite <- Z.mul_assoc, !Z2Nat.inj_mul by nia; reflexivity).
  rewrite map_seq_blocks, flat_map_map.
  apply flat_map_ext_In. intros n0 Hn0.
  rewrite map_seq_blocks, flat_map_map.
  apply flat_map_ext_In. intros n1 Hn1.
  rewrite map_map. apply map_ext_in. intros n2 Hn2.
  apply in_seq in Hn1, Hn2.
  replace (Z.of_nat (n0 * (S1 * S2) + (n1 * S2 + n2)))
    with (Z.of_nat n0 * (s1 * s2) + (Z.of_nat n1 * s2 + Z.of_nat n2))
    by (unfold S1, S2; nia).
  rewrite decode_compose by (unfold S1, S2 in *; lia).
  reflexivity.
Qed.

Lemma raster_positions {A} (m : Image A) :
  positive_extent m -> raster m = map (voxel_at m) (seq 0 (voxel_count m)).
Proof.
  intros (H0 & H1 & H2). unfold raster, voxel_count.
  rewrite (nested_ranges mkIndex) by assumption.
  apply map_ext. intro n. unfold voxel_at.
  destruct (decode (size1 m) (size2 m) (Z.of_nat n)). reflexivity.
Qed.

Lemma sub_positions_at (os : Z) :
  1 <= os -> sub_positions os = map (sub_at os) (seq 0 (sub_count os)).
Proof.
  intro H. unfold sub_positions, sub_count.
  rewrite (nested_ranges mkVeci) by lia. reflexivity.
Qed.

Lemma voxel_at_injective {A} (m : Image A) (a b : nat) :
  positive_extent m -> voxel_at m a = voxel_at m b -> a = b.
Proof.
  intros (H0 & H1 & H2) E. unfold voxel_at in E.
  destruct (decode_parts (size1 m) (size2 m) (Z.of_nat a) H1 H2) as (Ea & _).
  destruct (decode_parts (size1 m) (size2 m) (Z.of_nat b) H1 H2) as (Eb & _).
  rewrite E in Ea. lia.
Qed.

Lemma raster_NoDup {A} (m : Image A) : positive_extent m -> NoDup (raster m).
Proof.
  intro H. rewrite (raster_positions m H).
  apply NoDup_map_NoDup_ForallPairs; [|apply seq_NoDup].
  intros a b _ _ E. exact (voxel_at_injective m a b H E).
Qed.

Lemma length_repeats (k : nat) (l : list Index) :
  List.length (flat_map (fun v => repeat v k) l) = (k * List.length l)%nat.
Proof.
  induction l as [|v l IH]; simpl; [lia|].
  rewrite length_app, repeat_length, IH. lia.
Qed.

(** ** Sub-voxel positions *)

Lemma sub_at_range (os : Z) (q : nat) :
  1 <= os -> (q < sub_count os)%nat ->
  0 <= px (sub_at os q) < os /\ 0 <= py (sub_at os q) < os /\ 0 <= pz (sub_at os q) < os.
Proof.
  intros H Hq.
  pose proof (voxel_at_in_grid (mkImage os os os (fun _ => true) identity_transform)
                ltac:(unfold positive_extent; simpl; lia) q Hq) as G.
  exact G.
Qed.

Lemma sub_at_zero (os : Z) : 1 <= os -> sub_at os 0 = mkVeci 0 0 0.
Proof.
  intro H. unfold sub_at.
  change (Z.of_nat 0) with (0 * (os * os) + (0 * os + 0)).
  rewrite decode_compose by lia. reflexivity.
Qed.

Lemma sub_at_last (os : Z) :
  1 <= os -> sub_at os (sub_count os - 1) = mkVeci (os - 1) (os - 1) (os - 1).
Proof.
  intro H. unfold sub_at, sub_count.
  replace (Z.of_nat (Z.to_nat (os * os * os) - 1))
    with ((os - 1) * (os * os) + ((os - 1) * os + (os - 1))) by nia.
  rewrite decode_compose by lia. reflexivity.
Qed.

Lemma sub_count_pos (os : Z) : 1 <= os -> (1 <= sub_count os)%nat.
Proof. intro H. unfold sub_count. nia. Qed.

Lemma sub_at_injective (os : Z) (a b : nat) :
  1 <= os -> sub_at os a = sub_at os b -> a = b.
Proof.
  intros H E.
  apply (voxel_at_injective (mkImage os os os (fun _ => true) identity_transform) a b).
  - unfold positive_extent; simpl; lia.
  - unfold sub_at, to_veci in E. unfold voxel_at. cbn [size1 size2].
    destruct (decode os os (Z.of_nat a)), (decode os os (Z.of_nat b)).
    simpl in E. congruence.
Qed.

(** ** Moving the cursor to the next voxel of the mask *)

Section Traversal.
Variable mask : Image bool.
Hypothesis extent : positive_extent mask.


Lemma advance_to (c : Cursor) (v : Index) :
  advance_index mask (index c) = v -> advance mask c = mkCursor v (trail c ++ [v]).
Proof. intro H. unfold advance. rewrite H. reflexivity. Qed.

Lemma do_while_advance (fuel : nat) (c : Cursor) (v : Index) :
  advance_index mask (index c) = v ->
  do_while (S fuel) (advance mask) (advance_again mask) c =
  if negb (ix0 v =? size0 mask) && negb (value mask v)
  then do_while fuel (advance mask) (advance_again mask) (mkCursor v (trail c ++ [v]))
  else Some (mkCursor v (trail c ++ [v])).
Proof. intro H. cbn [do_while]. rewrite (advance_to c v H). reflexivity. Qed.

(** From a cursor whose next position is [a], the traversal loop stops
    at the first position [b] from [a] on that carries a non-zero mask
    value, or past the end if there is none, having moved through
    every position from [a] to [b]. *)
Lemma advance_finds (count : nat) : forall (a : nat) (c : Cursor) (fuel : nat),
  (a + count = voxel_count mask)%nat ->
  advance_index mask (index c) = voxel_at mask a ->
  (count < fuel)%nat ->
  exists b,
    (a <= b <= voxel_count mask)%nat /\
    do_while fuel (advance mask) (advance_again mask) c =
      Some (mkCursor (voxel_at mask b)
              (trail c ++ map (voxel_at mask) (seq a (S b - a)))) /\
    ((b = voxel_count mask /\ masked_from mask a = []) \/
     ((b < voxel_count mask)%nat /\ value mask (voxel_at mask b) = true /\
      masked_from mask a = voxel_at mask b :: masked_from mask (S b))).
Proof.
  induction count as [|count IH]; intros a c fuel Ha Hc Hf.
  - assert (a = voxel_count mask) by lia. subst a.
    destruct fuel as [|fuel]; [lia|]. exists (voxel_count mask). split; [lia|]. split.
    + rewrite (do_while_advance fuel c _ Hc).
      replace (S (voxel_count mask) - voxel_count mask)%nat with 1%nat by lia. cbn [seq map].
      rewrite (voxel_at_end mask extent).
      cbn [past_the_end ix0]. rewrite Z.eqb_refl. reflexivity.
    + left. split; [reflexivity|]. unfold masked_from.
      replace (voxel_count mask - voxel_count mask)%nat with 0%nat by lia. reflexivity.
  - destruct fuel as [|fuel]; [lia|].
    assert (HaN : (a < voxel_count mask)%nat) by lia.
    assert (Hseq : masked_from mask a =
                   if value mask (voxel_at mask a)
                   then voxel_at mask a :: masked_from mask (S a) else masked_from mask (S a)).
    { unfold masked_from.
      replace (voxel_count mask - a)%nat with (S (voxel_count mask - S a)) by lia.
      cbn [seq map filter]. reflexivity. }
    rewrite (do_while_advance fuel c _ Hc).
    rewrite (voxel_at_not_end mask extent a HaN). cbn [negb andb].
    destruct (value mask (voxel_at mask a)) eqn:V; cbn [negb].
    + exists a. split; [lia|]. split.
      * replace (S a - a)%nat with 1%nat by lia. reflexivity.
      * right. split; [exact HaN|]. split; [exact V|exact Hseq].
    + destruct (IH (S a) (mkCursor (voxel_at mask a) (trail c ++ [voxel_at mask a])) fuel)
        as (b & Hb & Hdo & Hcase).
      * lia.
      * cbn [index]. apply (advance_index_voxel_at mask extent).
      * lia.
      * exists b. split; [lia|]. split.
        -- rewrite Hdo. cbn [trail]. rewrite <- app_assoc.
           replace (S b - a)%nat with (S (S b - S a)) by lia.
           reflexivity.
        -- rewrite Hseq. exact Hcase.
Qed.

Lemma masked_from_raster : masked_from mask 0 = masked_voxels mask.
Proof.
  unfold masked_from, masked_voxels. rewrite (raster_positions mask extent).
  rewrite Nat.sub_0_r. reflexivity.
Qed.

(** *** Random_per_voxel *)

Lemma Random_per_voxel_emit_eq (self : Random_per_voxel) (g : Rng) :
  Random_per_voxel_emit self g =
  (true,
   transform_apply (voxel2scanner (rpv_mask self))
     (fst (jitter (index (rpv_cursor self)) g)),
   self, snd (jitter (index (rpv_cursor self)) g)).
Proof.
  unfold Random_per_voxel_emit. destruct (jitter (index (rpv_cursor self)) g).
  reflexivity.
Qed.

Lemma emitted_seed_jittered (v : Index) (g : Rng) :
  unit_tape g ->
  seed_jittered (voxel2scanner mask)
    (v, transform_apply (voxel2scanner mask) (fst (jitter v g))).
Proof.
  intro U. exists g. split; [exact U|reflexivity].
Qed.

Lemma drain_stop {Self Obs : Type} (get_seed : Self -> Vector3 -> Rng -> option (Result Self))
    (observe : Self -> Obs) (calls : nat) (self self' : Self) (p p' : Vector3) (g g' : Rng) :
  get_seed self p g = Some (false, p', self', g') ->
  drain get_seed observe (S calls) self p g = Some ([], self', g').
Proof. intro H. cbn [drain]. rewrite H. reflexivity. Qed.

Lemma drain_step {Self Obs : Type} (get_seed : Self -> Vector3 -> Rng -> option (Result Self))
    (observe : Self -> Obs) (calls : nat) (self self' self'' : Self) (p p' : Vector3)
    (g g' g'' : Rng) (l : list (Obs * Vector3)) :
  get_seed self p g = Some (true, p', self', g') ->
  drain get_seed observe calls self' p' g' = Some (l, self'', g'') ->
  drain get_seed observe (S calls) self p g = Some ((observe self', p') :: l, self'', g'').
Proof. intros H H'. cbn [drain]. rewrite H, H'. reflexivity. Qed.

Lemma Random_per_voxel_get_seed_stay (fuel : nat) (c : Cursor) (k i : Z)
    (p : Vector3) (g : Rng) :
  (ix2 (index c) <? 0) = false -> (i + 1 =? k) = false ->
  Random_per_voxel_get_seed fuel (mkRandom_per_voxel mask c k i false) p g =
  Some (Random_per_voxel_emit (mkRandom_per_voxel mask c k (i + 1) false) g).
Proof.
  intros H1 H2. unfold Random_per_voxel_get_seed.
  cbn [rpv_expired rpv_cursor inc num rpv_mask]. rewrite H1, H2. reflexivity.
Qed.

Lemma Random_per_voxel_get_seed_move (fuel : nat) (c : Cursor) (k i : Z)
    (p : Vector3) (g : Rng) :
  ix2 (index c) < 0 \/ i + 1 = k ->
  Random_per_voxel_get_seed fuel (mkRandom_per_voxel mask c k i false) p g =
  match do_while fuel (advance mask) (advance_again mask) c with
  | None => None
  | Some c' =>
      if ix0 (index c') =? size0 mask then
        Some (false, p, mkRandom_per_voxel mask c' k 0 true, g)
      else Some (Random_per_voxel_emit (mkRandom_per_voxel mask c' k 0 false) g)
  end.
Proof.
  intro H. unfold Random_per_voxel_get_seed.
  cbn [rpv_expired rpv_cursor inc num rpv_mask].
  assert (Hgo : ((ix2 (index c) <? 0)
                 || ((if ix2 (index c) <? 0 then i else i + 1) =? k)) = true).
  { destruct (Z.ltb_spec (ix2 (index c)) 0); [reflexivity|].
    cbn [orb]. apply Z.eqb_eq. lia. }
  rewrite Hgo. reflexivity.
Qed.

Variable k : Z.
Hypothesis quota : 1 <= k.
Variable fuel : nat.
Hypothesis enough_fuel : (voxel_count mask < fuel)%nat.

(** Within a voxel: the remaining seeds of the voxel are produced, and
    then whatever the object produces once the counter reaches the
    quota. *)
Lemma rpv_within_voxel (b : nat) (c : Cursor) (after : list Index)
    (final : list Index) :
  (b < voxel_count mask)%nat ->
  index c = voxel_at mask b ->
  (forall i, i + 1 = k ->
     rpv_drains fuel (mkRandom_per_voxel mask c k i false) after final) ->
  forall (j : nat) (i : Z),
    0 <= i < k -> Z.to_nat (k - 1 - i) = j ->
    rpv_drains fuel (mkRandom_per_voxel mask c k i false)
      (repeat (voxel_at mask b) j ++ after) final.
Proof.
  intros Hb Hc Hafter. induction j as [|j IH]; intros i Hi Hj.
  - apply Hafter. lia.
  - intros calls p g Hcalls U.
    destruct calls as [|calls]; [simpl in Hcalls; lia|].
    assert (Hfirst : (ix2 (index c) <? 0) = false).
    { rewrite Hc. destruct (voxel_at_in_grid mask extent b Hb) as (_ & _ & H2).
      apply Z.ltb_ge. lia. }
    assert (Hinc : (i + 1 =? k) = false) by (apply Z.eqb_neq; lia).
    pose proof (Random_per_voxel_get_seed_stay fuel c k i p g Hfirst Hinc) as Hcall.
    rewrite Random_per_voxel_emit_eq in Hcall. cbn [rpv_cursor rpv_mask] in Hcall.
    destruct (IH (i + 1) ltac:(lia) ltac:(lia) calls
                (transform_apply (voxel2scanner mask) (fst (jitter (index c) g)))
                (snd (jitter (index c) g)))
      as (seeds & self' & g' & Hd & Hv & He & Ht & Hw).
    + simpl in Hcalls. lia.
    + apply (unit_tape_ext g); [apply jitter_tape|exact U].
    + rewrite (drain_step _ _ _ _ _ _ _ _ _ _ _ _ Hcall Hd).
      eexists. eexists. eexists.
      split; [reflexivity|]. split.
      * cbn [map fst]. unfold rpv_voxel. cbn [rpv_cursor]. rewrite Hv, Hc. reflexivity.
      * split; [exact He|]. split; [exact Ht|].
        constructor; [|exact Hw].
        unfold rpv_voxel. cbn [rpv_cursor rpv_mask]. apply emitted_seed_jittered. exact U.
Qed.

(** About to move: the object produces the quota of seeds for each
    remaining voxel of the mask and expires. *)
Lemma rpv_from_position (n : nat) : forall (a : nat) (c : Cursor) (i : Z),
  (voxel_count mask - a <= n)%nat -> (a <= voxel_count mask)%nat ->
  advance_index mask (index c) = voxel_at mask a ->
  (ix2 (index c) < 0 \/ i + 1 = k) ->
  rpv_drains fuel (mkRandom_per_voxel mask c k i false)
    (flat_map (fun v => repeat v (Z.to_nat k)) (masked_from mask a))
    (trail c ++ map (voxel_at mask) (seq a (S (voxel_count mask) - a))).
Proof.
  induction n as [|n IH]; intros a c i Hn Ha Hc Hmove.
  - assert (a = voxel_count mask) by lia. subst a.
    intros calls p g Hcalls U.
    destruct calls as [|calls]; [lia|].
    destruct (advance_finds 0 (voxel_count mask) c fuel ltac:(lia) Hc ltac:(lia))
      as (b & Hb & Hdo & _).
    assert (b = voxel_count mask) by lia. subst b.
    pose proof (Random_per_voxel_get_seed_move fuel c k i p g Hmove) as Hcall.
    rewrite Hdo in Hcall. cbn [index] in Hcall.
    rewrite (voxel_at_end mask extent) in Hcall.
    cbn [past_the_end ix0] in Hcall. rewrite Z.eqb_refl in Hcall.
    rewrite (drain_stop _ _ _ _ _ _ _ _ _ Hcall).
    eexists. eexists. eexists. split; [reflexivity|].
    split.
    { unfold masked_from. rewrite Nat.sub_diag. reflexivity. }
    split; [reflexivity|]. split; [|constructor].
    reflexivity.
  - intros calls p g Hcalls U.
    destruct (advance_finds (voxel_count mask - a) a c fuel ltac:(lia) Hc ltac:(lia))
      as (b & Hb & Hdo & Hcase).
    pose proof (Random_per_voxel_get_seed_move fuel c k i p g Hmove) as Hcall.
    rewrite Hdo in Hcall. cbn [index] in Hcall.
    destruct calls as [|calls]; [lia|].
    destruct Hcase as [(HbN & Hnil)|(HbN & Hval & Hcons)].
    + subst b. rewrite (voxel_at_end mask extent) in Hcall.
      cbn [past_the_end ix0] in Hcall. rewrite Z.eqb_refl in Hcall.
      rewrite (drain_stop _ _ _ _ _ _ _ _ _ Hcall).
      eexists. eexists. eexists. split; [reflexivity|].
      split; [rewrite Hnil; reflexivity|].
      split; [reflexivity|]. split; [|constructor].
      reflexivity.
    + rewrite (voxel_at_not_end mask extent b HbN) in Hcall.
      rewrite Random_per_voxel_emit_eq in Hcall. cbn [rpv_cursor rpv_mask index] in Hcall.
      set (c1 := mkCursor (voxel_at mask b)
                   (trail c ++ map (voxel_at mask) (seq a (S b - a)))) in *.
      assert (Hrest : rpv_drains fuel (mkRandom_per_voxel mask c1 k 0 false)
                (repeat (voxel_at mask b) (Z.to_nat (k - 1 - 0))
                   ++ flat_map (fun v => repeat v (Z.to_nat k)) (masked_from mask (S b)))
                (trail c1 ++ map (voxel_at mask) (seq (S b) (S (voxel_count mask) - S b)))).
      { apply (rpv_within_voxel b c1); [exact HbN|reflexivity| |lia|reflexivity].
        intros i' Hi'. apply IH; [lia|lia| |right; exact Hi'].
        apply (advance_index_voxel_at mask extent). }
      rewrite Hcons in Hcalls. cbn [flat_map] in Hcalls.
      rewrite length_app, repeat_length in Hcalls.
      destruct (Hrest calls
                  (transform_apply (voxel2scanner mask) (fst (jitter (voxel_at mask b) g)))
                  (snd (jitter (voxel_at mask b) g)))
        as (seeds & self' & g' & Hd & Hv & He & Ht & Hw).
      * rewrite length_app, repeat_length. lia.
      * apply (unit_tape_ext g); [apply jitter_tape|exact U].
      * rewrite (drain_step _ _ _ _ _ _ _ _ _ _ _ _ Hcall Hd).
        eexists. eexists. eexists. split; [reflexivity|].
        split.
        { cbn [map fst]. unfold rpv_voxel. cbn [rpv_cursor]. rewrite Hv, Hcons.
          unfold c1. cbn [flat_map index].
          assert (E : repeat (voxel_at mask b) (Z.to_nat k) =
                      voxel_at mask b :: repeat (voxel_at mask b) (Z.to_nat (k - 1 - 0))).
          { replace (Z.to_nat k) with (S (Z.to_nat (k - 1 - 0))) by lia. reflexivity. }
          rewrite E. reflexivity. }
        split; [exact He|]. split.
        { rewrite Ht. unfold c1. cbn [trail]. rewrite <- app_assoc, <- map_app.
          replace (S (voxel_count mask) - a)%nat
            with ((S b - a) + (S (voxel_count mask) - S b))%nat by lia.
          rewrite seq_app. replace (a + (S b - a))%nat with (S b) by lia.
          reflexivity. }
        constructor; [|exact Hw].
        unfold rpv_voxel, c1. cbn [rpv_cursor rpv_mask index]. apply emitted_seed_jittered. exact U.
Qed.

(** A run from the constructed object. *)
Lemma rpv_from_start :
  rpv_drains fuel (Random_per_voxel_ctor mask k)
    (flat_map (fun v => repeat v (Z.to_nat k)) (masked_voxels mask))
    (raster mask ++ [past_the_end mask]).
Proof.
  pose proof (rpv_from_position (voxel_count mask) 0 (mkCursor (mkIndex 0 0 (-1)) []) 0
                ltac:(lia) ltac:(lia) (advance_index_start mask extent)
                ltac:(left; cbn; lia)) as H.
  rewrite masked_from_raster in H. cbn [trail app] in H.
  replace (S (voxel_count mask) - 0)%nat with (S (voxel_count mask)) in H by lia.
  rewrite seq_S, map_app in H. cbn [map Nat.add] in H.
  rewrite (voxel_at_end mask extent) in H.
  rewrite <- (raster_positions mask extent) in H.
  exact H.
Qed.

(** *** Grid_per_voxel *)

Variable factor : Z.
Hypothesis factor_pos : 1 <= factor.
Variable off st : Q.


(** Inside a voxel the call moves to the next sub-voxel position. *)
Lemma Grid_per_voxel_get_seed_stay (c : Cursor) (q : nat) (p : Vector3) (g : Rng) :
  (S q < sub_count factor)%nat ->
  Grid_per_voxel_get_seed fuel (Grid_at mask factor off st c (sub_at factor q)) p g =
  Some (Grid_per_voxel_emit (Grid_at mask factor off st c (sub_at factor (S q))) g).
Proof.
  intro Hq.
  assert (Hs : 0 < factor) by lia.
  destruct (decode_parts factor factor (Z.of_nat q) Hs Hs) as (E & B1 & B2).
  pose proof (decode_succ factor factor (Z.of_nat q) Hs Hs) as Hsucc.
  cbv zeta in Hsucc, E, B1, B2.
  assert (Enext : sub_at factor (S q) = to_veci (decode factor factor (Z.of_nat q + 1))).
  { unfold sub_at. rewrite Nat2Z.inj_succ. reflexivity. }
  rewrite Enext, Hsucc.
  unfold Grid_per_voxel_get_seed, Grid_at, Grid_set.
  cbn [gpv_expired gpv_pos gpv_cursor os gpv_mask offset step].
  unfold sub_at, to_veci. cbn [px py pz].
  set (d := decode factor factor (Z.of_nat q)) in *.
  assert (Hq' : Z.of_nat q + 1 < factor * factor * factor) by (unfold sub_count in Hq; lia).
  destruct (Z.eqb_spec (ix2 d + 1) factor) as [E2|N2].
  - replace (ix2 d + 1 >=? factor) with true by (symmetry; apply Z.geb_le; lia).
    destruct (Z.eqb_spec (ix1 d + 1) factor) as [E1|N1].
    + replace (ix1 d + 1 >=? factor) with true by (symmetry; apply Z.geb_le; lia).
      replace (ix0 d + 1 >=? factor) with false; [reflexivity|].
      symmetry. rewrite Z.geb_leb. apply Z.leb_gt. nia.
    + replace (ix1 d + 1 >=? factor) with false; [reflexivity|].
      symmetry. rewrite Z.geb_leb. apply Z.leb_gt. lia.
  - replace (ix2 d + 1 >=? factor) with false; [reflexivity|].
    symmetry. rewrite Z.geb_leb. apply Z.leb_gt. lia.
Qed.

(** At the last sub-voxel position, and on the first call, the call
    moves the cursor. *)
Lemma Grid_per_voxel_get_seed_move (c : Cursor) (pos : Vector3i) (p : Vector3) (g : Rng) :
  pos = mkVeci factor factor factor \/ pos = sub_at factor (sub_count factor - 1) ->
  Grid_per_voxel_get_seed fuel (Grid_at mask factor off st c pos) p g =
  match do_while fuel (advance mask) (advance_again mask) c with
  | None => None
  | Some c' =>
      if ix0 (index c') =? size0 mask then
        Some (false, p, mkGrid_per_voxel mask c' factor (mkVeci 0 0 0) off st true, g)
      else Some (Grid_per_voxel_emit (Grid_at mask factor off st c' (mkVeci 0 0 0)) g)
  end.
Proof.
  intro H. unfold Grid_per_voxel_get_seed, Grid_at, Grid_set.
  cbn [gpv_expired gpv_pos gpv_cursor os gpv_mask offset step].
  assert (Hx : (px pos + 1 >=? factor) = true /\ (py pos + 1 >=? factor) = true /\
               (pz pos + 1 >=? factor) = true).
  { destruct H as [-> | ->].
    - cbn [px py pz]. repeat split; apply Z.geb_le; lia.
    - rewrite (sub_at_last factor factor_pos). cbn [px py pz].
      repeat split; apply Z.geb_le; lia. }
  destruct Hx as (-> & -> & ->). reflexivity.
Qed.

Lemma gpv_within_voxel (b : nat) (c : Cursor) (after : list (Index * Vector3i))
    (final : list Index) :
  index c = voxel_at mask b ->
  gpv_drains fuel (Grid_at mask factor off st c (sub_at factor (sub_count factor - 1)))
    after final ->
  forall (j q : nat),
    (q < sub_count factor)%nat -> (sub_count factor - 1 - q = j)%nat ->
    gpv_drains fuel (Grid_at mask factor off st c (sub_at factor q))
      (map (fun s => (voxel_at mask b, s)) (map (sub_at factor) (seq (S q) j)) ++ after)
      final.
Proof.
  intros Hc Hafter. induction j as [|j IH]; intros q Hq Hj.
  - replace q with (sub_count factor - 1)%nat by lia. exact Hafter.
  - intros calls p g Hcalls.
    destruct calls as [|calls]; [simpl in Hcalls; lia|].
    pose proof (Grid_per_voxel_get_seed_stay c q p g ltac:(lia)) as Hcall.
    unfold Grid_per_voxel_emit in Hcall.
    match type of Hcall with
    | _ = Some (_, ?p1, _, _) =>
        destruct (IH (S q) ltac:(lia) ltac:(lia) calls p1 g)
          as (seeds & self' & Hd & Hv & He & Ht & Hw)
    end.
    + simpl in Hcalls. simpl. lia.
    + rewrite (drain_step _ _ _ _ _ _ _ _ _ _ _ _ Hcall Hd).
      eexists. eexists. split; [reflexivity|]. split.
      * cbn [map fst seq app]. unfold gpv_slot, Grid_at. cbn [gpv_cursor gpv_pos].
        rewrite Hv, Hc. reflexivity.
      * split; [exact He|]. split; [exact Ht|].
        constructor; [|exact Hw]. reflexivity.
Qed.

Lemma gpv_from_position (n : nat) : forall (a : nat) (c : Cursor) (pos : Vector3i),
  (voxel_count mask - a <= n)%nat -> (a <= voxel_count mask)%nat ->
  advance_index mask (index c) = voxel_at mask a ->
  pos = mkVeci factor factor factor \/ pos = sub_at factor (sub_count factor - 1) ->
  gpv_drains fuel (Grid_at mask factor off st c pos)
    (flat_map (fun v => map (fun s => (v, s)) (map (sub_at factor) (seq 0 (sub_count factor))))
       (masked_from mask a))
    (trail c ++ map (voxel_at mask) (seq a (S (voxel_count mask) - a))).
Proof.
  induction n as [|n IH]; intros a c pos Hn Ha Hc Hmove.
  - assert (a = voxel_count mask) by lia. subst a.
    intros calls p g Hcalls.
    destruct calls as [|calls]; [lia|].
    destruct (advance_finds 0 (voxel_count mask) c fuel ltac:(lia) Hc ltac:(lia))
      as (b & Hb & Hdo & _).
    assert (b = voxel_count mask) by lia. subst b.
    pose proof (Grid_per_voxel_get_seed_move c pos p g Hmove) as Hcall.
    rewrite Hdo in Hcall. cbn [index] in Hcall.
    rewrite (voxel_at_end mask extent) in Hcall.
    cbn [past_the_end ix0] in Hcall. rewrite Z.eqb_refl in Hcall.
    rewrite (drain_stop _ _ _ _ _ _ _ _ _ Hcall).
    eexists. eexists. split; [reflexivity|].
    split.
    { unfold masked_from. rewrite Nat.sub_diag. reflexivity. }
    split; [reflexivity|]. split; [|constructor].
    reflexivity.
  - intros calls p g Hcalls.
    destruct (advance_finds (voxel_count mask - a) a c fuel ltac:(lia) Hc ltac:(lia))
      as (b & Hb & Hdo & Hcase).
    pose proof (Grid_per_voxel_get_seed_move c pos p g Hmove) as Hcall.
    rewrite Hdo in Hcall. cbn [index] in Hcall.
    destruct calls as [|calls]; [lia|].
    destruct Hcase as [(HbN & Hnil)|(HbN & Hval & Hcons)].
    + subst b. rewrite (voxel_at_end mask extent) in Hcall.
      cbn [past_the_end ix0] in Hcall. rewrite Z.eqb_refl in Hcall.
      rewrite (drain_stop _ _ _ _ _ _ _ _ _ Hcall).
      eexists. eexists. split; [reflexivity|].
      split; [rewrite Hnil; reflexivity|].
      split; [reflexivity|]. split; [|constructor].
      reflexivity.
    + rewrite (voxel_at_not_end mask extent b HbN) in Hcall.
      unfold Grid_per_voxel_emit in Hcall.
      set (c1 := mkCursor (voxel_at mask b)
                   (trail c ++ map (voxel_at mask) (seq a (S b - a)))) in *.
      pose proof (sub_count_pos factor factor_pos) as HQ.
      assert (Hrest : gpv_drains fuel (Grid_at mask factor off st c1 (sub_at factor 0))
                (map (fun s => (voxel_at mask b, s))
                     (map (sub_at factor) (seq 1 (sub_count factor - 1 - 0)))
                   ++ flat_map (fun v => map (fun s => (v, s))
                                           (map (sub_at factor) (seq 0 (sub_count factor))))
                        (masked_from mask (S b)))
                (trail c1 ++ map (voxel_at mask) (seq (S b) (S (voxel_count mask) - S b)))).
      { apply (gpv_within_voxel b c1); [reflexivity| |lia|reflexivity].
        apply IH; [lia|lia| |right; reflexivity].
        apply (advance_index_voxel_at mask extent). }
      rewrite <- (sub_at_zero factor factor_pos) in Hcall.
      rewrite Hcons in Hcalls. cbn [flat_map] in Hcalls.
      rewrite length_app, !length_map, length_seq in Hcalls.
      match type of Hcall with
      | _ = Some (_, ?p1, _, _) =>
          destruct (Hrest calls p1 g) as (seeds & self' & Hd & Hv & He & Ht & Hw)
      end.
      * rewrite length_app, !length_map, length_seq. lia.
      * rewrite (drain_step _ _ _ _ _ _ _ _ _ _ _ _ Hcall Hd).
        eexists. eexists. split; [reflexivity|].
        split.
        { cbn [map fst]. unfold gpv_slot, Grid_at. cbn [gpv_cursor gpv_pos].
          rewrite Hv, Hcons. unfold c1. cbn [flat_map index].
          replace (seq 0 (sub_count factor)) with (0%nat :: seq 1 (sub_count factor - 1 - 0)) at 1
            by (replace (sub_count factor) with (S (sub_count factor - 1 - 0)) at 2 by lia;
                reflexivity).
          reflexivity. }
        split; [exact He|]. split.
        { rewrite Ht. unfold c1. cbn [trail]. rewrite <- app_assoc, <- map_app.
          replace (S (voxel_count mask) - a)%nat
            with ((S b - a) + (S (voxel_count mask) - S b))%nat by lia.
          rewrite seq_app. replace (a + (S b - a))%nat with (S b) by lia.
          reflexivity. }
        constructor; [|exact Hw]. reflexivity.
Qed.

Lemma gpv_from_start :
  gpv_drains fuel
    (Grid_at mask factor off st (mkCursor (mkIndex 0 0 (-1)) []) (mkVeci factor factor factor))
    (flat_map (slots_of factor) (masked_voxels mask))
    (raster mask ++ [past_the_end mask]).
Proof.
  pose proof (gpv_from_position (voxel_count mask) 0 (mkCursor (mkIndex 0 0 (-1)) [])
                (mkVeci factor factor factor)
                ltac:(lia) ltac:(lia) (advance_index_start mask extent)
                ltac:(left; reflexivity)) as H.
  rewrite masked_from_raster in H. cbn [trail app] in H.
  replace (S (voxel_count mask) - 0)%nat with (S (voxel_count mask)) in H by lia.
  rewrite seq_S, map_app in H. cbn [map Nat.add] in H.
  rewrite (voxel_at_end mask extent) in H.
  rewrite <- (raster_positions mask extent) in H.
  rewrite <- (sub_positions_at factor factor_pos) in H.
  exact H.
Qed.
End Traversal.

(** ** Counting seeds per voxel *)

Lemma occurrences_app (v : Index) (l l' : list Index) :
  occurrences v (l ++ l') = (occurrences v l + occurrences v l')%nat.
Proof. unfold occurrences. rewrite filter_app, length_app. reflexivity. Qed.

Lemma occurrences_repeat_same (v : Index) (k : nat) : occurrences v (repeat v k) = k.
Proof.
  unfold occurrences. induction k as [|k IH]; [reflexivity|].
  simpl. rewrite (proj2 (index_eqb_eq v v) eq_refl). simpl. rewrite IH. reflexivity.
Qed.

Lemma occurrences_repeat_other (v w : Index) (k : nat) :
  v <> w -> occurrences v (repeat w k) = 0%nat.
Proof.
  intro H. unfold occurrences. induction k as [|k IH]; [reflexivity|].
  simpl. destruct (index_eqb v w) eqn:E; [apply index_eqb_eq in E; contradiction|].
  exact IH.
Qed.

Lemma occurrences_absent (v : Index) (k : nat) (l : list Index) :
  ~ In v l -> occurrences v (flat_map (fun w => repeat w k) l) = 0%nat.
Proof.
  induction l as [|w l IH]; intro H; [reflexivity|].
  simpl. rewrite occurrences_app, occurrences_repeat_other, IH; [reflexivity| |].
  - intro Hin. apply H. right; exact Hin.
  - intro E. apply H. left; symmetry; exact E.
Qed.

Lemma occurrences_present (v : Index) (k : nat) (l : list Index) :
  NoDup l -> In v l -> occurrences v (flat_map (fun w => repeat w k) l) = k.
Proof.
  induction l as [|w l IH]; intros Hnd Hin; [contradiction|].
  inversion Hnd as [|? ? Hnotin Hnd']; subst.
  simpl. rewrite occurrences_app. destruct Hin as [->|Hin].
  - rewrite occurrences_repeat_same, occurrences_absent by exact Hnotin. lia.
  - rewrite occurrences_repeat_other, IH by (auto; intro E; subst; contradiction).
    reflexivity.
Qed.

Lemma In_masked_voxels (mask : Image bool) (v : Index) :
  In v (masked_voxels mask) <-> in_grid mask v /\ value mask v = true.
Proof. unfold masked_voxels. rewrite filter_In, In_raster. tauto. Qed.

Lemma masked_voxels_NoDup (mask : Image bool) :
  positive_extent mask -> NoDup (masked_voxels mask).
Proof. intro H. apply NoDup_filter, raster_NoDup. exact H. Qed.

(** ** Random_per_voxel run to exhaustion *)

(** C1 (for a quota of at least 1). Calling [get_seed] on a constructed
    [Random_per_voxel] with quota [k] until it returns [false] ends after
    exactly [k] successful calls for each non-zero voxel of the mask,
    voxel after voxel in traversal order, and none for any other voxel:
    [k] times the number of non-zero voxels in total. The voxel of a seed
    is the voxel the cursor is at when the seed is drawn, and the object
    is expired afterwards. *)
Theorem Random_per_voxel_quota (mask : Image bool) (k : Z) (fuel calls : nat)
    (p : Vector3) (g : Rng) :
  positive_extent mask ->
  1 <= k ->
  (voxel_count mask < fuel)%nat ->
  (Z.to_nat k * List.length (masked_voxels mask) < calls)%nat ->
  unit_tape g ->
  exists seeds self' g',
    drain (Random_per_voxel_get_seed fuel) rpv_voxel calls
      (Random_per_voxel_ctor mask k) p g = Some (seeds, self', g') /\
    map fst seeds = flat_map (fun v => repeat v (Z.to_nat k)) (masked_voxels mask) /\
    List.length seeds = (Z.to_nat k * List.length (masked_voxels mask))%nat /\
    (forall v, in_grid mask v -> value mask v = true ->
               occurrences v (map fst seeds) = Z.to_nat k) /\
    (forall v, ~ (in_grid mask v /\ value mask v = true) ->
               occurrences v (map fst seeds) = 0%nat) /\
    rpv_expired self' = true.
Proof.
  intros Hext Hk Hfuel Hcalls U.
  destruct (rpv_from_start mask Hext k Hk fuel Hfuel calls p g) as
    (seeds & self' & g' & Hd & Hv & He & _ & _).
  { rewrite length_repeats. exact Hcalls. }
  { exact U. }
  exists seeds, self', g'.
  split; [exact Hd|]. split; [exact Hv|]. split.
  { rewrite <- (length_map fst), Hv. apply length_repeats. }
  split.
  { intros v Hg Hm. rewrite Hv. apply occurrences_present.
    - apply masked_voxels_NoDup. exact Hext.
    - apply In_masked_voxels. tauto. }
  split.
  { intros v Hn. rewrite Hv. apply occurrences_absent.
    intro Hin. apply Hn. apply In_masked_voxels. exact Hin. }
  exact He.
Qed.

Lemma example_mask_extent : positive_extent example_mask.
Proof. unfold positive_extent; simpl. lia. Qed.

Lemma Random_per_voxel_quota_witness :
  positive_extent example_mask /\ 1 <= 2 /\
  (voxel_count example_mask < 3)%nat /\
  (Z.to_nat 2 * List.length (masked_voxels example_mask) < 3)%nat /\
  unit_tape (constant_rng (1#2)) /\
  exists seeds self' g',
    drain (Random_per_voxel_get_seed 3) rpv_voxel 3
      (Random_per_voxel_ctor example_mask 2) origin (constant_rng (1#2))
      = Some (seeds, self', g') /\
    map fst seeds
      = flat_map (fun v => repeat v (Z.to_nat 2)) (masked_voxels example_mask) /\
    List.length seeds = (Z.to_nat 2 * List.length (masked_voxels example_mask))%nat /\
    (forall v, in_grid example_mask v -> value example_mask v = true ->
               occurrences v (map fst seeds) = Z.to_nat 2) /\
    (forall v, ~ (in_grid example_mask v /\ value example_mask v = true) ->
               occurrences v (map fst seeds) = 0%nat) /\
    rpv_expired self' = true.
Proof.
  assert (H1 : 1 <= 2) by lia.
  assert (H2 : (voxel_count example_mask < 3)%nat) by (vm_compute; lia).
  assert (H3 : (Z.to_nat 2 * List.length (masked_voxels example_mask) < 3)%nat)
    by (vm_compute; lia).
  split; [exact example_mask_extent|]. split; [exact H1|]. split; [exact H2|].
  split; [exact H3|]. split; [exact half_rng_unit|].
  exact (Random_per_voxel_quota example_mask 2 3 3 origin (constant_rng (1#2))
           example_mask_extent H1 H2 H3 half_rng_unit).
Defined.

(** With a quota of zero the first call already returns a seed, so no run
    to exhaustion yields zero seeds per voxel: the statement of C1 fails
    for [k = 0]. *)
Lemma zero_quota_yields_seed :
  ~ exists fuel calls seeds self' g',
      drain (Random_per_voxel_get_seed fuel) rpv_voxel calls
        (Random_per_voxel_ctor example_mask 0) origin (constant_rng (1#2))
        = Some (seeds, self', g') /\
      List.length seeds = (Z.to_nat 0 * List.length (masked_voxels example_mask))%nat.
Proof.
  intros (fuel & calls & seeds & self' & g' & Hd & Hl).
  destruct calls as [|calls]; [discriminate Hd|].
  destruct fuel as [|[|fuel]]; try discriminate Hd.
  cbn [drain] in Hd.
  change (Random_per_voxel_get_seed (S (S fuel)) (Random_per_voxel_ctor example_mask 0)
            origin (constant_rng (1#2)))
    with (Some (Random_per_voxel_emit
                  (mkRandom_per_voxel example_mask
                     (mkCursor (mkIndex 1 0 0) [mkIndex 0 0 0; mkIndex 1 0 0]) 0 0 false)
                  (constant_rng (1#2)))) in Hd.
  rewrite Random_per_voxel_emit_eq in Hd.
  match type of Hd with
  | match ?d with _ => _ end = _ => destruct d as [[[l s''] g'']|]
  end; [|discriminate Hd].
  inversion Hd; subst seeds. simpl in Hl. discriminate Hl.
Qed.

(** ** Exhaustion *)

Lemma Grid_per_voxel_emit_true (self : Grid_per_voxel) (g : Rng) :
  fst (fst (fst (Grid_per_voxel_emit self g))) = true.
Proof. reflexivity. Qed.

Lemma Random_per_voxel_emit_true (self : Random_per_voxel) (g : Rng) :
  fst (fst (fst (Random_per_voxel_emit self g))) = true.
Proof. rewrite Random_per_voxel_emit_eq. reflexivity. Qed.

Lemma Random_per_voxel_false_expired (fuel : nat) (self self' : Random_per_voxel)
    (p p' : Vector3) (g g' : Rng) :
  Random_per_voxel_get_seed fuel self p g = Some (false, p', self', g') ->
  rpv_expired self' = true.
Proof.
  unfold Random_per_voxel_get_seed. intro H.
  destruct (rpv_expired self) eqn:E.
  - inversion H; subst. exact E.
  - destruct (orb _ _).
    + destruct (do_while fuel (advance (rpv_mask self)) (advance_again (rpv_mask self))
                  (rpv_cursor self)) as [c|]; [|discriminate H].
      destruct (ix0 (index c) =? size0 (rpv_mask self)).
      * inversion H. reflexivity.
      * rewrite Random_per_voxel_emit_eq in H. discriminate H.
    + rewrite Random_per_voxel_emit_eq in H. discriminate H.
Qed.

Lemma Grid_per_voxel_false_expired (fuel : nat) (self self' : Grid_per_voxel)
    (p p' : Vector3) (g g' : Rng) :
  Grid_per_voxel_get_seed fuel self p g = Some (false, p', self', g') ->
  gpv_expired self' = true.
Proof.
  unfold Grid_per_voxel_get_seed. intro H.
  destruct (gpv_expired self) eqn:E.
  - inversion H; subst. exact E.
  - destruct (_ >=? _); [|discriminate H].
    destruct (_ >=? _); [|discriminate H].
    destruct (_ >=? _); [|discriminate H].
    destruct (do_while _ _ _ _) as [c|]; [|discriminate].
    destruct (_ =? _); [|discriminate H].
    inversion H. reflexivity.
Qed.

(** C5. For [Random_per_voxel] and [Grid_per_voxel]: a call that returns
    [false] leaves the flag set; a call on an object whose flag is set
    returns [false] and changes neither the object, the caller's vector
    nor the engine, so the flag is never cleared and every later call
    returns [false] as well. *)
Theorem exhaustion_is_permanent :
  (forall fuel self p g p' self' g',
      Random_per_voxel_get_seed fuel self p g = Some (false, p', self', g') ->
      rpv_expired self' = true /\
      forall fuel' q h,
        Random_per_voxel_get_seed fuel' self' q h = Some (false, q, self', h)) /\
  (forall fuel self p g,
      rpv_expired self = true ->
      Random_per_voxel_get_seed fuel self p g = Some (false, p, self, g)) /\
  (forall fuel self p g p' self' g',
      Grid_per_voxel_get_seed fuel self p g = Some (false, p', self', g') ->
      gpv_expired self' = true /\
      forall fuel' q h,
        Grid_per_voxel_get_seed fuel' self' q h = Some (false, q, self', h)) /\
  (forall fuel self p g,
      gpv_expired self = true ->
      Grid_per_voxel_get_seed fuel self p g = Some (false, p, self, g)).
Proof.
  assert (R : forall fuel self p g,
             rpv_expired self = true ->
             Random_per_voxel_get_seed fuel self p g = Some (false, p, self, g)).
  { intros fuel self p g E. unfold Random_per_voxel_get_seed. rewrite E. reflexivity. }
  assert (G : forall fuel self p g,
             gpv_expired self = true ->
             Grid_per_voxel_get_seed fuel self p g = Some (false, p, self, g)).
  { intros fuel self p g E. unfold Grid_per_voxel_get_seed. rewrite E. reflexivity. }
  split; [|split; [exact R|split; [|exact G]]].
  - intros fuel self p g p' self' g' H.
    pose proof (Random_per_voxel_false_expired _ _ _ _ _ _ _ H) as E.
    split; [exact E|]. intros fuel' q h. apply R. exact E.
  - intros fuel self p g p' self' g' H.
    pose proof (Grid_per_voxel_false_expired _ _ _ _ _ _ _ H) as E.
    split; [exact E|]. intros fuel' q h. apply G. exact E.
Qed.

Lemma exhaustion_is_permanent_witness :
  Random_per_voxel_get_seed 2 (Random_per_voxel_ctor empty_mask 1) origin
    (constant_rng (1#2))
    = Some (false, origin, expired_example, constant_rng (1#2)) /\
  rpv_expired expired_example = true /\
  forall fuel' q h,
    Random_per_voxel_get_seed fuel' expired_example q h
    = Some (false, q, expired_example, h).
Proof.
  split; [reflexivity|].
  apply (proj1 exhaustion_is_permanent 2%nat (Random_per_voxel_ctor empty_mask 1) origin
           (constant_rng (1#2)) origin expired_example (constant_rng (1#2))).
  reflexivity.
Defined.

(** ** Grid_per_voxel run to exhaustion *)

Lemma sub_positions_length (os : Z) :
  1 <= os -> List.length (sub_positions os) = sub_count os.
Proof.
  intro H. rewrite (sub_positions_at os H), length_map, length_seq. reflexivity.
Qed.

Lemma sub_positions_NoDup (os : Z) : 1 <= os -> NoDup (sub_positions os).
Proof.
  intro H. rewrite (sub_positions_at os H).
  apply NoDup_map_NoDup_ForallPairs; [|apply seq_NoDup].
  intros a b _ _ E. exact (sub_at_injective os a b H E).
Qed.

Lemma sub_positions_range (os : Z) (s : Vector3i) :
  1 <= os -> In s (sub_positions os) ->
  0 <= px s < os /\ 0 <= py s < os /\ 0 <= pz s < os.
Proof.
  intros H Hin. rewrite (sub_positions_at os H) in Hin.
  apply in_map_iff in Hin. destruct Hin as (q & <- & Hq).
  apply in_seq in Hq. apply sub_at_range; [exact H|lia].
Qed.

Lemma slots_of_voxel (os : Z) (v : Index) :
  map fst (slots_of os v) = repeat v (List.length (sub_positions os)).
Proof.
  unfold slots_of. rewrite map_map. cbn [fst].
  induction (sub_positions os) as [|s subs IHs]; [reflexivity|].
  cbn [map List.length repeat]. rewrite IHs. reflexivity.
Qed.

Lemma slots_voxels (os : Z) (l : list Index) :
  map fst (flat_map (slots_of os) l) =
  flat_map (fun v => repeat v (List.length (sub_positions os))) l.
Proof.
  induction l as [|v l IH]; [reflexivity|].
  cbn [flat_map]. rewrite map_app, IH, slots_of_voxel. reflexivity.
Qed.

Lemma slots_length (os : Z) (l : list Index) :
  List.length (flat_map (slots_of os) l) =
  (List.length (sub_positions os) * List.length l)%nat.
Proof.
  rewrite <- (length_map fst), slots_voxels. apply length_repeats.
Qed.

Lemma In_slots (os : Z) (l : list Index) (x : Index * Vector3i) :
  In x (flat_map (slots_of os) l) <-> In (fst x) l /\ In (snd x) (sub_positions os).
Proof.
  rewrite in_flat_map. unfold slots_of. split.
  - intros (v & Hv & Hx). apply in_map_iff in Hx. destruct Hx as (s & <- & Hs).
    split; assumption.
  - intros (Hv & Hs). exists (fst x). split; [exact Hv|].
    apply in_map_iff. exists (snd x). split; [destruct x; reflexivity|exact Hs].
Qed.

Lemma slots_NoDup (os : Z) (l : list Index) :
  1 <= os -> NoDup l -> NoDup (flat_map (slots_of os) l).
Proof.
  intros H Hl. induction Hl as [|v l Hv Hl IH]; [constructor|].
  cbn [flat_map]. apply NoDup_app.
  - unfold slots_of. apply NoDup_map_NoDup_ForallPairs; [|apply sub_positions_NoDup; exact H].
    intros a b _ _ E. congruence.
  - exact IH.
  - intros x Hx Hx'. unfold slots_of in Hx. apply in_map_iff in Hx.
    destruct Hx as (s & <- & _). apply In_slots in Hx'. destruct Hx' as (Hin & _).
    apply Hv. exact Hin.
Qed.

(** *** The lattice in single precision *)

(** The coordinate computed for a lattice point differs from the exact
    one by at most [(3 n + 9) 2^-24], for indices below [n]. *)
Lemma lattice_axis_error (os n i p : Z) :
  1 <= os -> 0 <= i < n -> 0 <= p < os -> os * (n + 3) <= 2 ^ 21 ->
  (exact_axis os i p - (3 * inject_Z n + 9) * (1 # 16777216)
     <= lattice_axis (round32 (-(1#2) + 1 / (2 * inject_Z os)))
          (round32 (1 / inject_Z os)) i p)%Q /\
  (lattice_axis (round32 (-(1#2) + 1 / (2 * inject_Z os)))
     (round32 (1 / inject_Z os)) i p
     <= exact_axis os i p + (3 * inject_Z n + 9) * (1 # 16777216))%Q.
Proof.
  intros Hos Hi Hp Hn.
  assert (Bn : n + 3 <= 2 ^ 21) by nia.
  assert (Bo : os <= 2 ^ 21) by nia.
  unfold lattice_axis, exact_axis, fadd, fmul, float_of_int.
  assert (Qos : (1 <= inject_Z os)%Q).
  { change 1%Q with (inject_Z 1). rewrite <- Zle_Qle. exact Hos. }
  assert (Qi : (0 <= inject_Z i)%Q /\ (inject_Z i + 1 <= inject_Z n)%Q).
  { split.
    - change 0%Q with (inject_Z 0). rewrite <- Zle_Qle. lia.
    - change 1%Q with (inject_Z 1). rewrite <- inject_Z_plus, <- Zle_Qle. lia. }
  assert (Qp : (0 <= inject_Z p)%Q /\ (inject_Z p + 1 <= inject_Z os)%Q).
  { split.
    - change 0%Q with (inject_Z 0). rewrite <- Zle_Qle. lia.
    - change 1%Q with (inject_Z 1). rewrite <- inject_Z_plus, <- Zle_Qle. lia. }
  rewrite (round32_Z i) by lia. rewrite (round32_Z p) by lia.
  set (I := inject_Z i) in *. set (P := inject_Z p) in *. set (N := inject_Z n) in *.
  set (OS := inject_Z os) in *.
  assert (St : (0 < 1 / OS)%Q /\ (1 / OS <= 1)%Q /\ (OS * (1 / OS) == 1)%Q).
  { assert (E : (OS * (1 / OS) == 1)%Q) by (field; lra).
    split; [|split; [|exact E]].
    - apply Qlt_shift_div_l; lra.
    - apply Qle_shift_div_r; lra. }
  set (st := (1 / OS)%Q) in *. destruct St as (St0 & St1 & StE).
  assert (Off : (1 / (2 * OS) == st * (1#2))%Q) by (unfold st; field; lra).
  rewrite Off.
  set (off := (- (1 # 2) + st * (1 # 2))%Q).
  assert (O1 : (- (1#2) <= off)%Q /\ (off <= 0)%Q) by (unfold off; lra).
  destruct (round32_within off (1#2) ltac:(lra) ltac:(lra)) as (Ro1 & Ro2).
  set (o := round32 off) in *.
  destruct (round32_within st st ltac:(lra) ltac:(lra)) as (Rs1 & Rs2).
  set (s := round32 st) in *.
  destruct (round32_within (I + o) (N + 1) ltac:(lra) ltac:(lra)) as (Ra1 & Ra2).
  set (a := round32 (I + o)) in *.
  assert (Pst : (0 <= P * st)%Q /\ (P * st <= 1)%Q) by (split; nra).
  assert (Ps : (0 <= P * s)%Q /\ (P * s <= 2)%Q /\
               (P * st - (1 # 16777216) <= P * s)%Q /\
               (P * s <= P * st + (1 # 16777216))%Q) by (repeat split; nra).
  destruct Ps as (Ps0 & Ps2 & Ps3 & Ps4).
  destruct (round32_within (P * s) 2 ltac:(lra) ltac:(lra)) as (Rb1 & Rb2).
  set (ps := (P * s)%Q) in *. set (b := round32 ps) in *.
  assert (N0 : (1 <= N)%Q) by lra.
  destruct (round32_within (a + b) (2 * N + 4) ltac:(lra) ltac:(lra)) as (Rf1 & Rf2).
  set (f := round32 (a + b)) in *. set (pst := (P * st)%Q) in *.
  split; lra.
Qed.

(** Within the bound on [os] and the extent, the coordinates computed
    for two different pairs of an index and a sub-voxel position are
    different. *)
Lemma lattice_axis_separated (os n i i' p p' : Z) :
  1 <= os -> 0 <= i < n -> 0 <= i' < n -> 0 <= p < os -> 0 <= p' < os ->
  os * (n + 3) <= 2 ^ 21 ->
  (lattice_axis (round32 (-(1#2) + 1 / (2 * inject_Z os))) (round32 (1 / inject_Z os)) i p
   == lattice_axis (round32 (-(1#2) + 1 / (2 * inject_Z os)))
        (round32 (1 / inject_Z os)) i' p')%Q ->
  i = i' /\ p = p'.
Proof.
  intros Hos Hi Hi' Hp Hp' Hn E.
  destruct (lattice_axis_error os n i p Hos Hi Hp Hn) as (A1 & A2).
  destruct (lattice_axis_error os n i' p' Hos Hi' Hp' Hn) as (B1 & B2).
  rewrite E in A1, A2.
  set (f := lattice_axis _ _ i' p') in *. clearbody f. clear E.
  unfold exact_axis in *.
  assert (Qos : (1 <= inject_Z os)%Q).
  { change 1%Q with (inject_Z 1). rewrite <- Zle_Qle. exact Hos. }
  assert (Qn : (inject_Z os * (inject_Z n + 3) <= 2097152)%Q).
  { change 3%Q with (inject_Z 3). change 2097152%Q with (inject_Z (2 ^ 21)).
    rewrite <- inject_Z_plus, <- inject_Z_mult, <- Zle_Qle. exact Hn. }
  assert (Qn0 : (0 <= inject_Z n)%Q).
  { change 0%Q with (inject_Z 0). rewrite <- Zle_Qle. lia. }
  assert (K : (inject_Z ((i - i') * os + (p - p'))
               == (inject_Z i - inject_Z i') * inject_Z os + (inject_Z p - inject_Z p'))%Q).
  { rewrite inject_Z_plus, inject_Z_mult. unfold Z.sub.
    rewrite !inject_Z_plus, !inject_Z_opp. ring. }
  set (I := inject_Z i) in *. set (I' := inject_Z i') in *.
  set (P := inject_Z p) in *. set (P' := inject_Z p') in *.
  set (N := inject_Z n) in *. set (OS := inject_Z os) in *.
  assert (StE : (OS * (1 / OS) == 1)%Q) by (field; lra).
  assert (St0 : (0 < 1 / OS)%Q) by (apply Qlt_shift_div_l; lra).
  set (st := (1 / OS)%Q) in *.
  assert (D : (- ((6 * N + 18) * (1 # 16777216)) <= (I - I') + (P - P') * st)%Q /\
              ((I - I') + (P - P') * st <= (6 * N + 18) * (1 # 16777216))%Q).
  { split; lra. }
  destruct D as (D1 & D2).
  assert (M : (OS * ((I - I') + (P - P') * st) == (I - I') * OS + (P - P'))%Q).
  { transitivity ((I - I') * OS + (P - P') * (OS * st))%Q; [ring|].
    rewrite StE. ring. }
  assert (Z1 : (-1 < (I - I') * OS + (P - P'))%Q /\ ((I - I') * OS + (P - P') < 1)%Q).
  { rewrite <- M. split; nra. }
  rewrite <- K in Z1. destruct Z1 as (Z1 & Z2).
  change (-1)%Q with (inject_Z (-1)) in Z1. change 1%Q with (inject_Z 1) in Z2.
  rewrite <- Zlt_Qlt in Z1, Z2.
  assert (Z0 : i * os + p = i' * os + p') by lia.
  apply (Z.div_mod_unique os i i' p p'); [left; exact Hp|left; exact Hp'|].
  rewrite (Z.mul_comm os i), (Z.mul_comm os i'). exact Z0.
Qed.

Lemma lattice_separated (os n : Z) (v v' : Index) (s s' : Vector3i) :
  1 <= os -> os * (n + 3) <= 2 ^ 21 ->
  (0 <= ix0 v < n /\ 0 <= ix1 v < n /\ 0 <= ix2 v < n) ->
  (0 <= ix0 v' < n /\ 0 <= ix1 v' < n /\ 0 <= ix2 v' < n) ->
  (0 <= px s < os /\ 0 <= py s < os /\ 0 <= pz s < os) ->
  (0 <= px s' < os /\ 0 <= py s' < os /\ 0 <= pz s' < os) ->
  veq (lattice_point (round32 (-(1#2) + 1 / (2 * inject_Z os)))
         (round32 (1 / inject_Z os)) v s)
      (lattice_point (round32 (-(1#2) + 1 / (2 * inject_Z os)))
         (round32 (1 / inject_Z os)) v' s') ->
  (v, s) = (v', s').
Proof.
  intros Hos Hn (V0 & V1 & V2) (W0 & W1 & W2) (S0 & S1 & S2) (T0 & T1 & T2) (E0 & E1 & E2).
  unfold lattice_point in *. cbn [vx vy vz] in E0, E1, E2.
  destruct (lattice_axis_separated os n _ _ _ _ Hos V0 W0 S0 T0 Hn E0) as (A0 & B0).
  destruct (lattice_axis_separated os n _ _ _ _ Hos V1 W1 S1 T1 Hn E1) as (A1 & B1).
  destruct (lattice_axis_separated os n _ _ _ _ Hos V2 W2 S2 T2 Hn E2) as (A2 & B2).
  destruct v, v', s, s'; simpl in *. congruence.
Qed.

Lemma distinct_keys_distinct_points {K : Type} (point : K -> Vector3) (keys : list K) :
  NoDup keys ->
  (forall a b, In a keys -> In b keys -> veq (point a) (point b) -> a = b) ->
  ForallOrdPairs (fun a b => ~ veq (point a) (point b)) keys.
Proof.
  induction keys as [|a keys IH]; intros Hnd Hinj; [constructor|].
  inversion Hnd as [|? ? Hnotin Hnd']; subst.
  constructor.
  - apply Forall_forall. intros b Hb Hveq.
    apply Hnotin. rewrite (Hinj a b (or_introl eq_refl) (or_intror Hb) Hveq). exact Hb.
  - apply IH; [exact Hnd'|].
    intros x y Hx Hy. apply Hinj; right; assumption.
Qed.

(** C4, as amended (for an oversampling factor of at least 1). Calling
    [get_seed] on a constructed [Grid_per_voxel] with factor [os] until
    it returns [false] ends after exactly one successful call for each
    sub-voxel position of each non-zero voxel of the mask, [os]^3 per
    voxel, and none for any other voxel; no voxel and sub-voxel position
    is used twice. Each point is the transform of the voxel index plus
    [offset + pos * step] on each axis, evaluated in single precision,
    whatever the engine; and as long as [os] times the largest extent
    plus 3 is at most 2^21, the lattice points computed for different
    voxels or sub-voxel positions are different. *)
Theorem Grid_per_voxel_lattice (mask : Image bool) (os : Z) (fuel calls : nat)
    (p : Vector3) (g : Rng) :
  positive_extent mask ->
  1 <= os ->
  (voxel_count mask < fuel)%nat ->
  (Z.to_nat (os * os * os) * List.length (masked_voxels mask) < calls)%nat ->
  exists seeds self',
    drain (Grid_per_voxel_get_seed fuel) gpv_slot calls
      (Grid_per_voxel_ctor mask os) p g = Some (seeds, self', g) /\
    map fst seeds = flat_map (slots_of os) (masked_voxels mask) /\
    NoDup (map fst seeds) /\
    List.length seeds = (Z.to_nat (os * os * os) * List.length (masked_voxels mask))%nat /\
    (forall v, in_grid mask v -> value mask v = true ->
               occurrences v (map (fun s => fst (fst s)) seeds) = Z.to_nat (os * os * os)) /\
    (forall v, ~ (in_grid mask v /\ value mask v = true) ->
               occurrences v (map (fun s => fst (fst s)) seeds) = 0%nat) /\
    Forall (fun s => snd s =
              transform_apply (voxel2scanner mask)
                (lattice_point (offset (Grid_per_voxel_ctor mask os))
                   (step (Grid_per_voxel_ctor mask os)) (fst (fst s)) (snd (fst s))))
      seeds /\
    (forall n,
       size0 mask <= n -> size1 mask <= n -> size2 mask <= n ->
       os * (n + 3) <= 2 ^ 21 ->
       ForallOrdPairs
         (fun a b =>
            ~ veq (lattice_point (offset (Grid_per_voxel_ctor mask os))
                     (step (Grid_per_voxel_ctor mask os)) (fst a) (snd a))
                  (lattice_point (offset (Grid_per_voxel_ctor mask os))
                     (step (Grid_per_voxel_ctor mask os)) (fst b) (snd b)))
         (map fst seeds)) /\
    gpv_expired self' = true.
Proof.
  intros Hext Hos Hfuel Hcalls.
  pose proof (sub_positions_length os Hos) as HL. unfold sub_count in HL.
  destruct (gpv_from_start mask Hext fuel Hfuel os Hos
              (round32 (-(1#2) + 1 / (2 * inject_Z os)))
              (round32 (1 / inject_Z os)) calls p g)
    as (seeds & self' & Hd & Hv & He & _ & Hw).
  { rewrite slots_length, HL. exact Hcalls. }
  exists seeds, self'.
  assert (Hvox : map (fun s => fst (fst s)) seeds =
                 flat_map (fun v => repeat v (Z.to_nat (os * os * os))) (masked_voxels mask)).
  { rewrite <- HL, <- slots_voxels, <- Hv, map_map. reflexivity. }
  split; [exact Hd|]. split; [exact Hv|]. split.
  { rewrite Hv. apply slots_NoDup; [exact Hos|].
    apply masked_voxels_NoDup. exact Hext. }
  split.
  { rewrite <- (length_map fst), Hv, slots_length, HL. reflexivity. }
  split.
  { intros v Hg Hm. rewrite Hvox. apply occurrences_present.
    - apply masked_voxels_NoDup. exact Hext.
    - apply In_masked_voxels. tauto. }
  split.
  { intros v Hn. rewrite Hvox. apply occurrences_absent.
    intro Hin. apply Hn. apply In_masked_voxels. exact Hin. }
  split; [exact Hw|]. split; [|exact He].
  intros n N0 N1 N2 Hn.
  apply (distinct_keys_distinct_points
           (fun k => lattice_point (offset (Grid_per_voxel_ctor mask os))
                       (step (Grid_per_voxel_ctor mask os)) (fst k) (snd k))).
  { rewrite Hv. apply slots_NoDup; [exact Hos|].
    apply masked_voxels_NoDup. exact Hext. }
  intros a b Ha Hb Hveq. rewrite Hv in Ha, Hb.
  apply In_slots in Ha, Hb. destruct Ha as (Va & Sa). destruct Hb as (Vb & Sb).
  apply In_masked_voxels in Va, Vb.
  destruct Va as ((A0 & A1 & A2) & _). destruct Vb as ((B0 & B1 & B2) & _).
  cbn [Grid_per_voxel_ctor offset step] in Hveq.
  pose proof (lattice_separated os n (fst a) (fst b) (snd a) (snd b) Hos Hn
                ltac:(lia) ltac:(lia)
                (sub_positions_range os _ Hos Sa) (sub_positions_range os _ Hos Sb) Hveq) as E.
  destruct a, b. exact E.
Qed.

Lemma Grid_per_voxel_lattice_witness :
  positive_extent example_mask /\ 1 <= 2 /\
  (voxel_count example_mask < 3)%nat /\
  (Z.to_nat (2 * 2 * 2) * List.length (masked_voxels example_mask) < 9)%nat /\
  exists seeds self',
    drain (Grid_per_voxel_get_seed 3) gpv_slot 9
      (Grid_per_voxel_ctor example_mask 2) origin (constant_rng (1#2))
      = Some (seeds, self', constant_rng (1#2)) /\
    map fst seeds = flat_map (slots_of 2) (masked_voxels example_mask) /\
    NoDup (map fst seeds) /\
    List.length seeds
      = (Z.to_nat (2 * 2 * 2) * List.length (masked_voxels example_mask))%nat /\
    (forall v, in_grid example_mask v -> value example_mask v = true ->
               occurrences v (map (fun s => fst (fst s)) seeds) = Z.to_nat (2 * 2 * 2)) /\
    (forall v, ~ (in_grid example_mask v /\ value example_mask v = true) ->
               occurrences v (map (fun s => fst (fst s)) seeds) = 0%nat) /\
    Forall (fun s => snd s =
              transform_apply (voxel2scanner example_mask)
                (lattice_point (offset (Grid_per_voxel_ctor example_mask 2))
                   (step (Grid_per_voxel_ctor example_mask 2)) (fst (fst s)) (snd (fst s))))
      seeds /\
    (forall n,
       size0 example_mask <= n -> size1 example_mask <= n -> size2 example_mask <= n ->
       2 * (n + 3) <= 2 ^ 21 ->
       ForallOrdPairs
         (fun a b =>
            ~ veq (lattice_point (offset (Grid_per_voxel_ctor example_mask 2))
                     (step (Grid_per_voxel_ctor example_mask 2)) (fst a) (snd a))
                  (lattice_point (offset (Grid_per_voxel_ctor example_mask 2))
                     (step (Grid_per_voxel_ctor example_mask 2)) (fst b) (snd b)))
         (map fst seeds)) /\
    gpv_expired self' = true.
Proof.
  assert (H1 : 1 <= 2) by lia.
  assert (H2 : (voxel_count example_mask < 3)%nat) by (vm_compute; lia).
  assert (H3 : (Z.to_nat (2 * 2 * 2) * List.length (masked_voxels example_mask) < 9)%nat)
    by (vm_compute; lia).
  split; [exact example_mask_extent|]. split; [exact H1|]. split; [exact H2|].
  split; [exact H3|].
  exact (Grid_per_voxel_lattice example_mask 2 3 9 origin (constant_rng (1#2))
           example_mask_extent H1 H2 H3).
Defined.

(** With an oversampling factor of zero the first call already returns a
    seed, so no run to exhaustion yields zero seeds per voxel. *)
Lemma zero_factor_first_call :
  ~ exists fuel calls seeds self' g',
      drain (Grid_per_voxel_get_seed fuel) gpv_slot calls
        (Grid_per_voxel_ctor example_mask 0) origin (constant_rng (1#2))
        = Some (seeds, self', g') /\
      List.length seeds
        = (Z.to_nat (0 * 0 * 0) * List.length (masked_voxels example_mask))%nat.
Proof.
  intros (fuel & calls & seeds & self' & g' & Hd & Hl).
  destruct calls as [|calls]; [discriminate Hd|].
  destruct fuel as [|[|fuel]]; try discriminate Hd.
  cbn [drain] in Hd.
  change (Grid_per_voxel_get_seed (S (S fuel)) (Grid_per_voxel_ctor example_mask 0)
            origin (constant_rng (1#2)))
    with (Some (Grid_per_voxel_emit
                  (Grid_set (Grid_per_voxel_ctor example_mask 0)
                     (mkCursor (mkIndex 1 0 0) [mkIndex 0 0 0; mkIndex 1 0 0])
                     (mkVeci 0 0 0) false)
                  (constant_rng (1#2)))) in Hd.
  unfold Grid_per_voxel_emit in Hd.
  match type of Hd with
  | match ?d with _ => _ end = _ => destruct d as [[[l s''] g'']|]
  end; [|discriminate Hd].
  inversion Hd; subst seeds. simpl in Hl. discriminate Hl.
Qed.

(** The statement of C4 fails in two ways. With an oversampling factor of
    zero the first call already returns a seed, so no run to exhaustion
    yields zero seeds per voxel. With the factor [2^20] the first two
    seeds for the voxel (0,0,100), computed for the sub-voxel positions
    (0,0,0) and (0,0,1), are the same point, whatever the caller's
    vectors: on the last axis both [100 + offset + 0 * step] and
    [100 + offset + 1 * step] round to [99.5]. *)
Lemma Grid_per_voxel_seeds_coincide :
  (~ exists fuel calls seeds self' g',
       drain (Grid_per_voxel_get_seed fuel) gpv_slot calls
         (Grid_per_voxel_ctor example_mask 0) origin (constant_rng (1#2))
         = Some (seeds, self', g') /\
       List.length seeds
         = (Z.to_nat (0 * 0 * 0) * List.length (masked_voxels example_mask))%nat) /\
  (exists self1 self2 q,
      veq q (mkVec (-1048575 # 2097152) (-1048575 # 2097152) (199 # 2)) /\
      (forall p g,
         Grid_per_voxel_get_seed 102 (Grid_per_voxel_ctor deep_mask 1048576) p g
           = Some (true, q, self1, g)) /\
      (forall p g, Grid_per_voxel_get_seed 102 self1 p g = Some (true, q, self2, g)) /\
      gpv_slot self1 = (mkIndex 0 0 100, mkVeci 0 0 0) /\
      gpv_slot self2 = (mkIndex 0 0 100, mkVeci 0 0 1) /\
      lattice_point (offset self1) (step self1) (mkIndex 0 0 100) (mkVeci 0 0 0)
        = mkVec (-1048575 # 2097152) (-1048575 # 2097152) (199 # 2) /\
      lattice_point (offset self2) (step self2) (mkIndex 0 0 100) (mkVeci 0 0 1)
        = mkVec (-1048575 # 2097152) (-1048575 # 2097152) (199 # 2)).
Proof.
  split; [exact zero_factor_first_call|].
  eexists. eexists. eexists.
  split; [|split; [intros p g; vm_compute; reflexivity|]].
  { vm_compute. repeat split. }
  split; [intros p g; vm_compute; reflexivity|].
  split; [reflexivity|]. split; [reflexivity|].
  split; vm_compute; reflexivity.
Qed.

(** ** Order of the traversal *)

(** C3 (with axis 2 as the fastest axis). Over a run to exhaustion of
    [Random_per_voxel] (quota at least 1) or [Grid_per_voxel] (factor at
    least 1), the positions the cursor is moved to are the voxels of the
    grid, each exactly once, in the order in which axis 2 varies fastest
    and axis 0 slowest, followed by the position past the end. *)
Theorem traversal_visits_raster (mask : Image bool) :
  positive_extent mask ->
  NoDup (raster mask) /\
  (forall v, In v (raster mask) <-> in_grid mask v) /\
  (forall k fuel calls p g,
      1 <= k -> (voxel_count mask < fuel)%nat ->
      (Z.to_nat k * List.length (masked_voxels mask) < calls)%nat ->
      unit_tape g ->
      exists seeds self' g',
        drain (Random_per_voxel_get_seed fuel) rpv_voxel calls
          (Random_per_voxel_ctor mask k) p g = Some (seeds, self', g') /\
        trail (rpv_cursor self') = raster mask ++ [past_the_end mask]) /\
  (forall os fuel calls p g,
      1 <= os -> (voxel_count mask < fuel)%nat ->
      (Z.to_nat (os * os * os) * List.length (masked_voxels mask) < calls)%nat ->
      exists seeds self' g',
        drain (Grid_per_voxel_get_seed fuel) gpv_slot calls
          (Grid_per_voxel_ctor mask os) p g = Some (seeds, self', g') /\
        trail (gpv_cursor self') = raster mask ++ [past_the_end mask]).
Proof.
  intro Hext.
  split; [apply raster_NoDup; exact Hext|]. split; [intro v; apply In_raster|]. split.
  - intros k fuel calls p g Hk Hfuel Hcalls U.
    destruct (rpv_from_start mask Hext k Hk fuel Hfuel calls p g) as
      (seeds & self' & g' & Hd & _ & _ & Ht & _).
    { rewrite length_repeats. exact Hcalls. }
    { exact U. }
    exists seeds, self', g'. split; assumption.
  - intros os fuel calls p g Hos Hfuel Hcalls.
    pose proof (sub_positions_length os Hos) as HL. unfold sub_count in HL.
    destruct (gpv_from_start mask Hext fuel Hfuel os Hos
                (round32 (-(1#2) + 1 / (2 * inject_Z os)))
                (round32 (1 / inject_Z os)) calls p g)
      as (seeds & self' & Hd & _ & _ & Ht & _).
    { rewrite slots_length, HL. exact Hcalls. }
    exists seeds, self', g. split; assumption.
Qed.

Lemma full_mask_extent : positive_extent full_mask.
Proof. unfold positive_extent; simpl. lia. Qed.

Lemma traversal_visits_raster_witness :
  positive_extent full_mask /\
  NoDup (raster full_mask) /\
  (forall v, In v (raster full_mask) <-> in_grid full_mask v) /\
  (forall k fuel calls p g,
      1 <= k -> (voxel_count full_mask < fuel)%nat ->
      (Z.to_nat k * List.length (masked_voxels full_mask) < calls)%nat ->
      unit_tape g ->
      exists seeds self' g',
        drain (Random_per_voxel_get_seed fuel) rpv_voxel calls
          (Random_per_voxel_ctor full_mask k) p g = Some (seeds, self', g') /\
        trail (rpv_cursor self') = raster full_mask ++ [past_the_end full_mask]) /\
  (forall os fuel calls p g,
      1 <= os -> (voxel_count full_mask < fuel)%nat ->
      (Z.to_nat (os * os * os) * List.length (masked_voxels full_mask) < calls)%nat ->
      exists seeds self' g',
        drain (Grid_per_voxel_get_seed fuel) gpv_slot calls
          (Grid_per_voxel_ctor full_mask os) p g = Some (seeds, self', g') /\
        trail (gpv_cursor self') = raster full_mask ++ [past_the_end full_mask]).
Proof.
  split; [exact full_mask_extent|].
  exact (traversal_visits_raster full_mask full_mask_extent).
Defined.

(** On a 2x1x2 mask the cursor moves along axis 2 first, which is not the
    order in which axis 0 varies fastest: the statement of C3 fails. *)
Lemma traversal_not_axis0_fastest :
  exists seeds self' g',
    drain (Random_per_voxel_get_seed 5) rpv_voxel 5
      (Random_per_voxel_ctor full_mask 1) origin (constant_rng (1#2))
      = Some (seeds, self', g') /\
    trail (rpv_cursor self')
      = [mkIndex 0 0 0; mkIndex 0 0 1; mkIndex 1 0 0; mkIndex 1 0 1; mkIndex 2 0 0] /\
    raster_axis0_fastest full_mask ++ [past_the_end full_mask]
      = [mkIndex 0 0 0; mkIndex 1 0 0; mkIndex 0 0 1; mkIndex 1 0 1; mkIndex 2 0 0] /\
    trail (rpv_cursor self')
      <> raster_axis0_fastest full_mask ++ [past_the_end full_mask].
Proof.
  eexists. eexists. eexists.
  split; [vm_compute; reflexivity|].
  split; [reflexivity|]. split; [reflexivity|].
  intro H. vm_compute in H. discriminate H.
Qed.

(** ** A run on a small mask *)

(** On a 3x3x1 mask with only the centre voxel set and a quota of 5, the
    first five calls return seeds of the centre voxel and the sixth call
    returns [false]. *)
Example centre_voxel_run :
  exists seeds self' g',
    drain (Random_per_voxel_get_seed 10) rpv_voxel 6
      (Random_per_voxel_ctor centre_mask 5) origin (constant_rng (1#2))
      = Some (seeds, self', g') /\
    map fst seeds = repeat (mkIndex 1 1 0) 5 /\
    rpv_expired self' = true /\
    Random_per_voxel_get_seed 10 self' origin g' = Some (false, origin, self', g').
Proof.
  eexists. eexists. eexists.
  split; [vm_compute; reflexivity|].
  split; [reflexivity|]. split; reflexivity.
Qed.

(** With an oversampling factor of 2 the lattice of a voxel has the
    offsets -1/4 and 1/4 on each axis, without any rounding. *)
Example lattice_of_factor_two :
  offset (Grid_per_voxel_ctor centre_mask 2) = (-1 # 4) /\
  step (Grid_per_voxel_ctor centre_mask 2) = 1 # 2 /\
  lattice_point (offset (Grid_per_voxel_ctor centre_mask 2))
    (step (Grid_per_voxel_ctor centre_mask 2)) (mkIndex 1 1 0) (mkVeci 1 0 1)
    = mkVec (5#4) (3#4) (1#4).
Proof.
  split; [reflexivity|]. split; [reflexivity|]. vm_compute. reflexivity.
Qed.

(** With an oversampling factor of 3 the offset [-1/3] and the step
    [1/3] are rounded: the first lattice point of voxel 1 lies at
    [5592405/8388608], not at [2/3]. *)
Example lattice_of_factor_three :
  offset (Grid_per_voxel_ctor centre_mask 3) = (-11184811 # 33554432) /\
  step (Grid_per_voxel_ctor centre_mask 3) = 11184811 # 33554432 /\
  lattice_axis (offset (Grid_per_voxel_ctor centre_mask 3))
    (step (Grid_per_voxel_ctor centre_mask 3)) 1 0 = 5592405 # 8388608 /\
  ~ (5592405 # 8388608 == inject_Z 1 + (-(1#2) + 1 / (2 * inject_Z 3)) +
                          inject_Z 0 * (1 / inject_Z 3))%Q.
Proof.
  split; [vm_compute; reflexivity|]. split; [vm_compute; reflexivity|].
  split; [vm_compute; reflexivity|]. vm_compute. discriminate.
Qed.

(** * Further properties of the seeding strategies *)

(** ** Rejection: what an accepted seed satisfies *)


Lemma quarter_rng_unit : unit_tape (constant_rng (1#4)).
Proof. apply constant_rng_unit; [discriminate|reflexivity]. Qed.



(** ** Rejection: what construction guarantees *)

Lemma Rejection_ctor_inr (name : string) (vox : Image Q) (self : Rejection) :
  Rejection_ctor name vox = inr self ->
  exists s',
    scan vox (Loop_0_3 vox) scan_init = inr s' /\
    Qeq_bool (sc_max s') 0 = false /\
    self =
      let sub := Subset vox
                   (mkIndex (pad_bottom (bottom0 s')) (pad_bottom (bottom1 s'))
                            (pad_bottom (bottom2 s')))
                   (mkIndex (top0 s') (top1 s') (top2 s')) in
      mkRejection sub (sc_max s')
        (fmul (sc_volume s') (float_of_int (size0 sub * size1 sub * size2 sub)))
        (voxel2scanner sub).
Proof.
  unfold Rejection_ctor. intro H.
  destruct (scan vox (Loop_0_3 vox) scan_init) as [e|s']; [discriminate|].
  destruct (Qeq_bool (sc_max s') 0) eqn:Z; [discriminate|].
  exists s'. split; [reflexivity|]. split; [exact Z|].
  inversion H. reflexivity.
Qed.

(** After a successful scan that met a non-zero voxel, [bottom] and [top]
    are the corners of the bounding box of the non-zero voxels. *)
Lemma scan_box (vox : Image Q) (s' : Scan) :
  addressable vox ->
  scan vox (Loop_0_3 vox) scan_init = inr s' ->
  (exists w, in_grid vox w /\ nonzero vox w = true) ->
  bounding_box vox (mkIndex (bottom0 s') (bottom1 s') (bottom2 s'))
    (mkIndex (top0 s') (top1 s') (top2 s')).
Proof.
  intros (A0 & A1 & A2) E (w & Hw & Nw).
  destruct (scan_inr _ _ _ _ E) as (_ & Hs). rewrite scan_fields in Hs.
  unfold scan_init in Hs.
  cbn [sc_max sc_volume bottom0 bottom1 bottom2 top0 top1 top2] in Hs.
  set (nz := filter (nonzero vox) (Loop_0_3 vox)) in *.
  assert (Inh : exists i, In i nz) by (exists w; apply In_nonzero_Loop; tauto).
  assert (R0 : forall i, In i nz -> 0 <= ix0 i < SIZE_MAX).
  { intros i Hi. apply In_nonzero_Loop in Hi. destruct Hi as ((? & ? & ?) & _). lia. }
  assert (R1 : forall i, In i nz -> 0 <= ix1 i < SIZE_MAX).
  { intros i Hi. apply In_nonzero_Loop in Hi. destruct Hi as ((? & ? & ?) & _). lia. }
  assert (R2 : forall i, In i nz -> 0 <= ix2 i < SIZE_MAX).
  { intros i Hi. apply In_nonzero_Loop in Hi. destruct Hi as ((? & ? & ?) & _). lia. }
  destruct (bottom_attained ix0 nz Inh R0) as (B0 & b0 & Hb0 & Eb0).
  destruct (bottom_attained ix1 nz Inh R1) as (B1 & b1 & Hb1 & Eb1).
  destruct (bottom_attained ix2 nz Inh R2) as (B2 & b2 & Hb2 & Eb2).
  destruct (top_attained ix0 nz Inh R0) as (T0 & t0 & Ht0 & Et0).
  destruct (top_attained ix1 nz Inh R1) as (T1 & t1 & Ht1 & Et1).
  destruct (top_attained ix2 nz Inh R2) as (T2 & t2 & Ht2 & Et2).
  unfold bounding_box. cbn [ix0 ix1 ix2]. rewrite Hs.
  cbn [bottom0 bottom1 bottom2 top0 top1 top2].
  split.
  { intros i Hi Ni. assert (Hin : In i nz) by (apply In_nonzero_Loop; tauto).
    specialize (B0 i Hin). specialize (B1 i Hin). specialize (B2 i Hin).
    specialize (T0 i Hin). specialize (T1 i Hin). specialize (T2 i Hin).
    cbv zeta in *. lia. }
  repeat split.
  - exists b0. apply In_nonzero_Loop in Hb0. tauto.
  - exists b1. apply In_nonzero_Loop in Hb1. tauto.
  - exists b2. apply In_nonzero_Loop in Hb2. tauto.
  - exists t0. apply In_nonzero_Loop in Ht0. tauto.
  - exists t1. apply In_nonzero_Loop in Ht1. tauto.
  - exists t2. apply In_nonzero_Loop in Ht2. tauto.
Qed.

(** The corners of a bounding box are ordered and lie in the grid. *)
Lemma bounding_box_corners (vox : Image Q) (lo hi : Index) :
  bounding_box vox lo hi ->
  (0 <= ix0 lo <= ix0 hi /\ ix0 hi < size0 vox) /\
  (0 <= ix1 lo <= ix1 hi /\ ix1 hi < size1 vox) /\
  (0 <= ix2 lo <= ix2 hi /\ ix2 hi < size2 vox).
Proof.
  intros (Hall & (a0 & Ga0 & Na0 & Ea0) & (a1 & Ga1 & Na1 & Ea1) & (a2 & Ga2 & Na2 & Ea2)
          & (c0 & Gc0 & Nc0 & Ec0) & (c1 & Gc1 & Nc1 & Ec1) & (c2 & Gc2 & Nc2 & Ec2)).
  pose proof (Hall a0 Ga0 Na0). pose proof (Hall a1 Ga1 Na1). pose proof (Hall a2 Ga2 Na2).
  unfold in_grid in *. lia.
Qed.

Lemma pad_bottom_range (b : Z) : 0 <= b -> 0 <= pad_bottom b <= b.
Proof. intro H. unfold pad_bottom. destruct (Z.eqb_spec b 0); lia. Qed.

(** What the successful constructor knows: the scan state, the corners
    of the crop and the voxel that carries the maximum. *)
Lemma Rejection_ctor_facts (name : string) (vox : Image Q) (self : Rejection) :
  addressable vox ->
  Rejection_ctor name vox = inr self ->
  exists lo hi w,
    image self = Subset vox lo hi /\
    (0 <= ix0 lo <= ix0 hi /\ ix0 hi < size0 vox) /\
    (0 <= ix1 lo <= ix1 hi /\ ix1 hi < size1 vox) /\
    (0 <= ix2 lo <= ix2 hi /\ ix2 hi < size2 vox) /\
    (forall i, in_grid vox i -> nonzero vox i = true ->
       ix0 lo <= ix0 i <= ix0 hi /\ ix1 lo <= ix1 i <= ix1 hi /\
       ix2 lo <= ix2 i <= ix2 hi) /\
    (forall i, in_grid vox i -> (0 <= value vox i)%Q /\ (value vox i <= max self)%Q) /\
    in_grid vox w /\ nonzero vox w = true /\ value vox w = max self /\
    (0 < max self)%Q /\
    (0 < volume self)%Q.
Proof.
  intros A H.
  destruct (Rejection_ctor_inr name vox self H) as (s' & E & Z & Hself).
  destruct (scan_max vox s' E) as (Hle & Hat).
  destruct Hat as [E0|(w & Hw & Nw & Ew)]; [rewrite E0 in Z; discriminate|].
  pose proof (scan_box vox s' A E (ex_intro _ w (conj Hw Nw))) as BB.
  pose proof (bounding_box_corners vox _ _ BB) as (C0 & C1 & C2).
  cbn [ix0 ix1 ix2] in C0, C1, C2.
  destruct BB as (Hall & _). cbn [ix0 ix1 ix2] in Hall.
  pose proof (pad_bottom_range (bottom0 s') ltac:(lia)) as P0.
  pose proof (pad_bottom_range (bottom1 s') ltac:(lia)) as P1.
  pose proof (pad_bottom_range (bottom2 s') ltac:(lia)) as P2.
  assert (Mpos : (0 < sc_max s')%Q).
  { destruct (Hle w Hw) as (H0 & _). apply nonzero_true in Nw. rewrite Ew.
    destruct (Qlt_le_dec 0 (value vox w)) as [L|L]; [exact L|].
    exfalso. apply Nw. lra. }
  exists (mkIndex (pad_bottom (bottom0 s')) (pad_bottom (bottom1 s')) (pad_bottom (bottom2 s'))),
         (mkIndex (top0 s') (top1 s') (top2 s')), w.
  subst self. cbv zeta. cbn [image max volume ix0 ix1 ix2].
  split; [reflexivity|].
  split; [lia|]. split; [lia|]. split; [lia|]. split.
  { intros i Gi Ni. specialize (Hall i Gi Ni). lia. }
  split; [exact Hle|]. split; [exact Hw|]. split; [exact Nw|].
  split; [symmetry; exact Ew|]. split; [exact Mpos|].
  (* the accumulated sum and the voxel count are positive, and so are
     their roundings *)
  destruct (scan_inr _ _ _ _ E) as (Hnn & Hs). rewrite scan_fields in Hs.
  assert (Hv : (0 < sc_volume s')%Q).
  { rewrite Hs. unfold scan_init. cbn [sc_volume].
    apply (running_fadd_sign (value vox) (filter (nonzero vox) (Loop_0_3 vox)) 0).
    - intros i Hi. apply Hnn. apply filter_In in Hi. tauto.
    - lra.
    - right. exists w. split; [apply In_nonzero_Loop; tauto|].
      rewrite <- Ew. exact Mpos. }
  cbn [Subset size0 size1 size2 ix0 ix1 ix2].
  set (cnt := (top0 s' - pad_bottom (bottom0 s') + 1) *
              (top1 s' - pad_bottom (bottom1 s') + 1) *
              (top2 s' - pad_bottom (bottom2 s') + 1)).
  assert (Hc : (0 < inject_Z cnt)%Q).
  { change 0%Q with (inject_Z 0). rewrite <- Zlt_Qlt. unfold cnt.
    apply Z.mul_pos_pos; [apply Z.mul_pos_pos|]; lia. }
  unfold fmul, float_of_int. apply round32_positive.
  apply Qmult_lt_0_compat; [exact Hv|]. apply round32_positive. exact Hc.
Qed.

(** X2. After a successful construction the working volume has at least
    one voxel on each axis; each of its voxels reads a voxel inside the
    grid of the input, at a fixed non-negative shift; and every non-zero
    voxel of the input is one of its voxels. *)
Theorem Rejection_ctor_crop (name : string) (vox : Image Q) (self : Rejection) :
  addressable vox ->
  Rejection_ctor name vox = inr self ->
  positive_extent (image self) /\
  exists lo,
    0 <= ix0 lo /\ 0 <= ix1 lo /\ 0 <= ix2 lo /\
    (forall i, in_grid (image self) i ->
       in_grid vox (index_add lo i) /\
       value (image self) i = value vox (index_add lo i)) /\
    (forall j, in_grid vox j -> nonzero vox j = true ->
       exists i, in_grid (image self) i /\ index_add lo i = j).
Proof.
  intros A H.
  destruct (Rejection_ctor_facts name vox self A H)
    as (lo & hi & w & Himg & C0 & C1 & C2 & Hall & _).
  rewrite Himg. unfold positive_extent, in_grid, index_add.
  cbn [Subset size0 size1 size2 value].
  split; [lia|]. exists lo.
  split; [lia|]. split; [lia|]. split; [lia|]. split.
  - intros i Hi. split; [cbn [ix0 ix1 ix2]; lia|reflexivity].
  - intros j Gj Nj. specialize (Hall j Gj Nj).
    exists (mkIndex (ix0 j - ix0 lo) (ix1 j - ix1 lo) (ix2 j - ix2 lo)).
    cbn [ix0 ix1 ix2]. split; [lia|].
    destruct j as [j0 j1 j2]. cbn [ix0 ix1 ix2]. f_equal; lia.
Qed.

Lemma Rejection_ctor_crop_witness :
  addressable example_density /\
  Rejection_ctor "density.mif" example_density = inr example_rejection /\
  positive_extent (image example_rejection) /\
  exists lo,
    0 <= ix0 lo /\ 0 <= ix1 lo /\ 0 <= ix2 lo /\
    (forall i, in_grid (image example_rejection) i ->
       in_grid example_density (index_add lo i) /\
       value (image example_rejection) i = value example_density (index_add lo i)) /\
    (forall j, in_grid example_density j -> nonzero example_density j = true ->
       exists i, in_grid (image example_rejection) i /\ index_add lo i = j).
Proof.
  split; [exact example_density_addressable|].
  split; [exact example_rejection_constructed|].
  exact (Rejection_ctor_crop "density.mif" example_density example_rejection
           example_density_addressable example_rejection_constructed).
Defined.

(** X3. After a successful construction [max] and [volume] are positive,
    every value of the working volume lies between 0 and [max], and
    [max] is the value of one of its voxels. *)
Theorem Rejection_ctor_bounds (name : string) (vox : Image Q) (self : Rejection) :
  addressable vox ->
  Rejection_ctor name vox = inr self ->
  (0 < max self)%Q /\ (0 < volume self)%Q /\
  (forall i, in_grid (image self) i ->
     (0 <= value (image self) i)%Q /\ (value (image self) i <= max self)%Q) /\
  (exists i, in_grid (image self) i /\ value (image self) i = max self).
Proof.
  intros A H.
  destruct (Rejection_ctor_facts name vox self A H)
    as (lo & hi & w & Himg & C0 & C1 & C2 & Hall & Hle & Gw & Nw & Ew & Mpos & Vpos).
  split; [exact Mpos|]. split; [exact Vpos|].
  rewrite Himg. unfold in_grid. cbn [Subset size0 size1 size2 value]. split.
  - intros i Hi. apply Hle. unfold in_grid. cbn [ix0 ix1 ix2]. lia.
  - specialize (Hall w Gw Nw).
    exists (mkIndex (ix0 w - ix0 lo) (ix1 w - ix1 lo) (ix2 w - ix2 lo)).
    cbn [ix0 ix1 ix2]. split; [lia|].
    rewrite <- Ew. f_equal. destruct w as [w0 w1 w2]. cbn [ix0 ix1 ix2]. f_equal; lia.
Qed.

Lemma Rejection_ctor_bounds_witness :
  addressable example_density /\
  Rejection_ctor "density.mif" example_density = inr example_rejection /\
  (0 < max example_rejection)%Q /\ (0 < volume example_rejection)%Q /\
  (forall i, in_grid (image example_rejection) i ->
     (0 <= value (image example_rejection) i)%Q /\
     (value (image example_rejection) i <= max example_rejection)%Q) /\
  (exists i, in_grid (image example_rejection) i /\
             value (image example_rejection) i = max example_rejection).
Proof.
  split; [exact example_density_addressable|].
  split; [exact example_rejection_constructed|].
  exact (Rejection_ctor_bounds "density.mif" example_density example_rejection
           example_density_addressable example_rejection_constructed).
Defined.

(** X4. A successfully constructed strategy has a voxel in its grid at
    which every candidate is accepted, whatever threshold is drawn with
    it; hence a call returns as soon as the stream draws that voxel. *)
Theorem Rejection_peak_accepted (name : string) (vox : Image Q) (self : Rejection) :
  addressable vox ->
  Rejection_ctor name vox = inr self ->
  exists peak,
    in_grid (image self) peak /\
    (forall s, unit_tape (snd s) ->
       fst (fst (Rejection_draw self s)) = peak ->
       Rejection_again self (Rejection_draw self s) = false) /\
    (forall p g n,
       unit_tape g ->
       fst (fst (iterate (S n) (Rejection_draw self) (mkIndex 0 0 0, 0%Q, g))) = peak ->
       exists fuel r, Rejection_get_seed fuel self p g = Some r).
Proof.
  intros A H.
  destruct (Rejection_ctor_bounds name vox self A H) as (Mpos & _ & _ & peak & Gp & Ep).
  exists peak. split; [exact Gp|].
  assert (Acc : forall s, unit_tape (snd s) ->
                  fst (fst (Rejection_draw self s)) = peak ->
                  Rejection_again self (Rejection_draw self s) = false).
  { intros s U Hs. apply Rejection_again_false. rewrite Hs, Ep.
    destruct (Rejection_selector_range self s U Mpos) as (_ & Hlt).
    apply Qlt_le_weak. exact Hlt. }
  split; [exact Acc|].
  intros p g n U Hn. apply Rejection_get_seed_returns_iff. exists n.
  rewrite iterate_succ in *. apply Acc; [|exact Hn].
  apply (unit_tape_ext g); [|exact U].
  apply (Rejection_draw_tape self n (mkIndex 0 0 0, 0%Q, g)).
Qed.

Lemma Rejection_peak_accepted_witness :
  addressable example_density /\
  Rejection_ctor "density.mif" example_density = inr example_rejection /\
  exists peak,
    in_grid (image example_rejection) peak /\
    (forall s, unit_tape (snd s) ->
       fst (fst (Rejection_draw example_rejection s)) = peak ->
       Rejection_again example_rejection (Rejection_draw example_rejection s) = false) /\
    (forall p g n,
       unit_tape g ->
       fst (fst (iterate (S n) (Rejection_draw example_rejection)
                   (mkIndex 0 0 0, 0%Q, g))) = peak ->
       exists fuel r, Rejection_get_seed fuel example_rejection p g = Some r).
Proof.
  split; [exact example_density_addressable|].
  split; [exact example_rejection_constructed|].
  exact (Rejection_peak_accepted "density.mif" example_density example_rejection
           example_density_addressable example_rejection_constructed).
Defined.

(** ** Calls of the distributions *)

Section Consumption.
Context {S : Type}.
Variable engine : S -> Rng.
Variable body : S -> S.
Variable per_iteration : nat.
Hypothesis body_draws : forall s,
  tape (engine (body s)) = tape (engine s) /\
  drawn (engine (body s)) = (drawn (engine s) + per_iteration)%nat.

Lemma iterate_draws (n : nat) : forall s,
  tape (engine (iterate n body s)) = tape (engine s) /\
  drawn (engine (iterate n body s)) = (drawn (engine s) + per_iteration * n)%nat.
Proof.
  induction n as [|n IH]; intro s.
  - cbn [iterate]. split; [reflexivity|lia].
  - cbn [iterate]. destruct (IH (body s)) as (Ht & Hd).
    destruct (body_draws s) as (Bt & Bd).
    split; [congruence|]. rewrite Hd, Bd. lia.
Qed.

Lemma do_while_draws (again : S -> bool) (fuel : nat) (s r : S) :
  do_while fuel body again s = Some r ->
  tape (engine r) = tape (engine s) /\
  exists n, (1 <= n <= fuel)%nat /\
            r = iterate n body s /\
            (forall j, (1 <= j < n)%nat -> again (iterate j body s) = true) /\
            drawn (engine r) = (drawn (engine s) + per_iteration * n)%nat.
Proof.
  intro H. destruct (do_while_Some _ _ _ _ _ H) as (n & Hn & Hr & _ & Hj).
  subst r. destruct (iterate_draws (Datatypes.S n) s) as (Ht & Hd).
  split; [exact Ht|]. exists (Datatypes.S n).
  split; [lia|]. split; [reflexivity|]. split; [|exact Hd].
  intros j Hlt. destruct j as [|j]; [lia|]. apply Hj. lia.
Qed.
End Consumption.

Lemma jitter_draws (i : Index) (g : Rng) :
  tape (snd (jitter i g)) = tape g /\ drawn (snd (jitter i g)) = (drawn g + 3)%nat.
Proof. unfold jitter, uniform, rng_next; simpl. split; [reflexivity|lia]. Qed.

Lemma draw_index_draws {A} (m : Image A) (g : Rng) :
  tape (snd (draw_index m g)) = tape g /\
  drawn (snd (draw_index m g)) = (drawn g + 3)%nat.
Proof. unfold draw_index, uniform_int, rng_next; simpl. split; [reflexivity|lia]. Qed.

(** X5. A call that returns has executed its loop body [n] times, where
    the [n]-th candidate is the first that the loop test keeps, and has
    called a distribution exactly [3 n] times in [Sphere::get_seed],
    [3 n + 3] times in [SeedMask::get_seed] and [4 n + 3] times in
    [Rejection::get_seed]. *)
Theorem distribution_calls :
  (forall fuel self p g b p' self' g',
      Sphere_get_seed fuel self p g = Some (b, p', self', g') ->
      exists n, (1 <= n <= fuel)%nat /\
        Sphere_again (iterate n Sphere_draw (p, g)) = false /\
        (forall j, (1 <= j < n)%nat ->
           Sphere_again (iterate j Sphere_draw (p, g)) = true) /\
        drawn g' = (drawn g + 3 * n)%nat) /\
  (forall fuel self p g b p' self' g',
      SeedMask_get_seed fuel self p g = Some (b, p', self', g') ->
      exists n, (1 <= n <= fuel)%nat /\
        SeedMask_again self (iterate n (SeedMask_draw self) (mkIndex 0 0 0, g)) = false /\
        (forall j, (1 <= j < n)%nat ->
           SeedMask_again self (iterate j (SeedMask_draw self) (mkIndex 0 0 0, g)) = true) /\
        drawn g' = (drawn g + (3 * n + 3))%nat) /\
  (forall fuel self p g b p' self' g',
      Rejection_get_seed fuel self p g = Some (b, p', self', g') ->
      exists n, (1 <= n <= fuel)%nat /\
        Rejection_again self
          (iterate n (Rejection_draw self) (mkIndex 0 0 0, 0%Q, g)) = false /\
        (forall j, (1 <= j < n)%nat ->
           Rejection_again self
             (iterate j (Rejection_draw self) (mkIndex 0 0 0, 0%Q, g)) = true) /\
        drawn g' = (drawn g + (4 * n + 3))%nat).
Proof.
  split; [|split].
  - intros fuel self p g b p' self' g' H. unfold Sphere_get_seed in H.
    destruct (do_while fuel Sphere_draw Sphere_again (p, g)) as [[c g1]|] eqn:E;
      [|discriminate].
    inversion H; subst.
    pose proof (do_while_Some _ _ _ _ _ E) as (m & _ & _ & Ha & _).
    apply (do_while_draws snd Sphere_draw 3) in E.
    + destruct E as (_ & n & Hn & Hr & Hj & Ed). exists n.
      split; [exact Hn|]. split; [rewrite <- Hr; exact Ha|]. split; [exact Hj|exact Ed].
    + intro s. unfold Sphere_draw, uniform, rng_next; simpl. split; [reflexivity|lia].
  - intros fuel self p g b p' self' g' H. unfold SeedMask_get_seed in H.
    destruct (do_while fuel (SeedMask_draw self) (SeedMask_again self) (mkIndex 0 0 0, g))
      as [[seed g1]|] eqn:E; [|discriminate].
    pose proof (do_while_Some _ _ _ _ _ E) as (m & _ & _ & Ha & _).
    apply (do_while_draws snd (SeedMask_draw self) 3) in E;
      [|intro s; apply draw_index_draws].
    destruct E as (_ & n & Hn & Hr & Hj & Ed). cbn [snd] in Ed.
    rewrite Hr in Ha.
    destruct (jitter_draws seed g1) as (_ & Jd).
    destruct (jitter seed g1) as [q g2]. cbn [snd] in Jd.
    inversion H; subst. exists n.
    split; [exact Hn|]. split; [exact Ha|]. split; [exact Hj|lia].
  - intros fuel self p g b p' self' g' H. unfold Rejection_get_seed in H.
    destruct (do_while fuel (Rejection_draw self) (Rejection_again self)
                (mkIndex 0 0 0, 0%Q, g)) as [[[seed sel] g1]|] eqn:E; [|discriminate].
    pose proof (do_while_Some _ _ _ _ _ E) as (m & _ & _ & Ha & _).
    apply (do_while_draws snd (Rejection_draw self) 4) in E.
    + destruct E as (_ & n & Hn & Hr & Hj & Ed). cbn [snd] in Ed.
      rewrite Hr in Ha.
      destruct (jitter_draws seed g1) as (_ & Jd).
      destruct (jitter seed g1) as [q g2]. cbn [snd] in Jd.
      inversion H; subst. exists n.
      split; [exact Hn|]. split; [exact Ha|]. split; [exact Hj|lia].
    + intro s. unfold Rejection_draw, draw_index, uniform_int, uniform, rng_next; simpl.
      split; [reflexivity|lia].
Qed.

Lemma distribution_calls_witness :
  Sphere_get_seed 1 example_sphere origin (constant_rng (1#2))
    = Some (true, mkVec 1 2 3, example_sphere, mkRng (fun _ => 1#2) 3) /\
  exists n, (1 <= n <= 1)%nat /\
    Sphere_again (iterate n Sphere_draw (origin, constant_rng (1#2))) = false /\
    (forall j, (1 <= j < n)%nat ->
       Sphere_again (iterate j Sphere_draw (origin, constant_rng (1#2))) = true) /\
    drawn (mkRng (fun _ => 1#2) 3) = (drawn (constant_rng (1#2)) + 3 * n)%nat.
Proof.
  split; [vm_compute; reflexivity|].
  apply (proj1 distribution_calls 1%nat example_sphere origin (constant_rng (1#2)) true
           (mkVec 1 2 3) example_sphere).
  vm_compute. reflexivity.
Defined.

(** ** Grid_per_voxel and the engine *)

Lemma Grid_per_voxel_get_seed_engine_free (fuel : nat) (self : Grid_per_voxel)
    (p1 p2 : Vector3) (g1 g2 : Rng) :
  match Grid_per_voxel_get_seed fuel self p1 g1,
        Grid_per_voxel_get_seed fuel self p2 g2 with
  | Some (b1, q1, s1, h1), Some (b2, q2, s2, h2) =>
      b1 = b2 /\ s1 = s2 /\ h1 = g1 /\ h2 = g2 /\
      (b1 = true -> q1 = q2) /\ (b1 = false -> q1 = p1 /\ q2 = p2)
  | None, None => True
  | _, _ => False
  end.
Proof.
  unfold Grid_per_voxel_get_seed, Grid_per_voxel_emit.
  destruct (gpv_expired self).
  { repeat split; auto; discriminate. }
  destruct (pz (gpv_pos self) + 1 >=? os self);
    [|repeat split; auto; discriminate].
  destruct (py (gpv_pos self) + 1 >=? os self);
    [|repeat split; auto; discriminate].
  destruct (px (gpv_pos self) + 1 >=? os self);
    [|repeat split; auto; discriminate].
  destruct (do_while fuel (advance (gpv_mask self)) (advance_again (gpv_mask self))
              (gpv_cursor self)) as [c|]; [|exact I].
  destruct (ix0 (index c) =? size0 (gpv_mask self)); repeat split; auto; discriminate.
Qed.

(** X6. [Grid_per_voxel] does not use the random engine: run from the
    same object, with any two engines and any two vectors of the caller,
    a sequence of calls yields the same seeds and leaves the same object,
    and each engine is handed back unchanged. *)
Theorem Grid_per_voxel_engine_free (fuel calls : nat) :
  forall (self : Grid_per_voxel) (p1 p2 : Vector3) (g1 g2 : Rng),
  match drain (Grid_per_voxel_get_seed fuel) gpv_slot calls self p1 g1,
        drain (Grid_per_voxel_get_seed fuel) gpv_slot calls self p2 g2 with
  | Some (l1, s1, h1), Some (l2, s2, h2) =>
      l1 = l2 /\ s1 = s2 /\ h1 = g1 /\ h2 = g2
  | None, None => True
  | _, _ => False
  end.
Proof.
  induction calls as [|calls IH]; intros self p1 p2 g1 g2; [exact I|].
  cbn [drain].
  pose proof (Grid_per_voxel_get_seed_engine_free fuel self p1 p2 g1 g2) as H.
  destruct (Grid_per_voxel_get_seed fuel self p1 g1) as [[[[b1 q1] s1] h1]|];
    destruct (Grid_per_voxel_get_seed fuel self p2 g2) as [[[[b2 q2] s2] h2]|];
    try contradiction; [|exact I].
  destruct H as (-> & -> & -> & -> & Ht & Hf).
  destruct b2.
  - rewrite (Ht eq_refl). specialize (IH s2 q2 q2 g1 g2).
    destruct (drain (Grid_per_voxel_get_seed fuel) gpv_slot calls s2 q2 g1)
      as [[[l1 o1] k1]|];
      destruct (drain (Grid_per_voxel_get_seed fuel) gpv_slot calls s2 q2 g2)
      as [[[l2 o2] k2]|]; try contradiction; [|exact I].
    destruct IH as (-> & -> & -> & ->). repeat split; reflexivity.
  - repeat split; reflexivity.
Qed.

(** ** What a call on a per-voxel strategy leaves alone *)

Lemma advance_iterate_trail (mask : Image bool) (n : nat) : forall c,
  exists l, List.length l = n /\ trail (iterate n (advance mask) c) = trail c ++ l.
Proof.
  induction n as [|n IH]; intro c.
  - exists []. split; [reflexivity|]. cbn [iterate]. rewrite app_nil_r. reflexivity.
  - destruct (IH (advance mask c)) as (l & Hl & Ht).
    exists (advance_index mask (index c) :: l). split; [cbn; lia|].
    cbn [iterate]. rewrite Ht. unfold advance. cbn [trail].
    rewrite <- app_assoc. reflexivity.
Qed.

Lemma advance_loop_trail (mask : Image bool) (fuel : nat) (c c' : Cursor) :
  do_while fuel (advance mask) (advance_again mask) c = Some c' ->
  exists l, (1 <= List.length l <= fuel)%nat /\ trail c' = trail c ++ l.
Proof.
  intro H. destruct (do_while_Some _ _ _ _ _ H) as (n & Hn & Hr & _).
  destruct (advance_iterate_trail mask (S n) c) as (l & Hl & Ht).
  exists l. split; [lia|]. rewrite Hr. exact Ht.
Qed.

(** X7. A call of [Random_per_voxel::get_seed] or
    [Grid_per_voxel::get_seed] never changes the mask or the
    configuration ([num]; [os], [offset], [step]) and only appends to the
    history of the cursor. A [false] return leaves the caller's vector
    and the engine untouched; a [true] return comes from an object that
    is not expired afterwards and, for [Random_per_voxel], has taken
    exactly three samples from the engine. *)
Theorem per_voxel_frame :
  (forall fuel self p g b p' self' g',
      Random_per_voxel_get_seed fuel self p g = Some (b, p', self', g') ->
      rpv_mask self' = rpv_mask self /\ num self' = num self /\
      (exists l, trail (rpv_cursor self') = trail (rpv_cursor self) ++ l) /\
      tape g' = tape g /\
      (b = true -> rpv_expired self' = false /\ drawn g' = (drawn g + 3)%nat) /\
      (b = false -> p' = p /\ g' = g)) /\
  (forall fuel self p g b p' self' g',
      Grid_per_voxel_get_seed fuel self p g = Some (b, p', self', g') ->
      gpv_mask self' = gpv_mask self /\ os self' = os self /\
      offset self' = offset self /\ step self' = step self /\
      (exists l, trail (gpv_cursor self') = trail (gpv_cursor self) ++ l) /\
      g' = g /\
      (b = true -> gpv_expired self' = false) /\
      (b = false -> p' = p)).
Proof.
  split.
  - intros fuel self p g b p' self' g' H.
    unfold Random_per_voxel_get_seed in H.
    destruct (rpv_expired self) eqn:E.
    { inversion H; subst. repeat split; auto; try discriminate.
      exists []. rewrite app_nil_r. reflexivity. }
    destruct (orb _ _).
    + destruct (do_while fuel (advance (rpv_mask self)) (advance_again (rpv_mask self))
                  (rpv_cursor self)) as [c|] eqn:D; [|discriminate H].
      destruct (advance_loop_trail _ _ _ _ D) as (l & _ & Hl).
      destruct (ix0 (index c) =? size0 (rpv_mask self)).
      * inversion H; subst. cbn [rpv_mask num rpv_cursor rpv_expired].
        repeat split; auto; try discriminate. exists l. exact Hl.
      * rewrite Random_per_voxel_emit_eq in H. cbn [rpv_cursor rpv_mask] in H.
        destruct (jitter_draws (index c) g) as (Jt & Jd).
        inversion H; subst. cbn [rpv_mask num rpv_cursor rpv_expired].
        repeat split; auto; try discriminate. exists l. exact Hl.
    + rewrite Random_per_voxel_emit_eq in H. cbn [rpv_cursor rpv_mask] in H.
      destruct (jitter_draws (index (rpv_cursor self)) g) as (Jt & Jd).
      inversion H; subst. cbn [rpv_mask num rpv_cursor rpv_expired].
      repeat split; auto; try discriminate.
      exists []. rewrite app_nil_r. reflexivity.
  - intros fuel self p g b p' self' g' H.
    unfold Grid_per_voxel_get_seed, Grid_per_voxel_emit, Grid_set in H.
    assert (Hnil : exists l : list Index,
               trail (gpv_cursor self) = trail (gpv_cursor self) ++ l)
      by (exists []; rewrite app_nil_r; reflexivity).
    destruct (gpv_expired self) eqn:E.
    { inversion H; subst. repeat split; auto; discriminate. }
    destruct (pz (gpv_pos self) + 1 >=? os self);
      [|inversion H; subst; cbn; repeat split; auto; discriminate].
    destruct (py (gpv_pos self) + 1 >=? os self);
      [|inversion H; subst; cbn; repeat split; auto; discriminate].
    destruct (px (gpv_pos self) + 1 >=? os self);
      [|inversion H; subst; cbn; repeat split; auto; discriminate].
    destruct (do_while fuel (advance (gpv_mask self)) (advance_again (gpv_mask self))
                (gpv_cursor self)) as [c|] eqn:D; [|discriminate H].
    destruct (advance_loop_trail _ _ _ _ D) as (l & _ & Hl).
    destruct (ix0 (index c) =? size0 (gpv_mask self));
      inversion H; subst; cbn; repeat split; auto; try discriminate;
      exists l; exact Hl.
Qed.

Lemma per_voxel_frame_witness :
  Random_per_voxel_get_seed 2 (Random_per_voxel_ctor empty_mask 1) origin
    (constant_rng (1#2))
    = Some (false, origin, expired_example, constant_rng (1#2)) /\
  rpv_mask expired_example = rpv_mask (Random_per_voxel_ctor empty_mask 1) /\
  num expired_example = num (Random_per_voxel_ctor empty_mask 1) /\
  (exists l, trail (rpv_cursor expired_example)
             = trail (rpv_cursor (Random_per_voxel_ctor empty_mask 1)) ++ l) /\
  tape (constant_rng (1#2)) = tape (constant_rng (1#2)) /\
  (false = true ->
   rpv_expired expired_example = false /\
   drawn (constant_rng (1#2)) = (drawn (constant_rng (1#2)) + 3)%nat) /\
  (false = false -> origin = origin /\ constant_rng (1#2) = constant_rng (1#2)).
Proof.
  split; [reflexivity|].
  apply (proj1 per_voxel_frame 2%nat (Random_per_voxel_ctor empty_mask 1) origin
           (constant_rng (1#2)) false origin expired_example (constant_rng (1#2))).
  reflexivity.
Defined.

(** ** Masks without a non-zero voxel *)

Lemma positions_through_end (mask : Image bool) :
  positive_extent mask ->
  map (voxel_at mask) (seq 0 (S (voxel_count mask))) = raster mask ++ [past_the_end mask].
Proof.
  intro Hext. rewrite seq_S, map_app. cbn [map Nat.add].
  rewrite (voxel_at_end mask Hext), <- (raster_positions mask Hext). reflexivity.
Qed.

Lemma all_zero_traversal (mask : Image bool) (fuel : nat) :
  positive_extent mask ->
  (forall v, in_grid mask v -> value mask v = false) ->
  (voxel_count mask < fuel)%nat ->
  do_while fuel (advance mask) (advance_again mask) (mkCursor (mkIndex 0 0 (-1)) [])
  = Some (mkCursor (past_the_end mask) (raster mask ++ [past_the_end mask])).
Proof.
  intros Hext Hzero Hfuel.
  destruct (advance_finds mask Hext (voxel_count mask) 0 (mkCursor (mkIndex 0 0 (-1)) [])
              fuel ltac:(lia) (advance_index_start mask Hext) Hfuel)
    as (b & Hb & Hdo & [(HbN & _)|(HbN & Hval & _)]).
  - subst b. rewrite Hdo. cbn [trail app].
    rewrite Nat.sub_0_r, (positions_through_end mask Hext), (voxel_at_end mask Hext).
    reflexivity.
  - rewrite (Hzero _ (voxel_at_in_grid mask Hext b HbN)) in Hval. discriminate Hval.
Qed.

(** X8. On a mask without any non-zero voxel the very first call of
    [Random_per_voxel::get_seed] and of [Grid_per_voxel::get_seed]
    returns [false], whatever the quota or the oversampling factor: the
    cursor runs through the whole grid once and the object is expired. *)
Theorem all_zero_mask_exhausted (mask : Image bool) (fuel : nat) (p : Vector3) (g : Rng) :
  positive_extent mask ->
  (forall v, in_grid mask v -> value mask v = false) ->
  (voxel_count mask < fuel)%nat ->
  (forall k, exists self',
      Random_per_voxel_get_seed fuel (Random_per_voxel_ctor mask k) p g
        = Some (false, p, self', g) /\
      rpv_expired self' = true /\
      trail (rpv_cursor self') = raster mask ++ [past_the_end mask]) /\
  (forall factor, exists self',
      Grid_per_voxel_get_seed fuel (Grid_per_voxel_ctor mask factor) p g
        = Some (false, p, self', g) /\
      gpv_expired self' = true /\
      trail (gpv_cursor self') = raster mask ++ [past_the_end mask]).
Proof.
  intros Hext Hzero Hfuel.
  pose proof (all_zero_traversal mask fuel Hext Hzero Hfuel) as Hdo.
  split.
  - intro k. unfold Random_per_voxel_ctor.
    rewrite (Random_per_voxel_get_seed_move mask fuel _ k 0 p g)
      by (left; cbn; lia).
    rewrite Hdo. cbn [index past_the_end ix0]. rewrite Z.eqb_refl.
    eexists. split; [reflexivity|]. split; reflexivity.
  - intro factor. unfold Grid_per_voxel_get_seed, Grid_per_voxel_ctor.
    cbn [gpv_expired gpv_pos gpv_cursor gpv_mask os px py pz].
    replace (factor + 1 >=? factor) with true by (symmetry; apply Z.geb_le; lia).
    rewrite Hdo. cbn [index past_the_end ix0]. rewrite Z.eqb_refl.
    eexists. split; [reflexivity|]. split; reflexivity.
Qed.

Lemma blank_mask_extent : positive_extent blank_mask.
Proof. unfold positive_extent; simpl. lia. Qed.

Lemma all_zero_mask_exhausted_witness :
  positive_extent blank_mask /\
  (forall v, in_grid blank_mask v -> value blank_mask v = false) /\
  (voxel_count blank_mask < 5)%nat /\
  (forall k, exists self',
      Random_per_voxel_get_seed 5 (Random_per_voxel_ctor blank_mask k) origin
        (constant_rng (1#2)) = Some (false, origin, self', constant_rng (1#2)) /\
      rpv_expired self' = true /\
      trail (rpv_cursor self') = raster blank_mask ++ [past_the_end blank_mask]) /\
  (forall factor, exists self',
      Grid_per_voxel_get_seed 5 (Grid_per_voxel_ctor blank_mask factor) origin
        (constant_rng (1#2)) = Some (false, origin, self', constant_rng (1#2)) /\
      gpv_expired self' = true /\
      trail (gpv_cursor self') = raster blank_mask ++ [past_the_end blank_mask]).
Proof.
  assert (Z : forall v, in_grid blank_mask v -> value blank_mask v = false)
    by (intros v _; reflexivity).
  assert (F : (voxel_count blank_mask < 5)%nat) by (vm_compute; lia).
  split; [exact blank_mask_extent|]. split; [exact Z|]. split; [exact F|].
  exact (all_zero_mask_exhausted blank_mask 5 origin (constant_rng (1#2))
           blank_mask_extent Z F).
Defined.

(** X9. On a mask without any non-zero voxel [SeedMask::get_seed] never
    returns: with valid samples every drawn index lies in the grid, so
    the loop test holds after every execution of the body. *)
Theorem SeedMask_all_zero_never_returns (self : SeedMask) (fuel : nat) (p : Vector3)
    (g : Rng) :
  positive_extent (sm_mask self) ->
  (forall v, in_grid (sm_mask self) v -> value (sm_mask self) v = false) ->
  unit_tape g ->
  SeedMask_get_seed fuel self p g = None.
Proof.
  intros Hext Hzero U. unfold SeedMask_get_seed.
  rewrite do_while_never; [reflexivity|].
  intro n. rewrite iterate_succ. unfold SeedMask_again, SeedMask_draw at 1.
  rewrite Hzero; [reflexivity|].
  apply draw_index_in_grid; [|exact Hext].
  apply (unit_tape_ext g); [|exact U].
  apply (SeedMask_draw_tape self n (mkIndex 0 0 0, g)).
Qed.

Lemma SeedMask_all_zero_never_returns_witness :
  positive_extent blank_mask /\
  (forall v, in_grid blank_mask v -> value blank_mask v = false) /\
  unit_tape (constant_rng (1#2)) /\
  SeedMask_get_seed 7 (mkSeedMask blank_mask) origin (constant_rng (1#2)) = None.
Proof.
  assert (Z : forall v, in_grid blank_mask v -> value blank_mask v = false)
    by (intros v _; reflexivity).
  split; [exact blank_mask_extent|]. split; [exact Z|]. split; [exact half_rng_unit|].
  exact (SeedMask_all_zero_never_returns (mkSeedMask blank_mask) 7 origin
           (constant_rng (1#2)) blank_mask_extent Z half_rng_unit).
Defined.

(** X15. On a mask whose every voxel is non-zero [SeedMask::get_seed]
    keeps its first candidate: one execution of the loop body suffices,
    whatever the stream of valid outcomes. *)
Theorem SeedMask_full_mask_first_candidate (self : SeedMask) (p : Vector3) (g : Rng) :
  positive_extent (sm_mask self) ->
  (forall v, in_grid (sm_mask self) v -> value (sm_mask self) v = true) ->
  unit_tape g ->
  exists seed g1 q g',
    SeedMask_draw self (mkIndex 0 0 0, g) = (seed, g1) /\
    jitter seed g1 = (q, g') /\
    SeedMask_get_seed 1 self p g
      = Some (true, transform_apply (voxel2scanner (sm_mask self)) q, self, g').
Proof.
  intros Hext Hfull U. unfold SeedMask_get_seed. cbn [do_while].
  assert (Hacc : SeedMask_again self (SeedMask_draw self (mkIndex 0 0 0, g)) = false).
  { unfold SeedMask_again, SeedMask_draw. cbn [snd].
    rewrite Hfull; [reflexivity|]. apply draw_index_in_grid; assumption. }
  rewrite Hacc.
  destruct (SeedMask_draw self (mkIndex 0 0 0, g)) as [seed g1] eqn:D.
  destruct (jitter seed g1) as [q g2] eqn:J.
  exists seed, g1, q, g2. split; [reflexivity|]. split; [exact J|reflexivity].
Qed.

Lemma full_mask_all_set (v : Index) : in_grid full_mask v -> value full_mask v = true.
Proof. intros _. reflexivity. Qed.

Lemma SeedMask_full_mask_first_candidate_witness :
  positive_extent full_mask /\
  (forall v, in_grid full_mask v -> value full_mask v = true) /\
  unit_tape (constant_rng (1#2)) /\
  exists seed g1 q g',
    SeedMask_draw (mkSeedMask full_mask) (mkIndex 0 0 0, constant_rng (1#2)) = (seed, g1) /\
    jitter seed g1 = (q, g') /\
    SeedMask_get_seed 1 (mkSeedMask full_mask) origin (constant_rng (1#2))
      = Some (true, transform_apply (voxel2scanner full_mask) q, mkSeedMask full_mask, g').
Proof.
  split; [exact full_mask_extent|]. split; [exact full_mask_all_set|].
  split; [exact half_rng_unit|].
  exact (SeedMask_full_mask_first_candidate (mkSeedMask full_mask) origin
           (constant_rng (1#2)) full_mask_extent full_mask_all_set half_rng_unit).
Defined.

(** ** Seeds of Random_per_voxel and the mask *)

(** X10. Every seed of a run of [Random_per_voxel] to exhaustion is drawn
    for a voxel of the grid with a non-zero mask value and is the
    transform of a point that lies (for extents up to 2^23) within half
    a voxel of the index of that voxel on each axis, both ends included;
    the nearest voxel of that point is the voxel or its upper
    neighbour. *)
Theorem Random_per_voxel_seeds_by_voxel (mask : Image bool) (k : Z) (fuel calls : nat)
    (p : Vector3) (g : Rng) :
  positive_extent mask ->
  float_indexed mask ->
  1 <= k ->
  (voxel_count mask < fuel)%nat ->
  (Z.to_nat k * List.length (masked_voxels mask) < calls)%nat ->
  unit_tape g ->
  exists seeds self' g',
    drain (Random_per_voxel_get_seed fuel) rpv_voxel calls
      (Random_per_voxel_ctor mask k) p g = Some (seeds, self', g') /\
    Forall (fun s =>
              in_grid mask (fst s) /\ value mask (fst s) = true /\
              exists q,
                snd s = transform_apply (voxel2scanner mask) q /\
                closed_voxel (fst s) q /\
                same_or_next (fst s) (nearest_voxel q)) seeds.
Proof.
  intros Hext F Hk Hfuel Hcalls U.
  destruct (rpv_from_start mask Hext k Hk fuel Hfuel calls p g) as
    (seeds & self' & g' & Hd & Hv & _ & _ & Hw).
  { rewrite length_repeats. exact Hcalls. }
  { exact U. }
  exists seeds, self', g'. split; [exact Hd|].
  rewrite Forall_forall in *. intros s Hs.
  assert (Hm : in_grid mask (fst s) /\ value mask (fst s) = true).
  { assert (Hin : In (fst s) (map fst seeds)) by (apply in_map; exact Hs).
    rewrite Hv in Hin. apply in_flat_map in Hin. destruct Hin as (v & Hv' & Hrep).
    apply repeat_spec in Hrep. rewrite Hrep.
    apply In_masked_voxels. exact Hv'. }
  destruct Hm as (Hg & Hval). split; [exact Hg|]. split; [exact Hval|].
  destruct (Hw s Hs) as (g0 & U0 & Hq). cbn [rpv_mask Random_per_voxel_ctor] in Hq.
  exists (fst (jitter (fst s) g0)).
  assert (W : closed_voxel (fst s) (fst (jitter (fst s) g0)))
    by (apply (jitter_closed mask); assumption).
  split; [exact Hq|]. split; [exact W|apply nearest_voxel_closed; exact W].
Qed.

Lemma example_mask_float_indexed : float_indexed example_mask.
Proof. unfold float_indexed; simpl. lia. Qed.

Lemma Random_per_voxel_seeds_by_voxel_witness :
  positive_extent example_mask /\ float_indexed example_mask /\ 1 <= 2 /\
  (voxel_count example_mask < 3)%nat /\
  (Z.to_nat 2 * List.length (masked_voxels example_mask) < 3)%nat /\
  unit_tape (constant_rng (1#2)) /\
  exists seeds self' g',
    drain (Random_per_voxel_get_seed 3) rpv_voxel 3
      (Random_per_voxel_ctor example_mask 2) origin (constant_rng (1#2))
      = Some (seeds, self', g') /\
    Forall (fun s =>
              in_grid example_mask (fst s) /\ value example_mask (fst s) = true /\
              exists q,
                snd s = transform_apply (voxel2scanner example_mask) q /\
                closed_voxel (fst s) q /\
                same_or_next (fst s) (nearest_voxel q)) seeds.
Proof.
  assert (H1 : 1 <= 2) by lia.
  assert (H2 : (voxel_count example_mask < 3)%nat) by (vm_compute; lia).
  assert (H3 : (Z.to_nat 2 * List.length (masked_voxels example_mask) < 3)%nat)
    by (vm_compute; lia).
  split; [exact example_mask_extent|]. split; [exact example_mask_float_indexed|].
  split; [exact H1|]. split; [exact H2|].
  split; [exact H3|]. split; [exact half_rng_unit|].
  exact (Random_per_voxel_seeds_by_voxel example_mask 2 3 3 origin (constant_rng (1#2))
           example_mask_extent example_mask_float_indexed H1 H2 H3 half_rng_unit).
Defined.

(** * Properties of the image handlers *)

Lemma push_back_all_app {Entry : Type} (src : list Entry) : forall dst,
  ImageIO.push_back_all src dst = dst ++ src.
Proof.
  induction src as [|e src IH]; intro dst; cbn [ImageIO.push_back_all].
  - rewrite app_nil_r. reflexivity.
  - rewrite IH, <- app_assoc. reflexivity.
Qed.

(** X11. [merge] succeeds exactly on a handler without mapped addresses;
    it then appends the files of the other handler in their order, adds
    its [segsize] modulo 2^64, and keeps the addresses and both flags; a
    handler of valid size stays of valid size. *)
Theorem merge_appends {Entry Ptr : Type} (self B : ImageIO.Base Entry Ptr) :
  ((exists r, ImageIO.merge self B = Some r) <-> ImageIO.addresses self = []) /\
  (forall r, ImageIO.merge self B = Some r ->
     ImageIO.files r = ImageIO.files self ++ ImageIO.files B /\
     List.length (ImageIO.files r)
       = (List.length (ImageIO.files self) + List.length (ImageIO.files B))%nat /\
     ImageIO.segsize r = (ImageIO.segsize self + ImageIO.segsize B) mod 2 ^ 64 /\
     ImageIO.well_sized r /\
     (ImageIO.segsize self + ImageIO.segsize B <= SIZE_MAX ->
      ImageIO.well_sized self -> ImageIO.well_sized B ->
      ImageIO.segsize r = ImageIO.segsize self + ImageIO.segsize B) /\
     ImageIO.addresses r = [] /\
     ImageIO.is_new r = ImageIO.is_new self /\
     ImageIO.writable r = ImageIO.writable self).
Proof.
  unfold ImageIO.merge. split.
  - split.
    + intros (r & H). destruct (ImageIO.addresses self); [reflexivity|discriminate].
    + intros ->. eexists. reflexivity.
  - intros r H. destruct (ImageIO.addresses self) eqn:E; [|discriminate].
    inversion H; subst r; clear H.
    cbn [ImageIO.files ImageIO.segsize ImageIO.addresses ImageIO.is_new ImageIO.writable].
    rewrite push_back_all_app, length_app.
    change (SIZE_MAX + 1) with (2 ^ 64).
    split; [reflexivity|]. split; [reflexivity|]. split; [reflexivity|]. split.
    { unfold ImageIO.well_sized. cbn [ImageIO.segsize].
      pose proof (Z.mod_pos_bound (ImageIO.segsize self + ImageIO.segsize B) (2 ^ 64)
                    eq_refl) as Hb.
      change SIZE_MAX with 18446744073709551615.
      change (2 ^ 64) with 18446744073709551616 in *. lia. }
    split.
    { unfold ImageIO.well_sized. intros Hle (Ha & _) (Hb & _).
      apply Z.mod_small. change SIZE_MAX with 18446744073709551615 in *.
      change (2 ^ 64) with 18446744073709551616. lia. }
    split; [reflexivity|]. split; reflexivity.
Qed.

Lemma merge_appends_witness :
  ImageIO.merge empty_handler one_file_handler
    = Some (ImageIO.mkBase ["a.mif"%string] 16 [] true false) /\
  ImageIO.files (ImageIO.mkBase ["a.mif"%string] 16 ([] : list Z) true false)
    = ImageIO.files empty_handler ++ ImageIO.files one_file_handler.
Proof.
  split; [reflexivity|].
  apply (proj2 (merge_appends empty_handler one_file_handler)
           (ImageIO.mkBase ["a.mif"%string] 16 [] true false)).
  reflexivity.
Defined.

(** X12. Merging is associative on handlers without mapped addresses:
    merging [b] and then [c] into [a] gives the same handler as merging
    [c] into [b] first and the result into [a], also when the sum of the
    sizes wraps around; and merging a handler without files and of size
    zero changes nothing in a handler of valid size. *)
Theorem merge_associative {Entry Ptr : Type} (a b c : ImageIO.Base Entry Ptr) :
  ImageIO.addresses a = [] ->
  ImageIO.addresses b = [] ->
  (exists r,
     match ImageIO.merge a b with
     | Some ab => ImageIO.merge ab c
     | None => None
     end = Some r /\
     match ImageIO.merge b c with
     | Some bc => ImageIO.merge a bc
     | None => None
     end = Some r) /\
  (ImageIO.well_sized a -> ImageIO.files c = [] -> ImageIO.segsize c = 0 ->
   ImageIO.merge a c = Some a).
Proof.
  intros Ha Hb. split.
  - unfold ImageIO.merge. rewrite Ha, Hb.
    cbn [ImageIO.addresses ImageIO.files ImageIO.segsize ImageIO.is_new ImageIO.writable].
    eexists. split; [reflexivity|].
    f_equal. f_equal.
    + rewrite !push_back_all_app, app_assoc. reflexivity.
    + rewrite Zplus_mod_idemp_l, Zplus_mod_idemp_r, Z.add_assoc. reflexivity.
  - intros (H0 & H1) Hf Hs. unfold ImageIO.merge. rewrite Ha, Hf, Hs.
    cbn [ImageIO.push_back_all]. rewrite Z.add_0_r, Z.mod_small.
    + destruct a. cbn in *. subst. reflexivity.
    + change SIZE_MAX with 18446744073709551615 in *. lia.
Qed.

Lemma merge_associative_witness :
  ImageIO.addresses empty_handler = [] /\
  ImageIO.addresses one_file_handler = [] /\
  (exists r,
     match ImageIO.merge empty_handler one_file_handler with
     | Some ab => ImageIO.merge ab loaded_handler
     | None => None
     end = Some r /\
     match ImageIO.merge one_file_handler loaded_handler with
     | Some bc => ImageIO.merge empty_handler bc
     | None => None
     end = Some r) /\
  (ImageIO.well_sized empty_handler -> ImageIO.files loaded_handler = [] ->
   ImageIO.segsize loaded_handler = 0 ->
   ImageIO.merge empty_handler loaded_handler = Some empty_handler).
Proof.
  split; [reflexivity|]. split; [reflexivity|].
  exact (merge_associative empty_handler one_file_handler loaded_handler
           eq_refl eq_refl).
Defined.

Lemma last_default_irrelevant {A : Type} (l : list A) : forall a d d',
  last (a :: l) d = last (a :: l) d'.
Proof.
  induction l as [|b l IH]; intros a d d'; [reflexivity|].
  cbn [last] in *. apply (IH b).
Qed.

(** X13. However often [set_readwrite_if_existing] is called, it changes
    nothing but [writable]; on a new image [writable] keeps its value,
    and on an existing image it holds the argument of the last call. *)
Theorem readwrite_if_existing_calls {Entry Ptr : Type} (calls : list bool)
    (self : ImageIO.Base Entry Ptr) :
  let r := fold_left (fun x b => ImageIO.set_readwrite_if_existing b x) calls self in
  ImageIO.files r = ImageIO.files self /\
  ImageIO.segsize r = ImageIO.segsize self /\
  ImageIO.addresses r = ImageIO.addresses self /\
  ImageIO.is_new r = ImageIO.is_new self /\
  ImageIO.writable r =
    if ImageIO.is_new self then ImageIO.writable self
    else last calls (ImageIO.writable self).
Proof.
  revert self. induction calls as [|b calls IH]; intro self.
  - cbn. destruct (ImageIO.is_new self); repeat split; reflexivity.
  - cbn [fold_left]. specialize (IH (ImageIO.set_readwrite_if_existing b self)).
    cbv zeta in IH. cbv zeta.
    destruct IH as (Hf & Hs & Ha & Hn & Hw).
    rewrite Hf, Hs, Ha, Hn, Hw.
    unfold ImageIO.set_readwrite_if_existing, ImageIO.set_readwrite.
    destruct (ImageIO.is_new self) eqn:E; cbn [negb].
    + rewrite E. repeat split; reflexivity.
    + cbn [ImageIO.files ImageIO.segsize ImageIO.addresses ImageIO.is_new
           ImageIO.writable].
      repeat split; try reflexivity.
      destruct calls as [|b' calls]; [reflexivity|].
      cbn [last]. apply last_default_irrelevant.
Qed.

(** X14. [segment (n)] passes its assertion exactly for [n] below
    [nsegments ()], and [segment_size ()] exactly when there is a
    segment; a handler that [merge] has just accepted has none, so that
    both fail on it. *)
Theorem segment_bounds {Entry Ptr : Type} (self : ImageIO.Base Entry Ptr) :
  (forall n, (exists a, ImageIO.segment self n = Some a) <->
             0 <= n < ImageIO.nsegments self) /\
  ((exists s, ImageIO.segment_size self = Some s) <-> 0 < ImageIO.nsegments self) /\
  (forall s, ImageIO.segment_size self = Some s -> s = ImageIO.segsize self) /\
  (forall B r, ImageIO.merge self B = Some r ->
     ImageIO.nsegments r = 0 /\ ImageIO.segment_size r = None /\
     forall n, ImageIO.segment r n = None).
Proof.
  split; [|split; [|split]].
  - intro n. unfold ImageIO.segment. split.
    + intros (a & H).
      destruct (Z.leb_spec 0 n); destruct (Z.ltb_spec n (ImageIO.nsegments self));
        cbn [andb] in H; try discriminate. lia.
    + intros (H0 & H1).
      replace (0 <=? n) with true by (symmetry; apply Z.leb_le; exact H0).
      replace (n <? ImageIO.nsegments self) with true
        by (symmetry; apply Z.ltb_lt; exact H1).
      cbn [andb].
      destruct (nth_error (ImageIO.addresses self) (Z.to_nat n)) as [a|] eqn:E.
      * exists a. reflexivity.
      * apply nth_error_None in E. unfold ImageIO.nsegments in H1. lia.
  - unfold ImageIO.segment_size, ImageIO.check, ImageIO.nsegments. split.
    + intros (s & H). destruct (Z.eqb_spec (Z.of_nat (List.length (ImageIO.addresses self))) 0);
        [discriminate|lia].
    + intro H. destruct (Z.eqb_spec (Z.of_nat (List.length (ImageIO.addresses self))) 0);
        [lia|]. eexists. reflexivity.
  - unfold ImageIO.segment_size. intros s H.
    destruct (ImageIO.check self); [inversion H; reflexivity|discriminate].
  - intros B r H. unfold ImageIO.merge in H.
    destruct (ImageIO.addresses self) eqn:E; [|discriminate].
    inversion H; subst r; clear H.
    unfold ImageIO.segment_size, ImageIO.check, ImageIO.segment, ImageIO.nsegments.
    cbn [ImageIO.addresses List.length]. split; [reflexivity|]. split; [reflexivity|].
    intro n. destruct (Z.leb_spec 0 n); cbn [andb]; [|reflexivity].
    destruct (Z.ltb_spec n (Z.of_nat 0)); [lia|reflexivity].
Qed.

Lemma segment_bounds_witness :
  ImageIO.merge empty_handler one_file_handler
    = Some (ImageIO.mkBase ["a.mif"%string] 16 [] true false) /\
  ImageIO.nsegments (ImageIO.mkBase ["a.mif"%string] 16 ([] : list Z) true false) = 0 /\
  ImageIO.segment_size (ImageIO.mkBase ["a.mif"%string] 16 ([] : list Z) true false)
    = None /\
  forall n,
    ImageIO.segment (ImageIO.mkBase ["a.mif"%string] 16 ([] : list Z) true false) n = None.
Proof.
  split; [reflexivity|].
  apply (proj2 (proj2 (proj2 (segment_bounds empty_handler))) one_file_handler).
  reflexivity.
Defined.
